(** * AutoProf isophote fitting: a shallow embedding of
      [autoprofutils/Isophote_Fit.py]

    Numbers.  A Python/numpy float is modelled by [float64]: an exact real
    number, or one of the IEEE special values +inf, -inf and NaN.  Rounding,
    overflow and signed zeros are not modelled (a zero divisor is taken as
    +0); comparisons and arithmetic on the special values follow IEEE 754,
    which is what numpy implements.  Array parameters of the fit (radii,
    ellipticities, position angles) hold ordinary reals.  Where rounding
    decides a property (whether a loop ends, whether a remainder reaches
    its modulus) the property is stated with hypotheses and bounds under
    which a float run agrees with the exact one.

    Collaborators.  [autoprofutils.SharedFunctions] is not part of the
    sources at hand; what the fitter imports from it is an interface
    ([SharedFunctions]).  scikit-learn's regression pipeline and numpy's
    random generator are interfaces as well, and so are [np.quantile]
    and the Fourier transform ([ArrayFunctions]), whose values are
    fixed on arrays of finite samples. *)

From Stdlib Require Import Reals Lra Lia List ZArith String Permutation.
From stdpp Require Import gmap strings.

Local Open Scope R_scope.
#[local] Set Default Proof Using "Type".

(** ** numpy values and functions *)

Module NP.

Inductive float64 : Type :=
| Fin (x : R)
| PInf
| NInf
| NaN.

Definition Rltb (x y : R) : bool := if Rlt_dec x y then true else false.
Definition Rleb (x y : R) : bool := if Rle_dec x y then true else false.
Definition Reqb (x y : R) : bool := if Req_dec_T x y then true else false.

Definition isnan (a : float64) : bool :=
  match a with NaN => true | _ => false end.

Definition isfinite (a : float64) : bool :=
  match a with Fin _ => true | _ => false end.

(** [a < b] on floats: false as soon as one side is NaN. *)
Definition flt (a b : float64) : bool :=
  match a, b with
  | NaN, _ | _, NaN => false
  | Fin x, Fin y => Rltb x y
  | Fin _, PInf => true
  | Fin _, NInf => false
  | PInf, _ => false
  | NInf, NInf => false
  | NInf, _ => true
  end.

(** [a >= b] on floats. *)
Definition fge (a b : float64) : bool :=
  match a, b with
  | NaN, _ | _, NaN => false
  | _, _ => negb (flt a b)
  end.

Definition fgt (a b : float64) : bool := flt b a.

Definition fopp (a : float64) : float64 :=
  match a with
  | Fin x => Fin (- x)
  | PInf => NInf
  | NInf => PInf
  | NaN => NaN
  end.

Definition fadd (a b : float64) : float64 :=
  match a, b with
  | NaN, _ | _, NaN => NaN
  | Fin x, Fin y => Fin (x + y)
  | PInf, NInf | NInf, PInf => NaN
  | PInf, _ | _, PInf => PInf
  | NInf, _ | _, NInf => NInf
  end.

Definition fsub (a b : float64) : float64 := fadd a (fopp b).

(** The sign of an infinite product or quotient. *)
Definition signed_inf (positive : bool) : float64 :=
  if positive then PInf else NInf.

Definition fmul (a b : float64) : float64 :=
  match a, b with
  | NaN, _ | _, NaN => NaN
  | Fin x, Fin y => Fin (x * y)
  | Fin x, PInf | PInf, Fin x =>
      if Reqb x 0 then NaN else signed_inf (Rltb 0 x)
  | Fin x, NInf | NInf, Fin x =>
      if Reqb x 0 then NaN else signed_inf (Rltb x 0)
  | PInf, PInf | NInf, NInf => PInf
  | PInf, NInf | NInf, PInf => NInf
  end.

(** numpy float division: a zero divisor gives an infinity, or NaN for
    0/0, with a warning and no exception. *)
Definition fdiv (a b : float64) : float64 :=
  match a, b with
  | NaN, _ | _, NaN => NaN
  | Fin x, Fin y =>
      if Reqb y 0
      then (if Reqb x 0 then NaN else signed_inf (Rltb 0 x))
      else Fin (x / y)
  | Fin _, _ => Fin 0
  | _, Fin y => signed_inf (match a with PInf => negb (Rltb y 0) | _ => Rltb y 0 end)
  | _, _ => NaN
  end.

Definition fabs (a : float64) : float64 :=
  match a with
  | Fin x => Fin (Rabs x)
  | PInf | NInf => PInf
  | NaN => NaN
  end.

(** Python's builtin [max(0, x)]: the first argument unless [x > 0]. *)
Definition max0 (x : float64) : float64 :=
  if fgt x (Fin 0) then x else Fin 0.

(** Python's [x % m] on floats, for a positive [m]: the remainder of the
    floored division.  Here it is the exact remainder, which is below
    [m]; a float run rounds it, and for an [x] just below zero the
    rounded [x + m] is [m] itself.  The ranges stated of it are closed
    for this reason. *)
Definition pymod (x m : R) : R := x - m * IZR (Zfloor (x / m)).

(** Two constants of float64: the least normal number and the gap
    between 1 and the next float.  A product [r * q] of floats is above
    [r] when [r] is at least the one and [q] is at least 1 plus the
    other; below them it may round back to [r]. *)
Definition float_min_normal : R := / 2 ^ 1022.
Definition float_epsilon : R := / 2 ^ 52.

(** [np.all(np.isfinite(xs))] *)
Definition all_finite (xs : list float64) : bool := forallb isfinite xs.

(** The reals held by an array of finite floats. *)
Fixpoint finite_values (xs : list float64) : option (list R) :=
  match xs with
  | [] => Some []
  | Fin x :: xs' => option_map (cons x) (finite_values xs')
  | _ :: _ => None
  end.

(** [np.sum], [np.mean] *)
Definition Rsum (xs : list R) : R := fold_right Rplus 0 xs.

Definition np_sum (xs : list float64) : float64 := fold_right fadd (Fin 0) xs.

Definition np_mean (xs : list float64) : float64 :=
  fdiv (np_sum xs) (Fin (INR (length xs))).

(** Sorting of reals, as [np.sort] does inside [np.median] and
    [np.quantile]. *)
Fixpoint insert_sorted (x : R) (l : list R) : list R :=
  match l with
  | [] => [x]
  | y :: l' => if Rleb x y then x :: l else y :: insert_sorted x l'
  end.

Definition sort (l : list R) : list R := fold_right insert_sorted [] l.

(** [np.median]: the middle of the sorted samples, the mean of the two
    middle ones for an even count; NaN for an empty array. *)
Definition Rmedian (xs : list R) : float64 :=
  let s := sort xs in
  let n := length s in
  if Nat.eqb n 0 then NaN
  else if Nat.even n
       then Fin ((nth (n / 2 - 1) s 0 + nth (n / 2) s 0) / 2)
       else Fin (nth (n / 2) s 0).

(** [np.quantile(xs, q)] with numpy's default linear interpolation
    between the two order statistics around position [(n-1) q]. *)
Definition Rquantile (xs : list R) (q : R) : float64 :=
  let s := sort xs in
  let n := length s in
  if Nat.eqb n 0 then NaN
  else
    let h := INR (n - 1) * q in
    let lo := Z.to_nat (Zfloor h) in
    let a := nth lo s 0 in
    let b := nth (Nat.min (lo + 1) (n - 1)) s 0 in
    Fin (a + (h - INR lo) * (b - a)).

(** The order in which [np.sort] and [np.partition] arrange floats: -inf,
    the numbers, +inf, and NaN last. *)
Definition fleb (a b : float64) : bool :=
  match a, b with
  | _, NaN => true
  | NaN, _ => false
  | NInf, _ => true
  | _, NInf => false
  | _, PInf => true
  | PInf, _ => false
  | Fin x, Fin y => Rleb x y
  end.

Fixpoint finsert_sorted (x : float64) (l : list float64) : list float64 :=
  match l with
  | [] => [x]
  | y :: l' => if fleb x y then x :: l else y :: finsert_sorted x l'
  end.

Definition fsort (l : list float64) : list float64 :=
  fold_right finsert_sorted [] l.

(** [np.median] on floats: the mean of the middle one or two of the
    arranged samples, infinite ones among them ([np.median([1, 2, inf])]
    is 2); NaN when a sample is NaN, which numpy finds in the last place
    of the arranged array, and for an empty array. *)
Definition np_median (xs : list float64) : float64 :=
  let s := fsort xs in
  let n := length s in
  if Nat.eqb n 0 then NaN
  else if isnan (nth (n - 1) s NaN) then NaN
  else if Nat.even n
       then fdiv (fadd (nth (n / 2 - 1) s NaN) (nth (n / 2) s NaN)) (Fin 2)
       else nth (n / 2) s NaN.

(** [np.clip(xs, a_max = m, a_min = None)]: the elementwise minimum, NaN
    where either side is NaN. *)
Definition fmin (a b : float64) : float64 :=
  match a, b with
  | NaN, _ | _, NaN => NaN
  | _, _ => if flt b a then b else a
  end.

Definition np_clip_max (xs : list float64) (m : float64) : list float64 :=
  map (fun x => fmin x m) xs.

(** [scipy.fftpack.fft]: coefficient [k] of the discrete Fourier transform
    of [N] samples is the complex number
    [sum_j x_j * exp(-2 pi i j k / N)], here as (real, imaginary). *)
Fixpoint dft_sum (k N : nat) (j : nat) (xs : list R) : R * R :=
  match xs with
  | [] => (0, 0)
  | x :: xs' =>
      let w := 2 * PI * INR j * INR k / INR N in
      let '(re, im) := dft_sum k N (S j) xs' in
      (x * cos w + re, - (x * sin w) + im)
  end.

Definition dft (xs : list R) (k : nat) : R * R := dft_sum k (length xs) 0 xs.

(** [np.abs] of a complex number. *)
Definition cabs (c : R * R) : R := sqrt (fst c * fst c + snd c * snd c).

(** A float that is a number and not negative, +inf included. *)
Definition nonneg (a : float64) : Prop :=
  a = PInf \/ exists x, a = Fin x /\ 0 <= x.

(** [np.quantile(xs, q)] and [np.abs(fft(xs)[k])] on arrays of floats.
    On finite samples they are the functions above.  On an array with an
    infinite or a NaN sample what they give is not the same in every
    numpy and FFT library (the interpolation between two order
    statistics may form [inf - inf] or [0 * inf], and so may the
    products of a transform), so that they are taken as an interface:
    all that is known of such an array is that the modulus of a
    coefficient is never a negative number. *)
Class ArrayFunctions : Type := {
  np_quantile : list float64 -> R -> float64;
  np_abs_fft : list float64 -> nat -> float64;
  np_quantile_finite :
    forall rs q, rs <> [] -> 0 <= q <= 1 ->
      np_quantile (map Fin rs) q = Rquantile rs q;
  np_abs_fft_finite :
    forall rs k, (k < length rs)%nat ->
      np_abs_fft (map Fin rs) k = Fin (cabs (dft rs k));
  np_abs_fft_sign :
    forall xs k, np_abs_fft xs k = NaN \/ nonneg (np_abs_fft xs k)
}.

(** [np.argmin] over floats, as numpy's loop has it: the running minimum
    is replaced by every later element that is not [>=] it, and the scan
    stops at the first NaN, which therefore counts as the minimum. *)
Fixpoint argmin_scan (mp : float64) (min_ind i : nat) (l : list float64) : nat :=
  match l with
  | [] => min_ind
  | x :: l' =>
      if fge x mp
      then argmin_scan mp min_ind (S i) l'
      else if isnan x then i else argmin_scan x i (S i) l'
  end.

Definition argmin (l : list float64) : nat :=
  match l with
  | [] => 0%nat
  | x :: l' => if isnan x then 0%nat else argmin_scan x 0 1 l'
  end.

(** [np.sqrt], [np.arctan] on floats *)
Definition fsqrt (a : float64) : float64 :=
  match a with
  | Fin x => if Rltb x 0 then NaN else Fin (sqrt x)
  | PInf => PInf
  | NInf | NaN => NaN
  end.

Definition arctan (a : float64) : float64 :=
  match a with
  | Fin x => Fin (atan x)
  | PInf => Fin (PI / 2)
  | NInf => Fin (- (PI / 2))
  | NaN => NaN
  end.

(** [np.clip(x, a_min = -1, a_max = 1)] on a real. *)
Definition clip (lo hi x : R) : R := Rmin (Rmax x lo) hi.

(** [np.log10] *)
Definition log10 (x : R) : float64 :=
  if Rltb 0 x then Fin (ln x / ln 10)
  else if Reqb x 0 then NInf else NaN.

End NP.
Export NP.

(** ** Outcomes of a Python call: a value, an exception, or a loop that
    has not finished within the steps it was given. *)

Inductive exn : Type :=
| IndexError
| ValueError
| Exception (msg : string).

Inductive outcome (A : Type) : Type :=
| Return (a : A)
| Raise (e : exn)
| OutOfFuel.
Arguments Return {A} a.
Arguments Raise {A} e.
Arguments OutOfFuel {A}.

#[global] Instance outcome_ret : MRet outcome := fun A a => Return a.
#[global] Instance outcome_bind : MBind outcome := fun A B k m =>
  match m with
  | Return a => k a
  | Raise e => Raise e
  | OutOfFuel => OutOfFuel
  end.

(** [l[i]] for a non-negative index. *)
Definition index {A} (l : list A) (i : nat) : outcome A :=
  match l !! i with
  | Some x => Return x
  | None => Raise IndexError
  end.

(** ** Collaborators *)

Definition image : Type := list (list float64).
Definition mask_array : Type := list (list bool).

(** The images live in a store, as numpy arrays do: the fitter receives
    the address of [IMG] and returns it. *)
Abbreviation store := (gmap nat image).

(** [results['center']], a dict with the keys 'x' and 'y'. *)
Record center : Type := { center_x : R; center_y : R }.

(** What [Isophote_Fit.py] imports from [autoprofutils.SharedFunctions]
    and uses in the fitters.  [_iso_extract dat sma eps pa c more mask
    interp_mask]: the keyword arguments [more] and [interp_mask] are
    [None] where the caller leaves them out. *)
Class SharedFunctions : Type := {
  _iso_extract : image -> R -> R -> R -> center ->
                 option bool -> option mask_array -> option bool ->
                 list float64;
  _x_to_eps : R -> R;
  _inv_x_to_eps : R -> R;
  Angle_TwoAngles : R -> R -> R
}.

(** [np.random]: the process-wide generator, as a state. *)
Class NumpyRandom : Type := {
  rng : Type;
  (** [np.random.normal(loc, scale)] *)
  normal : R -> R -> rng -> R * rng;
  (** [np.random.shuffle(I)] *)
  shuffle : list nat -> rng -> list nat * rng;
  shuffle_perm : forall l g, Permutation (fst (shuffle l g)) l
}.

(** scikit-learn:
    [make_pipeline(PolynomialFeatures(deg), HuberRegressor(epsilon))]
    fitted on [(x, y)] and evaluated at [x]; one prediction per sample. *)
Class Sklearn : Type := {
  huber_fit_predict : nat -> R -> list float64 -> list R -> list R;
  huber_fit_predict_length :
    forall deg eps x y, length (huber_fit_predict deg eps x y) = length y
}.

(** ** The Fourier losses *)

Section Loss.
Context {AF : ArrayFunctions} {SF : SharedFunctions}.

(** The two [reg_loss += ...] lines for the neighbour [j] of [i], with the
    bandwidth [bw] that the source writes as [2*0.2] or [2*0.3]. *)
Definition reg_add (bw : R) (E PA : list R) (i j : nat) (reg_loss : float64)
  : outcome float64 :=
  Ei ← index E i;
  Ej ← index E j;
  let reg_loss1 := fadd reg_loss (fabs (fdiv (Fin (Ei - Ej)) (Fin (1 - Ej)))) in
  PAi ← index PA i;
  PAj ← index PA j;
  mret (fadd reg_loss1
          (fabs (fdiv (Fin (Angle_TwoAngles (2 * PAi) (2 * PAj))) (Fin bw)))).

Definition reg_loss (bw : R) (R_ E PA : list R) (i : nat) : outcome float64 :=
  r1 ← (if (i <? length R_ - 1)%nat
        then reg_add bw E PA i (i + 1) (Fin 0)
        else mret (Fin 0));
  if (0 <? i)%nat then reg_add bw E PA i (i - 1) r1 else mret r1.

(** [np.abs(fft(xs))[2]]: [scipy.fftpack.fft] refuses an empty array
    with a ValueError, and [coefs[2]] exists when the ring has at least
    three samples. *)
Definition second_coef_abs (xs : list float64) : outcome float64 :=
  if (length xs =? 0)%nat then Raise ValueError
  else if (3 <=? length xs)%nat then Return (np_abs_fft xs 2)
       else Raise IndexError.

Definition _FFT_Robust_loss (dat : image) (R_ E PA : list R) (i : nat)
    (C : center) (noise : R) (mask : option mask_array) (reg_scale : R)
  : outcome float64 :=
  Ri ← index R_ i;
  Ei ← index E i;
  PAi ← index PA i;
  let isovals :=
    _iso_extract dat Ri Ei PAi C None mask
      (Some (match mask with None => false | Some _ => true end)) in
  let q := match mask with None => 0.85 | Some _ => 0.9 end in
  c2 ← second_coef_abs (np_clip_max isovals (np_quantile isovals q));
  let f2_loss :=
    fdiv c2 (fmul (Fin (INR (length isovals)))
                  (fadd (max0 (np_median isovals)) (Fin noise))) in
  reg ← reg_loss (2 * 0.2) R_ E PA i;
  mret (fmul f2_loss (fadd (Fin 1) (fmul reg (Fin reg_scale)))).

Definition _FFT_mean_loss (dat : image) (R_ E PA : list R) (i : nat)
    (C : center) (noise : R) (mask : option mask_array) (reg_scale : R)
  : outcome float64 :=
  Ri ← index R_ i;
  Ei ← index E i;
  PAi ← index PA i;
  let isovals :=
    _iso_extract dat Ri Ei PAi C None mask
      (Some (match mask with None => false | Some _ => true end)) in
  if negb (all_finite isovals) then mret PInf
  else
    c2 ← second_coef_abs isovals;
    let f2_loss :=
      fdiv c2 (fmul (Fin (INR (length isovals)))
                    (fadd (max0 (np_mean isovals)) (Fin noise))) in
    reg ← reg_loss (2 * 0.3) R_ E PA i;
    mret (fmul f2_loss (fadd (Fin 1) (fmul reg (Fin reg_scale)))).

End Loss.

(** ** The fitters

    [Isophote_Fit_FFT_Robust] and [Isophote_Fit_FFT_mean] are the same
    text up to the loss they call, the statistic of the ring that stops
    the radii ([np.median] or [np.mean]) and the default fit limit. *)

Inductive variant : Type := Robust | Mean.

(** The entries of [results] that the fitters read; 'mask' is optional. *)
Record results_t : Type := {
  background : R;
  background_noise : R;
  psf_fwhm : R;
  init_ellip : R;
  init_pa : R;
  results_center : center;
  results_mask : option mask_array
}.

(** A value of the dict the fitter returns. *)
Inductive value : Type :=
| VList (l : list R)
| VArray (l : list float64)
| VStr (s : string).

(** ["%.2f" % x] *)
Class PythonFormat : Type := { format_2f : R -> string }.

(** One candidate of the pool: a dict with the keys 'ellip', 'pa' and
    'loss'. *)
Record candidate : Type := {
  c_ellip : list R;
  c_pa : list R;
  c_loss : float64
}.

(** The variables of the fitting loop. *)
Record fit_state {NR : NumpyRandom} : Type := {
  ellip : list R;
  pa : list R;
  count : nat;
  count_nochange : nat;
  I : list nat;
  gen : rng
}.

(** [arr[:k] = v] *)
Definition fill_prefix {A} (k : nat) (v : A) (arr : list A) : list A :=
  replicate (Nat.min k (length arr)) v ++ drop k arr.

(** [arr[-1]] *)
Definition last_item {A} (arr : list A) : outcome A :=
  match arr with
  | [] => Raise IndexError
  | _ => index arr (length arr - 1)
  end.

(** Python's builtin [min] over a sequence of reals. *)
Definition py_min (xs : list R) : outcome R :=
  match xs with
  | [] => Raise ValueError
  | x :: xs' => Return (fold_left (fun m y => if Rltb y m then y else m) xs' x)
  end.

Section Fitter.
Context {AF : ArrayFunctions} {SF : SharedFunctions} {NR : NumpyRandom}
        {SK : Sklearn} {PF : PythonFormat}.

Definition loss_of (v : variant) :=
  match v with Robust => _FFT_Robust_loss | Mean => _FFT_mean_loss end.

Definition central_of (v : variant) : list float64 -> float64 :=
  match v with Robust => np_median | Mean => np_mean end.

Definition default_fit_limit (v : variant) : R :=
  match v with Robust => 2 | Mean => 1 end.

(** *** Sampling radii *)

Section Radii.
Variables (v : variant) (dat : image) (half_size : R) (res : results_t)
          (mask : option mask_array) (scale fit_limit : R).

(** The inner [while]: one more radius per step, until the ring is too
    faint or the radius has reached [max(IMG.shape)/2].  The radii are
    the exact products; a float run rounds them, and a factor that
    rounds to 1 leaves the radius where it is. *)
Fixpoint grow_radii (fuel : nat) (shrink : nat) (sample_radii : list R)
  : outcome (list R) :=
  match fuel with
  | O => OutOfFuel
  | S fuel' =>
      r ← last_item sample_radii;
      if Rltb r half_size
      then
        let isovals :=
          _iso_extract dat r (init_ellip res) (init_pa res)
            (results_center res) (Some false) mask None in
        if flt (central_of v isovals) (Fin (fit_limit * background_noise res))
        then Return sample_radii
        else grow_radii fuel' shrink
               (sample_radii ++ [r * (1 + scale / (1 + INR shrink))])
      else Return sample_radii
  end.

(** The outer [while shrink < 5], with [attempts = 5 - shrink], and the
    [raise] that follows it. *)
Fixpoint radii_attempts (fuel : nat) (attempts : nat) (shrink : nat)
  : outcome (list R) :=
  match attempts with
  | O => Raise (Exception
           "Unable to initialize ellipse fit, check diagnostic plots. Possible missed center.")
  | S attempts' =>
      sample_radii ← grow_radii fuel shrink [3 * psf_fwhm res / 2];
      if (length sample_radii <? 15)%nat
      then radii_attempts fuel attempts' (S shrink)
      else Return sample_radii
  end.

Definition sample_radii_init (fuel : nat) : outcome (list R) :=
  radii_attempts fuel 5 0.

End Radii.

(** *** The fitting loop *)

Section Loop.
(** [loss E PA i reg_scale]: the loss of the variant with the image, the
    radii, the centre, the noise and the mask of this fit. *)
Variable loss : list R -> list R -> nat -> R -> outcome float64.
Variable regularize_scale : R.
Variable n_radii : nat.

Definition N_perturb : nat := 5.
Definition perturb_scale : list R := [0.03; 0.06].

Definition reg_scale_at (count : nat) : R :=
  if (4 <? count)%nat then regularize_scale else 0.

(** One pass of [for n in range(N_perturb)]: a copy of the current arrays,
    changed at [i] only, and its loss. *)
Definition perturbation (count i : nat) (ellip pa : list R) (g : rng)
  : outcome (candidate * rng) :=
  let p_ellip := ellip in
  let p_pa := pa in
  s0 ← index perturb_scale 0;
  s1 ← index perturb_scale 1;
  '(p_ellip, g) ←
    (if bool_decide (count mod 3 ∈ [0; 1]%nat)
     then e ← index p_ellip i;
          let '(z, g') := normal 0 s0 g in
          mret (<[i := _x_to_eps (_inv_x_to_eps e + z)]> p_ellip, g')
     else mret (p_ellip, g));
  '(p_pa, g) ←
    (if bool_decide (count mod 3 ∈ [1; 2]%nat)
     then a ← index p_pa i;
          let '(z, g') := normal 0 s1 g in
          mret (<[i := pymod (a + z) PI]> p_pa, g')
     else mret (p_pa, g));
  l ← loss p_ellip p_pa i (reg_scale_at count);
  mret ({| c_ellip := p_ellip; c_pa := p_pa; c_loss := l |}, g).

Fixpoint add_perturbations (n : nat) (count i : nat) (ellip pa : list R)
    (perturbations : list candidate) (g : rng)
  : outcome (list candidate * rng) :=
  match n with
  | O => mret (perturbations, g)
  | S n' =>
      '(p, g') ← perturbation count i ellip pa g;
      add_perturbations n' count i ellip pa (perturbations ++ [p]) g'
  end.

(** The candidate pool for the radius index [i]. *)
Definition candidates (count i : nat) (ellip pa : list R) (g : rng)
  : outcome (list candidate * rng) :=
  l0 ← loss ellip pa i (reg_scale_at count);
  add_perturbations N_perturb count i ellip pa
    [{| c_ellip := ellip; c_pa := pa; c_loss := l0 |}] g.

(** The body of [for i in I]. *)
Definition refine_radius (i : nat) (s : fit_state) : outcome fit_state :=
  '(perturbations, g) ← candidates (count s) i (ellip s) (pa s) (gen s);
  let best := argmin (map c_loss perturbations) in
  if (0 <? best)%nat
  then
    p ← index perturbations best;
    mret {| ellip := c_ellip p; pa := c_pa p; count := count s;
            count_nochange := 0; I := I s; gen := g |}
  else
    mret {| ellip := ellip s; pa := pa s; count := count s;
            count_nochange := count_nochange s + 1; I := I s; gen := g |}.

Fixpoint for_each (idx : list nat) (s : fit_state) : outcome fit_state :=
  match idx with
  | [] => mret s
  | i :: idx' => s' ← refine_radius i s; for_each idx' s'
  end.

(** The condition of the [while]. *)
Definition continue_fit (s : fit_state) : bool :=
  (count s <? 300)%nat && (count_nochange s <? 3 * n_radii)%nat.

(** The body of the [while]. *)
Definition iteration (s : fit_state) : outcome fit_state :=
  let '(I', g) := shuffle (I s) (gen s) in
  for_each I' {| ellip := ellip s; pa := pa s; count := count s + 1;
                 count_nochange := count_nochange s; I := I'; gen := g |}.

Fixpoint fit_loop (fuel : nat) (s : fit_state) : outcome fit_state :=
  if continue_fit s
  then match fuel with
       | O => OutOfFuel
       | S fuel' => s' ← iteration s; fit_loop fuel' s'
       end
  else mret s.

End Loop.

(** *** After the loop *)

(** The body of [for i in range(5)]: the collapsed-centre test at [i]. *)
Definition collapse_step (i : nat) (ep : list R * list R)
  : outcome (list R * list R) :=
  let '(ellip, pa) := ep in
  e_i ← index ellip i;
  e_next ← index ellip (i + 1);
  if Rltb 0.5 (_inv_x_to_eps e_i - _inv_x_to_eps e_next)
  then
    p_next ← index pa (i + 1);
    mret (fill_prefix (i + 1) e_next ellip, fill_prefix (i + 1) p_next pa)
  else mret (ellip, pa).

Fixpoint collapse_from (idx : list nat) (ep : list R * list R)
  : outcome (list R * list R) :=
  match idx with
  | [] => mret ep
  | i :: idx' => ep' ← collapse_step i ep; collapse_from idx' ep'
  end.

Definition detect_collapsed_center (ellip pa : list R)
  : outcome (list R * list R) :=
  collapse_from (seq 0 5) (ellip, pa).

(** [ellip[:3] = min(ellip[:3])] *)
Definition clamp_first3 (ellip : list R) : outcome (list R) :=
  m ← py_min (take 3 ellip);
  mret (fill_prefix 3 m ellip).

Definition _ellip_smooth (R_ E : list R) (deg : nat) : list R :=
  map _x_to_eps
      (huber_fit_predict deg 2 (map log10 R_) (map _inv_x_to_eps E)).

(** [x % m] on a float and a positive real. *)
Definition fmod (a : float64) (m : R) : float64 :=
  match a with
  | Fin x => Fin (pymod x m)
  | _ => NaN
  end.

(** The angle rebuilt from the two clipped predictions. *)
Definition pa_of_predictions (pred_pa_s pred_pa_c : R) : float64 :=
  fdiv (fmod (fadd (arctan (fdiv (Fin pred_pa_s) (Fin pred_pa_c)))
                   (Fin (PI * (if Rltb pred_pa_c 0 then 1 else 0))))
             (2 * PI))
       (Fin 2).

(** [HuberRegressor()] has epsilon 1.35. *)
Definition _pa_smooth (R_ PA : list R) (deg : nat) : list float64 :=
  let x := map log10 R_ in
  let pred_pa_s :=
    map (clip (-1) 1)
        (huber_fit_predict deg 1.35 x (map (fun a => sin (2 * a)) PA)) in
  let pred_pa_c :=
    map (clip (-1) 1)
        (huber_fit_predict deg 1.35 x (map (fun a => cos (2 * a)) PA)) in
  zip_with pa_of_predictions pred_pa_s pred_pa_c.

(** The arrays left by "detect collapsed center" and "Smooth ellip and pa
    profile": the raw arrays as returned, the arrays handed to the two
    smoothers, and the smoothed trends. *)
Record smoothed : Type := {
  raw_ellip : list R;
  raw_pa : list R;
  smooth_ellip_arg : list R;
  smooth_pa_arg : list R;
  smooth_ellip : list R;
  smooth_pa : list float64
}.

Definition smooth_profile (sample_radii ellip pa : list R) : outcome smoothed :=
  let smooth_ellip0 := ellip in
  let smooth_pa0 := pa in
  ellip' ← clamp_first3 ellip;
  mret {| raw_ellip := ellip'; raw_pa := pa;
          smooth_ellip_arg := smooth_ellip0; smooth_pa_arg := smooth_pa0;
          smooth_ellip := _ellip_smooth sample_radii smooth_ellip0 5;
          smooth_pa := _pa_smooth sample_radii smooth_pa0 5 |}.

(** *** Errors *)

(** [np.sqrt(np.sum((raw[lo:hi] - smooth[lo:hi])**2)/4)] on two slices. *)
Definition rms4 (raw smooth : list float64) : float64 :=
  fsqrt (fdiv (np_sum (map (fun d => fmul d d) (zip_with fsub raw smooth)))
              (Fin 4)).

(** [arr[lo:hi]] for [0 <= lo]. *)
Definition slice {A} (lo hi : nat) (arr : list A) : list A :=
  take (hi - lo) (drop lo arr).

(** [arr[-4:]] *)
Definition last4 {A} (arr : list A) : list A := drop (length arr - 4) arr.

(** [arr[-1] = v] *)
Definition set_last {A} (v : A) (arr : list A) : outcome (list A) :=
  match arr with
  | [] => Raise IndexError
  | _ => mret (<[(length arr - 1)%nat := v]> arr)
  end.

(** The error array of one parameter: the first two entries, the last
    one, and [for i in range(2, len_pa - 1)].  The source fills
    [ellip_err] and [pa_err] in the same loop; the two arrays do not
    depend on each other.  The slices subtracted have the same length,
    the raw and the smoothed array being as long as the radii. *)
Definition param_err (len_pa : nat) (raw smooth : list float64)
  : outcome (list float64) :=
  let err := replicate (length raw) (Fin 0) in
  let err := fill_prefix 2 (rms4 (take 4 raw) (take 4 smooth)) err in
  err ← set_last (rms4 (last4 raw) (last4 smooth)) err;
  mret (fold_left
          (fun err i =>
             <[i := rms4 (slice (i - 2) (i + 2) raw)
                         (slice (i - 2) (i + 2) smooth)]> err)
          (seq 2 (len_pa - 1 - 2)) err).

(** *** The whole fit *)

(** [np.any(mask)] *)
Definition np_any (mask : mask_array) : bool :=
  existsb (fun row => existsb (fun b => b) row) mask.

(** [max(IMG.shape)] *)
Definition max_shape (IMG : image) : nat :=
  Nat.max (length IMG) (length (hd [] IMG)).

Definition fitlimit_text (r : R) : string :=
  ("fit limit semi-major axis: " ++ format_2f r ++ " pix")%string.

(** [IMG - results['background']] *)
Definition subtract_background (IMG : image) (bg : R) : image :=
  map (map (fun x => fsub x (Fin bg))) IMG.

(** A new array. *)
Definition alloc (h : store) (a : image) : nat * store :=
  let l := fresh (dom h) in (l, <[l := a]> h).

(** [options[key] if key in options else d] *)
Definition option_or (options : gmap string R) (key : string) (d : R) : R :=
  default d (options !! key).

Definition scale_of (options : gmap string R) : R :=
  option_or options "ap_scale" 0.2.

Definition fit_limit_of (v : variant) (options : gmap string R) : R :=
  option_or options "ap_fit_limit" (default_fit_limit v).

Definition regularize_scale_of (options : gmap string R) : R :=
  option_or options "ap_regularize_scale" 1.

(** The fitter, for a run in which [options['ap_name']] is set, as
    the pipeline sets it for every image, and [results] holds the keys
    that the fitter reads (the fields of [results_t]).  Left out are
    the calls of [logging], which read [options['ap_name']]; the block
    under [ap_doplot], which reads the arrays and writes files; and the
    exceptions that the regressions of scikit-learn raise on radii
    whose logarithm is not finite. *)
Definition isophote_fit (v : variant) (fuel : nat)
    (IMG : nat) (results : results_t) (options : gmap string R)
    (h : store) (g : rng)
  : outcome (nat * gmap string value) * store :=
  let scale := scale_of options in
  let '(dat, h) :=
    alloc h (subtract_background (h !!! IMG) (background results)) in
  let mask :=
    match results_mask results with
    | Some m => if np_any m then Some m else None
    | None => None
    end in
  let fit_limit := fit_limit_of v options in
  let out :=
    sample_radii ←
      sample_radii_init v (h !!! dat) (INR (max_shape (h !!! IMG)) / 2)
        results mask scale fit_limit fuel;
    let n := length sample_radii in
    let regularize_scale := regularize_scale_of options in
    let use_center := results_center results in
    let loss E PA i reg_scale :=
      loss_of v (h !!! dat) sample_radii E PA i use_center
        (background_noise results) mask reg_scale in
    s ← fit_loop loss regularize_scale n 300
          {| ellip := replicate n (1 * init_ellip results);
             pa := replicate n (1 * init_pa results);
             count := 0; count_nochange := 0;
             I := seq 0 n; gen := g |};
    '(ellip, pa) ← detect_collapsed_center (ellip s) (pa s);
    sm ← smooth_profile sample_radii ellip pa;
    ellip_err ← param_err (length (raw_pa sm))
                  (map Fin (raw_ellip sm)) (map Fin (smooth_ellip sm));
    pa_err ← param_err (length (raw_pa sm))
               (map Fin (raw_pa sm)) (smooth_pa sm);
    r_last ← last_item sample_radii;
    mret (IMG,
          <["fit ellip"%string := VList (raw_ellip sm)]>
          (<["fit pa"%string := VList (raw_pa sm)]>
          (<["fit R"%string := VList sample_radii]>
          (<["fit ellip_err"%string := VArray ellip_err]>
          (<["fit pa_err"%string := VArray pa_err]>
          (<["auxfile fitlimit"%string := VStr (fitlimit_text r_last)]>
           ∅))))))
  in (out, h).


End Fitter.

(** * Properties *)

(** ** Outcomes *)

Lemma bind_Return {A B} (m : outcome A) (k : A -> outcome B) (b : B) :
  (m ≫= k) = Return b -> exists a, m = Return a /\ k a = Return b.
Proof. destruct m; simpl; intros H; try discriminate. eauto. Qed.

Lemma bind_not_OutOfFuel {A B} (m : outcome A) (k : A -> outcome B) :
  m <> OutOfFuel -> (forall a, m = Return a -> k a <> OutOfFuel) ->
  (m ≫= k) <> OutOfFuel.
Proof. destruct m; simpl; intros Hm Hk; auto; discriminate. Qed.

Lemma index_Return {A} (l : list A) (i : nat) (x : A) :
  index l i = Return x <-> l !! i = Some x.
Proof.
  unfold index. destruct (l !! i); split; intros H; try discriminate;
    congruence.
Qed.

Lemma index_not_OutOfFuel {A} (l : list A) (i : nat) : index l i <> OutOfFuel.
Proof. unfold index. destruct (l !! i); discriminate. Qed.

(** Takes an equation [m ≫= k = Return b] apart. *)
Ltac inv_bind H :=
  let a := fresh "a" in
  let Ha := fresh "Ha" in
  apply bind_Return in H; destruct H as (a & Ha & H).

(** ** The order of floats *)

Ltac Rdec_step :=
  unfold Rltb, Rleb, Reqb in *;
  match goal with
  | |- context [Rlt_dec ?a ?b] => destruct (Rlt_dec a b)
  | |- context [Rle_dec ?a ?b] => destruct (Rle_dec a b)
  | |- context [Req_dec_T ?a ?b] => destruct (Req_dec_T a b)
  | H : context [Rlt_dec ?a ?b] |- _ => destruct (Rlt_dec a b)
  | H : context [Rle_dec ?a ?b] |- _ => destruct (Rle_dec a b)
  | H : context [Req_dec_T ?a ?b] |- _ => destruct (Req_dec_T a b)
  end.

(** Settles the comparisons of reals that a goal or a hypothesis
    branches on. *)
Ltac Rdec :=
  repeat (Rdec_step; simpl in *; try (exfalso; lra));
  simpl in *; try reflexivity; try congruence; try lra.

Lemma flt_irrefl a : flt a a = false.
Proof. destruct a; simpl; auto. Rdec. Qed.

Lemma flt_trans a b c : flt a b = true -> flt b c = true -> flt a c = true.
Proof. destruct a, b, c; simpl; intros; try congruence; Rdec. Qed.

Lemma flt_asym a b : flt a b = true -> flt b a = false.
Proof. destruct a, b; simpl; intros; try congruence; Rdec. Qed.

(** Among numbers, "not below" is transitive. *)
Lemma flt_neg_trans a b c :
  isnan a = false -> isnan b = false -> isnan c = false ->
  flt a b = false -> flt b c = false -> flt a c = false.
Proof. destruct a, b, c; simpl; intros; try congruence; Rdec. Qed.

Lemma flt_le_trans a b c :
  isnan a = false -> isnan b = false -> isnan c = false ->
  flt a b = true -> flt c b = false -> flt a c = true.
Proof. destruct a, b, c; simpl; intros; try congruence; Rdec. Qed.

Lemma fge_flt a b :
  isnan a = false -> isnan b = false -> fge a b = negb (flt a b).
Proof. destruct a, b; simpl; intros; congruence. Qed.

(** ** [np.median] on finite samples *)

Lemma insert_sorted_length x l : length (insert_sorted x l) = S (length l).
Proof.
  induction l as [|y l IH]; simpl; [reflexivity|].
  destruct (Rleb x y); simpl; congruence.
Qed.

Lemma sort_length l : length (sort l) = length l.
Proof.
  induction l as [|x l IH]; simpl; [reflexivity|].
  unfold sort in *. simpl. rewrite insert_sorted_length. congruence.
Qed.

Lemma finite_values_map rs : finite_values (map Fin rs) = Some rs.
Proof. induction rs as [|r rs IH]; simpl; [|rewrite IH]; reflexivity. Qed.

Lemma finsert_sorted_finite x l :
  finsert_sorted (Fin x) (map Fin l) = map Fin (insert_sorted x l).
Proof.
  induction l as [|y l IH]; simpl; [reflexivity|].
  destruct (Rleb x y); simpl; [reflexivity|]. rewrite IH. reflexivity.
Qed.

Lemma fsort_finite rs : fsort (map Fin rs) = map Fin (sort rs).
Proof.
  unfold fsort, sort. induction rs as [|x rs IH]; simpl; [reflexivity|].
  rewrite IH. apply finsert_sorted_finite.
Qed.

Lemma nth_map_Fin (l : list R) (k : nat) :
  (k < length l)%nat -> nth k (map Fin l) NaN = Fin (nth k l 0).
Proof.
  intros Hk. rewrite (nth_indep _ NaN (Fin 0)) by (rewrite length_map; lia).
  apply (map_nth Fin).
Qed.

(** On numbers the median is the one of the reals: the middle one, or
    half the sum of the two middle ones. *)
Lemma np_median_finite rs : np_median (map Fin rs) = Rmedian rs.
Proof.
  unfold np_median, Rmedian. rewrite fsort_finite, length_map.
  destruct (Nat.eqb_spec (length (sort rs)) 0) as [E|Hn]; [reflexivity|].
  assert (Hhalf : (length (sort rs) / 2 < length (sort rs))%nat)
    by (apply Nat.div_lt; lia).
  rewrite nth_map_Fin by lia. cbn [isnan].
  destruct (Nat.even (length (sort rs))).
  - rewrite !nth_map_Fin by lia. simpl. unfold Reqb.
    destruct (Req_dec_T 2 0); [lra | reflexivity].
  - rewrite nth_map_Fin by lia. reflexivity.
Qed.

(** ** [np.argmin] *)

(** What [np.argmin] returns on an array without NaN: the first index
    that holds the least value. *)
Definition first_minimum (l : list float64) (b : nat) : Prop :=
  (b < length l)%nat /\
  (forall k, (k < length l)%nat -> flt (nth k l NaN) (nth b l NaN) = false) /\
  (forall k, (k < b)%nat -> flt (nth b l NaN) (nth k l NaN) = true).

Lemma argmin_scan_first_minimum (l pre : list float64) (mp : float64) (mi : nat) :
  Forall (fun x => isnan x = false) (pre ++ l) ->
  (mi < length pre)%nat ->
  nth mi pre NaN = mp ->
  (forall k, (k < length pre)%nat -> flt (nth k pre NaN) mp = false) ->
  (forall k, (k < mi)%nat -> flt mp (nth k pre NaN) = true) ->
  first_minimum (pre ++ l) (argmin_scan mp mi (length pre) l).
Proof.
  revert pre mp mi. induction l as [|x l IH]; intros pre mp mi Hnan Hmi Hmp Hlow Hfirst.
  - simpl. rewrite app_nil_r. repeat split; auto.
    + intros k Hk. rewrite Hmp. auto.
    + intros k Hk. rewrite Hmp. auto.
  - assert (Hx : isnan x = false).
    { rewrite Forall_app in Hnan. destruct Hnan as [_ Hn]. inversion Hn; auto. }
    assert (Hmpn : isnan mp = false).
    { rewrite Forall_app in Hnan. destruct Hnan as [Hn _].
      rewrite Forall_forall in Hn. apply Hn. rewrite <- Hmp.
      apply list_elem_of_In, nth_In; auto. }
    assert (Hpre : forall k, (k < length pre)%nat -> isnan (nth k pre NaN) = false).
    { intros k Hk. rewrite Forall_app in Hnan. destruct Hnan as [Hn _].
      rewrite Forall_forall in Hn. apply Hn. apply list_elem_of_In, nth_In; auto. }
    simpl. rewrite fge_flt by auto.
    replace (pre ++ x :: l) with ((pre ++ [x]) ++ l) in * by (rewrite <- app_assoc; reflexivity).
    replace (S (length pre)) with (length (pre ++ [x])) by (rewrite length_app; simpl; lia).
    destruct (flt x mp) eqn:Hlt; simpl.
    + rewrite Hx. apply IH; auto.
      * rewrite length_app; simpl; lia.
      * rewrite app_nth2 by lia. rewrite Nat.sub_diag. reflexivity.
      * intros k Hk. rewrite length_app in Hk; simpl in Hk.
        destruct (Nat.eq_dec k (length pre)) as [->|Hne].
        -- rewrite app_nth2 by lia. rewrite Nat.sub_diag. simpl. apply flt_irrefl.
        -- rewrite app_nth1 by lia.
           apply flt_neg_trans with mp; auto;
             try (apply Hpre; lia); try (apply Hlow; lia).
           apply flt_asym; auto.
      * intros k Hk. rewrite app_nth1 by lia.
        apply flt_le_trans with mp; auto;
          try (apply Hpre; lia); try (apply Hlow; lia).
    + apply IH; auto.
      * rewrite length_app; simpl; lia.
      * rewrite app_nth1 by lia. auto.
      * intros k Hk. rewrite length_app in Hk; simpl in Hk.
        destruct (Nat.eq_dec k (length pre)) as [->|Hne].
        -- rewrite app_nth2 by lia. rewrite Nat.sub_diag. simpl. auto.
        -- rewrite app_nth1 by lia. apply Hlow; lia.
      * intros k Hk. rewrite app_nth1 by lia. auto.
Qed.

Lemma argmin_first_minimum (l : list float64) :
  l <> [] -> Forall (fun x => isnan x = false) l -> first_minimum l (argmin l).
Proof.
  destruct l as [|x l]; [congruence|]. intros _ Hnan.
  assert (Hx : isnan x = false) by (inversion Hnan; auto).
  unfold argmin. rewrite Hx.
  apply (argmin_scan_first_minimum l [x] x 0); simpl; auto.
  - intros k Hk. assert (k = 0)%nat as -> by lia. apply flt_irrefl.
  - intros k Hk. lia.
Qed.

(** The index returned is an index of the array, NaN or not. *)
Lemma argmin_scan_bound (l : list float64) mp mi i :
  (mi < i)%nat -> (argmin_scan mp mi i l < i + length l)%nat.
Proof.
  revert mp mi i. induction l as [|x l IH]; intros mp mi i Hmi; simpl; [lia|].
  destruct (fge x mp).
  - specialize (IH mp mi (S i)). lia.
  - destruct (isnan x); [lia|]. specialize (IH x i (S i)). lia.
Qed.

Lemma argmin_bound (l : list float64) : l <> [] -> (argmin l < length l)%nat.
Proof.
  destruct l as [|x l]; [congruence|]. intros _. unfold argmin.
  destruct (isnan x); simpl; [lia|].
  pose proof (argmin_scan_bound l x 0 1). lia.
Qed.

(** On an array that holds NaN, [np.argmin] returns the index of the
    first NaN. *)
Lemma argmin_scan_first_nan (l : list float64) :
  forall mp mi i k,
    nth k l (Fin 0) = NaN ->
    (forall j, (j < k)%nat -> isnan (nth j l (Fin 0)) = false) ->
    argmin_scan mp mi i l = (i + k)%nat.
Proof.
  induction l as [|x l IH]; intros mp mi i k Hk Hbefore.
  - destruct k; discriminate.
  - destruct k as [|k]; simpl in Hk.
    + subst x. simpl. destruct mp; simpl; lia.
    + pose proof (Hbefore 0%nat ltac:(lia)) as Hx. simpl in Hx.
      assert (Hrest : forall j, (j < k)%nat -> isnan (nth j l (Fin 0)) = false).
      { intros j Hj. apply (Hbefore (S j)). lia. }
      simpl. destruct (fge x mp).
      * rewrite (IH mp mi (S i) k Hk Hrest). lia.
      * rewrite Hx. rewrite (IH x i (S i) k Hk Hrest). lia.
Qed.

Lemma argmin_first_nan (l : list float64) (k : nat) :
  nth k l (Fin 0) = NaN ->
  (forall j, (j < k)%nat -> isnan (nth j l (Fin 0)) = false) ->
  argmin l = k.
Proof.
  destruct l as [|x l]; [destruct k; discriminate|].
  intros Hk Hbefore. unfold argmin. destruct k as [|k]; simpl in Hk.
  - subst x. reflexivity.
  - pose proof (Hbefore 0%nat ltac:(lia)) as Hx. simpl in Hx. rewrite Hx.
    rewrite (argmin_scan_first_nan l x 0 1 k Hk); [reflexivity|].
    intros j Hj. apply (Hbefore (S j)). lia.
Qed.

(** ** The candidate pool and the fitting loop *)

Section LoopProperties.
Context {SF : SharedFunctions} {NR : NumpyRandom}.
Variable loss : list R -> list R -> nat -> R -> outcome float64.
Variable regularize_scale : R.
Variable n_radii : nat.

(** The arrays of a perturbation in the words of the specification: both
    arrays whole, changed at [i] only; the ellipticity moved by a normal
    step of scale 0.03 in the transformed space when [count mod 3] is 0
    or 1, the position angle by a normal step of scale 0.06, modulo pi,
    when [count mod 3] is 1 or 2. *)
Definition spec_perturbed (count i : nat) (ellip pa : list R) (g : rng)
  : list R * list R * rng :=
  let '(ellip', g1) :=
    if decide (count mod 3 = 0 \/ count mod 3 = 1)%nat
    then (<[i := _x_to_eps (_inv_x_to_eps (nth i ellip 0)
                            + fst (normal 0 0.03 g))]> ellip,
          snd (normal 0 0.03 g))
    else (ellip, g) in
  let '(pa', g2) :=
    if decide (count mod 3 = 1 \/ count mod 3 = 2)%nat
    then (<[i := pymod (nth i pa 0 + fst (normal 0 0.06 g1)) PI]> pa,
          snd (normal 0 0.06 g1))
    else (pa, g1) in
  (ellip', pa', g2).

Definition spec_reg_scale (count : nat) : R :=
  if decide (count <= 4)%nat then 0 else regularize_scale.

Lemma reg_scale_at_spec count :
  reg_scale_at regularize_scale count = spec_reg_scale count.
Proof.
  unfold reg_scale_at, spec_reg_scale.
  destruct (Nat.ltb_spec 4 count); destruct (decide (count <= 4)%nat); auto; lia.
Qed.

Lemma lookup_nth_lt {A} (l : list A) (i : nat) (d : A) :
  (i < length l)%nat -> l !! i = Some (nth i l d).
Proof.
  revert i. induction l as [|x l IH]; intros [|i] H; simpl in *; try lia; auto.
  apply IH. lia.
Qed.

Lemma index_nth {A} (l : list A) (i : nat) (d : A) :
  (i < length l)%nat -> index l i = Return (nth i l d).
Proof. intros H. apply index_Return, lookup_nth_lt; auto. Qed.

Lemma perturbation_refines count i ellip pa g :
  (i < length ellip)%nat -> (i < length pa)%nat ->
  perturbation loss regularize_scale count i ellip pa g =
  (let '(ellip', pa', g') := spec_perturbed count i ellip pa g in
   l ← loss ellip' pa' i (spec_reg_scale count);
   mret ({| c_ellip := ellip'; c_pa := pa'; c_loss := l |}, g')).
Proof.
  clear n_radii. intros He Hp. unfold perturbation, spec_perturbed.
  rewrite reg_scale_at_spec.
  assert (H01 : forall m : nat,
             bool_decide (m ∈ [0; 1]%nat)
             = if decide (m = 0 \/ m = 1)%nat then true else false).
  { intros m. destruct (decide _) as [H|H].
    - apply bool_decide_eq_true_2. rewrite !elem_of_cons. tauto.
    - apply bool_decide_eq_false_2. rewrite !elem_of_cons, elem_of_nil. tauto. }
  assert (H12 : forall m : nat,
             bool_decide (m ∈ [1; 2]%nat)
             = if decide (m = 1 \/ m = 2)%nat then true else false).
  { intros m. destruct (decide _) as [H|H].
    - apply bool_decide_eq_true_2. rewrite !elem_of_cons. tauto.
    - apply bool_decide_eq_false_2. rewrite !elem_of_cons, elem_of_nil. tauto. }
  rewrite H01, H12. clear H01 H12.
  generalize (count mod 3)%nat. intros m.
  cbn [perturb_scale index lookup list_lookup mbind outcome_bind].
  destruct (decide (m = 0 \/ m = 1)%nat) as [H1|H1];
    destruct (decide (m = 1 \/ m = 2)%nat) as [H2|H2];
    rewrite ?(index_nth ellip i 0) by auto;
    cbn [mbind outcome_bind mret outcome_ret].
  - destruct (normal 0 0.03 g) as [z g1].
    cbn [mbind outcome_bind mret outcome_ret fst snd].
    rewrite (index_nth pa i 0) by auto.
    cbn [mbind outcome_bind mret outcome_ret].
    destruct (normal 0 0.06 g1) as [z' g2]. reflexivity.
  - destruct (normal 0 0.03 g) as [z g1]. reflexivity.
  - rewrite (index_nth pa i 0) by auto.
    cbn [mbind outcome_bind mret outcome_ret].
    destruct (normal 0 0.06 g) as [z' g2]. reflexivity.
  - reflexivity.
Qed.

(** A candidate that the pool holds after the unchanged one. *)
Definition is_perturbation (count i : nat) (ellip pa : list R) (p : candidate)
  : Prop :=
  exists g, let '(ellip', pa', _) := spec_perturbed count i ellip pa g in
            c_ellip p = ellip' /\ c_pa p = pa' /\
            loss ellip' pa' i (spec_reg_scale count) = Return (c_loss p).

Lemma add_perturbations_app n count i ellip pa acc g cands g' :
  add_perturbations loss regularize_scale n count i ellip pa acc g
    = Return (cands, g') ->
  exists new,
    cands = acc ++ new /\ length new = n /\
    Forall (fun p => exists g1 g2,
                perturbation loss regularize_scale count i ellip pa g1
                = Return (p, g2)) new.
Proof.
  revert acc g. induction n as [|n IH]; intros acc g H; simpl in H.
  - injection H as <- <-. exists []. rewrite app_nil_r. auto.
  - inv_bind H. destruct a as [p g1].
    apply IH in H. destruct H as (new & -> & Hlen & Hall).
    exists (p :: new). rewrite <- app_assoc. simpl. repeat split; eauto.
Qed.

Lemma add_perturbations_spec n count i ellip pa acc g cands g' :
  (i < length ellip)%nat -> (i < length pa)%nat ->
  add_perturbations loss regularize_scale n count i ellip pa acc g
    = Return (cands, g') ->
  exists new, cands = acc ++ new /\ length new = n /\
              Forall (is_perturbation count i ellip pa) new.
Proof.
  intros He Hp H. apply add_perturbations_app in H.
  destruct H as (new & -> & Hlen & Hall). exists new. repeat split; auto.
  eapply Forall_impl; [exact Hall|]. intros p (g1 & g2 & Hpert).
  rewrite perturbation_refines in Hpert by auto.
  exists g1. destruct (spec_perturbed count i ellip pa g1) as [[e' p'] g3].
  inv_bind Hpert. injection Hpert as <- <-. simpl. auto.
Qed.

Lemma spec_perturbed_length count i ellip pa g :
  let '(ellip', pa', _) := spec_perturbed count i ellip pa g in
  length ellip' = length ellip /\ length pa' = length pa.
Proof.
  unfold spec_perturbed.
  destruct (decide _); destruct (decide _); simpl;
    rewrite ?length_insert; auto.
Qed.

Lemma spec_perturbed_other count i ellip pa g j :
  j <> i ->
  let '(ellip', pa', _) := spec_perturbed count i ellip pa g in
  ellip' !! j = ellip !! j /\ pa' !! j = pa !! j.
Proof.
  intros Hj. unfold spec_perturbed.
  destruct (decide _); destruct (decide _); simpl;
    rewrite ?list_lookup_insert_ne by auto; auto.
Qed.

(** The loss has no loop of its own. *)
Definition loss_finishes : Prop :=
  forall E PA j r, loss E PA j r <> OutOfFuel.

(** The loss returns on arrays as long as the radii and an index of
    theirs. *)
Definition loss_returns : Prop :=
  forall E PA j r,
    length E = n_radii -> length PA = n_radii -> (j < n_radii)%nat ->
    exists l, loss E PA j r = Return l.

Lemma add_perturbations_total n count i ellip pa acc g :
  loss_returns ->
  length ellip = n_radii -> length pa = n_radii -> (i < n_radii)%nat ->
  exists cands g',
    add_perturbations loss regularize_scale n count i ellip pa acc g
      = Return (cands, g').
Proof.
  intros Hloss He Hp Hi. revert acc g. induction n as [|n IH]; intros acc g; simpl.
  - eauto.
  - rewrite perturbation_refines by lia.
    pose proof (spec_perturbed_length count i ellip pa g) as Hlen.
    destruct (spec_perturbed count i ellip pa g) as [[e' p'] g2].
    destruct Hlen as [He' Hp'].
    destruct (Hloss e' p' i (spec_reg_scale count)) as [l ->]; try lia.
    cbn [mbind outcome_bind mret outcome_ret]. apply IH.
Qed.

Lemma candidates_spec count i ellip pa g cands g' :
  (i < length ellip)%nat -> (i < length pa)%nat ->
  candidates loss regularize_scale count i ellip pa g = Return (cands, g') ->
  exists l0 new,
    loss ellip pa i (spec_reg_scale count) = Return l0 /\
    cands = {| c_ellip := ellip; c_pa := pa; c_loss := l0 |} :: new /\
    length new = 5%nat /\
    Forall (is_perturbation count i ellip pa) new.
Proof.
  intros He Hp H. unfold candidates in H. inv_bind H.
  rewrite reg_scale_at_spec in Ha.
  apply add_perturbations_spec in H; auto.
  destruct H as (new & -> & Hlen & Hall). exists a, new. simpl. auto.
Qed.

Lemma candidates_total count i ellip pa g :
  loss_returns ->
  length ellip = n_radii -> length pa = n_radii -> (i < n_radii)%nat ->
  exists cands g',
    candidates loss regularize_scale count i ellip pa g = Return (cands, g').
Proof.
  intros Hloss He Hp Hi. unfold candidates.
  destruct (Hloss ellip pa i (reg_scale_at regularize_scale count)) as [l ->];
    auto.
  cbn [mbind outcome_bind]. apply add_perturbations_total; auto.
Qed.

Lemma candidates_length count i ellip pa g cands g' :
  candidates loss regularize_scale count i ellip pa g = Return (cands, g') ->
  length cands = 6%nat.
Proof.
  unfold candidates. intros H. inv_bind H.
  apply add_perturbations_app in H. destruct H as (new & -> & Hlen & _).
  rewrite length_app. simpl. rewrite Hlen. reflexivity.
Qed.

(** What one pass of [for i in I] does to the state, given its pool. *)
Definition selects (cands : list candidate) (s s' : fit_state) : Prop :=
  let best := argmin (map c_loss cands) in
  (best < length cands)%nat /\
  count s' = count s /\ I s' = I s /\
  (if (0 <? best)%nat
   then (exists p, cands !! best = Some p /\
                   ellip s' = c_ellip p /\ pa s' = c_pa p) /\
        count_nochange s' = 0%nat
   else ellip s' = ellip s /\ pa s' = pa s /\
        count_nochange s' = (count_nochange s + 1)%nat).

Lemma refine_radius_selects i s s' :
  refine_radius loss regularize_scale i s = Return s' ->
  exists cands g',
    candidates loss regularize_scale (count s) i (ellip s) (pa s) (gen s)
      = Return (cands, g') /\
    gen s' = g' /\ selects cands s s'.
Proof.
  unfold refine_radius. intros H. inv_bind H. destruct a as [cands g'].
  exists cands, g'. split; auto.
  pose proof (candidates_length _ _ _ _ _ _ _ Ha) as Hlen.
  assert (Hb : (argmin (map c_loss cands) < length cands)%nat).
  { rewrite <- (length_map c_loss). apply argmin_bound.
    destruct cands; simpl in *; [lia | congruence]. }
  unfold selects. destruct (0 <? argmin (map c_loss cands))%nat eqn:Hbest.
  - inv_bind H. injection H as <-. simpl.
    apply index_Return in Ha0. repeat split; eauto.
  - injection H as <-. simpl. repeat split; auto.
Qed.

Lemma refine_radius_total i s :
  loss_returns ->
  length (ellip s) = n_radii -> length (pa s) = n_radii -> (i < n_radii)%nat ->
  exists s', refine_radius loss regularize_scale i s = Return s'.
Proof.
  intros Hloss He Hp Hi.
  destruct (candidates_total (count s) i (ellip s) (pa s) (gen s) Hloss He Hp Hi)
    as (cands & g' & Hc).
  unfold refine_radius. rewrite Hc. cbn [mbind outcome_bind].
  destruct (0 <? argmin (map c_loss cands))%nat; [|eauto].
  assert (Hb : (argmin (map c_loss cands) < length cands)%nat).
  { rewrite <- (length_map c_loss). apply argmin_bound.
    apply candidates_length in Hc. destruct cands; simpl in *; [lia | congruence]. }
  rewrite (index_nth cands _ {| c_ellip := []; c_pa := []; c_loss := NaN |}) by auto.
  cbn [mbind outcome_bind]. eauto.
Qed.

Lemma perturbation_finishes count i ellip pa g :
  loss_finishes -> perturbation loss regularize_scale count i ellip pa g <> OutOfFuel.
Proof.
  intros Hl. unfold perturbation.
  cbn [perturb_scale index lookup list_lookup mbind outcome_bind].
  destruct (bool_decide (count mod 3 ∈ [0; 1]%nat)).
  - destruct (index ellip i) eqn:He; cbn [mbind outcome_bind]; try discriminate.
    2:{ exfalso. eapply index_not_OutOfFuel; eauto. }
    destruct (normal 0 0.03 g) as [z g1]. cbn [mbind outcome_bind mret outcome_ret].
    destruct (bool_decide (count mod 3 ∈ [1; 2]%nat)).
    + destruct (index pa i) eqn:Hp; cbn [mbind outcome_bind]; try discriminate.
      2:{ exfalso. eapply index_not_OutOfFuel; eauto. }
      destruct (normal 0 0.06 g1) as [z' g2]. cbn [mbind outcome_bind mret outcome_ret].
      apply bind_not_OutOfFuel; [apply Hl | discriminate].
    + cbn [mbind outcome_bind mret outcome_ret].
      apply bind_not_OutOfFuel; [apply Hl | discriminate].
  - cbn [mbind outcome_bind mret outcome_ret].
    destruct (bool_decide (count mod 3 ∈ [1; 2]%nat)).
    + destruct (index pa i) eqn:Hp; cbn [mbind outcome_bind]; try discriminate.
      2:{ exfalso. eapply index_not_OutOfFuel; eauto. }
      destruct (normal 0 0.06 g) as [z' g2]. cbn [mbind outcome_bind mret outcome_ret].
      apply bind_not_OutOfFuel; [apply Hl | discriminate].
    + cbn [mbind outcome_bind mret outcome_ret].
      apply bind_not_OutOfFuel; [apply Hl | discriminate].
Qed.

Lemma add_perturbations_finishes n count i ellip pa acc g :
  loss_finishes ->
  add_perturbations loss regularize_scale n count i ellip pa acc g <> OutOfFuel.
Proof.
  intros Hl. revert acc g. induction n as [|n IH]; intros acc g; simpl.
  - discriminate.
  - apply bind_not_OutOfFuel; [apply perturbation_finishes; auto|].
    intros [p g1] _. apply IH.
Qed.

Lemma refine_radius_finishes i s :
  loss_finishes -> refine_radius loss regularize_scale i s <> OutOfFuel.
Proof.
  intros Hl. unfold refine_radius.
  apply bind_not_OutOfFuel.
  - unfold candidates. apply bind_not_OutOfFuel; [apply Hl|].
    intros l0 _. apply add_perturbations_finishes; auto.
  - intros [cands g'] _. destruct (0 <? _)%nat; [|discriminate].
    apply bind_not_OutOfFuel; [apply index_not_OutOfFuel | discriminate].
Qed.

Lemma for_each_finishes idx s :
  loss_finishes -> for_each loss regularize_scale idx s <> OutOfFuel.
Proof.
  intros Hl. revert s. induction idx as [|i idx IH]; intros s; simpl.
  - discriminate.
  - apply bind_not_OutOfFuel; [apply refine_radius_finishes; auto|].
    intros s' _. apply IH.
Qed.

Lemma for_each_count idx s s' :
  for_each loss regularize_scale idx s = Return s' -> count s' = count s.
Proof.
  revert s. induction idx as [|i idx IH]; intros s H; simpl in H.
  - injection H as <-. reflexivity.
  - inv_bind H. apply IH in H. rewrite H.
    apply refine_radius_selects in Ha. destruct Ha as (c & g' & _ & _ & Hs).
    destruct Hs as (_ & Hc & _). exact Hc.
Qed.

Lemma iteration_count s s' :
  iteration loss regularize_scale s = Return s' -> count s' = (count s + 1)%nat.
Proof.
  unfold iteration. destruct (shuffle (I s) (gen s)) as [I' g].
  intros H. apply for_each_count in H. exact H.
Qed.

Lemma iteration_finishes s :
  loss_finishes -> iteration loss regularize_scale s <> OutOfFuel.
Proof.
  intros Hl. unfold iteration. destruct (shuffle (I s) (gen s)) as [I' g].
  apply for_each_finishes; auto.
Qed.

(** The loop needs no more passes than the cap on [count] leaves. *)
Lemma fit_loop_finishes fuel s :
  loss_finishes -> (300 - count s <= fuel)%nat ->
  fit_loop loss regularize_scale n_radii fuel s <> OutOfFuel.
Proof.
  intros Hl. revert s. induction fuel as [|fuel IH]; intros s Hf; simpl.
  - unfold continue_fit.
    destruct (Nat.ltb_spec (count s) 300); [lia|]. simpl. discriminate.
  - destruct (continue_fit n_radii s) eqn:Hc; [|discriminate].
    apply bind_not_OutOfFuel; [apply iteration_finishes; auto|].
    intros s' Hs'. apply IH. apply iteration_count in Hs'. lia.
Qed.

(** When the loop returns, its condition is false, and [count] went up
    by one per pass, never beyond 300. *)
Lemma fit_loop_exit fuel s s' :
  fit_loop loss regularize_scale n_radii fuel s = Return s' ->
  continue_fit n_radii s' = false /\
  (count s <= count s')%nat /\
  ((count s <= 300)%nat -> (count s' <= 300)%nat).
Proof.
  revert s. induction fuel as [|fuel IH]; intros s H; simpl in H.
  - destruct (continue_fit n_radii s) eqn:Hc; [discriminate|].
    injection H as <-. auto.
  - destruct (continue_fit n_radii s) eqn:Hc.
    + inv_bind H. apply IH in H. destruct H as (H1 & H2 & H3).
      apply iteration_count in Ha. split; auto.
      unfold continue_fit in Hc. apply andb_true_iff in Hc. destruct Hc as [Hc _].
      apply Nat.ltb_lt in Hc. split; [lia|]. intros _. apply H3. lia.
    + injection H as <-. auto.
Qed.

(** The arrays keep the length of the radii, and [I] holds indices. *)
Definition shaped (s : fit_state) : Prop :=
  length (ellip s) = n_radii /\ length (pa s) = n_radii /\
  Forall (fun i => (i < n_radii)%nat) (I s).

Lemma refine_radius_shaped i s s' :
  (i < n_radii)%nat -> shaped s ->
  refine_radius loss regularize_scale i s = Return s' -> shaped s'.
Proof.
  intros Hi (He & Hp & HI) H.
  apply refine_radius_selects in H. destruct H as (cands & g' & Hc & _ & Hs).
  apply candidates_spec in Hc; try lia.
  destruct Hc as (l0 & new & _ & -> & Hlen & Hall).
  destruct Hs as (Hb & _ & HI' & Hsel).
  unfold shaped. rewrite HI'.
  destruct (0 <? _)%nat.
  - destruct Hsel as [(p & Hp' & -> & ->) _].
    destruct (argmin _) as [|b]; simpl in Hp'.
    + injection Hp' as <-. simpl. auto.
    + rewrite Forall_forall in Hall.
      assert (Hin : p ∈ new) by (apply list_elem_of_lookup; eauto).
      apply Hall in Hin. destruct Hin as [g Hg].
      pose proof (spec_perturbed_length (count s) i (ellip s) (pa s) g) as Hl.
      destruct (spec_perturbed (count s) i (ellip s) (pa s) g) as [[e' p'] g2].
      destruct Hg as (-> & -> & _). destruct Hl as [-> ->]. auto.
  - destruct Hsel as (-> & -> & _). auto.
Qed.

Lemma for_each_returns idx s :
  loss_returns -> Forall (fun i => (i < n_radii)%nat) idx -> shaped s ->
  exists s', for_each loss regularize_scale idx s = Return s' /\ shaped s'.
Proof.
  intros Hl. revert s. induction idx as [|i idx IH]; intros s Hidx Hs; simpl.
  - eauto.
  - inversion Hidx as [|? ? Hi Hidx']; subst.
    destruct (refine_radius_total i s Hl) as [s1 H1];
      [apply Hs | apply Hs | exact Hi |].
    rewrite H1. cbn [mbind outcome_bind].
    apply IH; auto. eapply refine_radius_shaped; eauto.
Qed.

Lemma iteration_returns s :
  loss_returns -> shaped s ->
  exists s', iteration loss regularize_scale s = Return s' /\ shaped s'.
Proof.
  intros Hl (He & Hp & HI). unfold iteration.
  pose proof (shuffle_perm (I s) (gen s)) as Hperm.
  destruct (shuffle (I s) (gen s)) as [I' g]. simpl in Hperm.
  assert (HI' : Forall (fun i => (i < n_radii)%nat) I').
  { eapply Permutation_Forall; [symmetry; exact Hperm | exact HI]. }
  apply for_each_returns; auto. repeat split; auto.
Qed.

Lemma fit_loop_returns fuel s :
  loss_returns -> shaped s -> (300 - count s <= fuel)%nat ->
  exists s', fit_loop loss regularize_scale n_radii fuel s = Return s' /\ shaped s'.
Proof.
  intros Hl. revert s. induction fuel as [|fuel IH]; intros s Hs Hf; simpl.
  - unfold continue_fit.
    destruct (Nat.ltb_spec (count s) 300); [lia|]. simpl. eauto.
  - destruct (continue_fit n_radii s) eqn:Hc; [|eauto].
    destruct (iteration_returns s Hl Hs) as (s1 & H1 & Hs1).
    rewrite H1. cbn [mbind outcome_bind]. apply IH; auto.
    apply iteration_count in H1. lia.
Qed.

End LoopProperties.

(** ** The losses *)

Lemma fabs_nonneg a : a = NaN \/ nonneg (fabs a).
Proof.
  destruct a; simpl; unfold nonneg; eauto.
  right. right. eexists. split; [reflexivity | apply Rabs_pos].
Qed.

Lemma fadd_nonneg a b : nonneg a -> nonneg b -> nonneg (fadd a b).
Proof.
  unfold nonneg. intros [->|(x & -> & Hx)] [->|(y & -> & Hy)]; simpl; auto.
  right. eexists. split; [reflexivity | lra].
Qed.

Lemma fmul_nonneg_ge1 a t : nonneg a -> 1 <= t -> nonneg (fmul a (Fin t)).
Proof.
  unfold nonneg. intros [->|(x & -> & Hx)] Ht; simpl.
  - left. Rdec.
  - right. eexists. split; [reflexivity | nra].
Qed.

Lemma cabs_nonneg c : 0 <= cabs c.
Proof. apply sqrt_pos. Qed.

Lemma max0_nonneg a : nonneg (max0 a).
Proof.
  unfold max0, fgt, nonneg. destruct a; simpl; try (right; eexists; split; [reflexivity | lra]); auto.
  unfold Rltb. destruct (Rlt_dec 0 x); right; eexists; split; try reflexivity; lra.
Qed.

(** A quotient of a non-negative number by a non-negative one is NaN
    (0/0) or non-negative. *)
Lemma fdiv_nonneg a b :
  nonneg a -> nonneg b -> fdiv a b = NaN \/ nonneg (fdiv a b).
Proof.
  unfold nonneg. intros [->|(x & -> & Hx)] [->|(y & -> & Hy)]; simpl; auto.
  - right. left. Rdec.
  - right. right. eexists. split; [reflexivity | lra].
  - unfold Reqb. destruct (Req_dec_T y 0).
    + destruct (Req_dec_T x 0); auto. right. left. Rdec.
    + right. right. eexists. split; [reflexivity|].
      apply Rmult_le_pos; auto. left. apply Rinv_0_lt_compat. lra.
Qed.

Section LossProperties.
Context {AF : ArrayFunctions} {SF : SharedFunctions}.

Lemma second_coef_abs_long xs :
  (3 <= length xs)%nat -> second_coef_abs xs = Return (np_abs_fft xs 2).
Proof.
  intros H. unfold second_coef_abs.
  destruct (Nat.eqb_spec (length xs) 0); [lia|].
  destruct (Nat.leb_spec 3 (length xs)); [reflexivity | lia].
Qed.

Lemma second_coef_abs_short xs :
  (1 <= length xs <= 2)%nat -> second_coef_abs xs = Raise IndexError.
Proof.
  intros H. unfold second_coef_abs.
  destruct (Nat.eqb_spec (length xs) 0); [lia|].
  destruct (Nat.leb_spec 3 (length xs)); [lia | reflexivity].
Qed.

(** The regularisation term in the words of the specification: for each
    neighbour [j] of [i] that exists, [|E[i]-E[j]| / (1-E[j])] plus the
    distance of the doubled angles over the bandwidth. *)
Definition spec_reg_neighbour (bw : R) (E PA : list R) (i j : nat) : R :=
  Rabs (nth i E 0 - nth j E 0) / (1 - nth j E 0)
  + Rabs (Angle_TwoAngles (2 * nth i PA 0) (2 * nth j PA 0)) / bw.

Definition spec_reg_loss (bw : R) (n : nat) (E PA : list R) (i : nat) : R :=
  (if decide (i + 1 < n)%nat then spec_reg_neighbour bw E PA i (i + 1) else 0)
  + (if decide (1 <= i)%nat then spec_reg_neighbour bw E PA i (i - 1) else 0).

Lemma reg_add_spec bw E PA i j (r : R) :
  0 < bw -> (i < length E)%nat -> (j < length E)%nat ->
  (i < length PA)%nat -> (j < length PA)%nat -> nth j E 0 < 1 ->
  reg_add bw E PA i j (Fin r)
  = Return (Fin (r + spec_reg_neighbour bw E PA i j)).
Proof.
  intros Hbw HiE HjE HiP HjP Hlt. unfold reg_add.
  rewrite (index_nth E i 0), (index_nth E j 0) by auto.
  cbn [mbind outcome_bind].
  rewrite (index_nth PA i 0), (index_nth PA j 0) by auto.
  cbn [mbind outcome_bind mret outcome_ret].
  f_equal. unfold spec_reg_neighbour. simpl.
  unfold Reqb. destruct (Req_dec_T (1 - nth j E 0) 0); [lra|].
  destruct (Req_dec_T bw 0); [lra|]. simpl. f_equal.
  unfold Rdiv. rewrite !Rabs_mult.
  rewrite (Rabs_pos_eq (/ (1 - nth j E 0)))
    by (left; apply Rinv_0_lt_compat; lra).
  rewrite (Rabs_pos_eq (/ bw)) by (left; apply Rinv_0_lt_compat; lra).
  lra.
Qed.

Lemma reg_loss_spec bw R_ E PA i :
  0 < bw -> (i < length R_)%nat ->
  length E = length R_ -> length PA = length R_ ->
  Forall (fun e => e < 1) E ->
  reg_loss bw R_ E PA i = Return (Fin (spec_reg_loss bw (length R_) E PA i)).
Proof.
  intros Hbw Hi HE HP Hlt. unfold reg_loss, spec_reg_loss.
  assert (Hnth : forall j, (j < length E)%nat -> nth j E 0 < 1).
  { intros j Hj. rewrite Forall_forall in Hlt. apply Hlt.
    apply list_elem_of_In, nth_In. auto. }
  destruct (Nat.ltb_spec i (length R_ - 1)); destruct (decide (i + 1 < length R_)%nat);
    try lia.
  - rewrite reg_add_spec by (auto; try lia; apply Hnth; lia).
    cbn [mbind outcome_bind].
    destruct (Nat.ltb_spec 0 i); destruct (decide (1 <= i)%nat); try lia.
    + rewrite reg_add_spec by (auto; try lia; apply Hnth; lia).
      apply (f_equal Return), (f_equal Fin); lra.
    + cbn [mret outcome_ret]. apply (f_equal Return), (f_equal Fin); lra.
  - cbn [mbind outcome_bind mret outcome_ret].
    destruct (Nat.ltb_spec 0 i); destruct (decide (1 <= i)%nat); try lia.
    + rewrite reg_add_spec by (auto; try lia; apply Hnth; lia).
      apply (f_equal Return), (f_equal Fin); lra.
    + apply (f_equal Return), (f_equal Fin); lra.
Qed.

Lemma spec_reg_neighbour_nonneg bw E PA i j :
  0 < bw -> nth j E 0 < 1 -> 0 <= spec_reg_neighbour bw E PA i j.
Proof.
  intros Hbw Hlt. unfold spec_reg_neighbour.
  apply Rplus_le_le_0_compat; apply Rmult_le_pos; try apply Rabs_pos;
    left; apply Rinv_0_lt_compat; lra.
Qed.

Lemma spec_reg_loss_nonneg bw n E PA i :
  0 < bw -> (forall j, nth j E 0 < 1) -> 0 <= spec_reg_loss bw n E PA i.
Proof.
  intros Hbw Hlt. unfold spec_reg_loss.
  pose proof (spec_reg_neighbour_nonneg bw E PA i (i + 1) Hbw (Hlt _)).
  pose proof (spec_reg_neighbour_nonneg bw E PA i (i - 1) Hbw (Hlt _)).
  destruct (decide _); destruct (decide _); lra.
Qed.

(** The ring of samples that both losses draw for the index [i]. *)
Definition ring (dat : image) (R_ E PA : list R) (i : nat) (C : center)
    (mask : option mask_array) : list float64 :=
  _iso_extract dat (nth i R_ 0) (nth i E 0) (nth i PA 0) C None mask
    (Some (match mask with None => false | Some _ => true end)).

(** The robust loss in the words of the specification. *)
Definition spec_robust_loss (isovals : list float64) (noise : R)
    (masked : bool) (reg reg_scale : R) : float64 :=
  let q := if masked then 0.9 else 0.85 in
  fmul (fdiv (np_abs_fft (np_clip_max isovals (np_quantile isovals q)) 2)
             (fmul (Fin (INR (length isovals)))
                   (fadd (max0 (np_median isovals)) (Fin noise))))
       (fadd (Fin 1) (fmul (Fin reg) (Fin reg_scale))).

(** The mean-normalised loss on a ring of finite samples, in the words of
    the specification. *)
Definition spec_mean_loss (isovals : list float64) (noise : R)
    (reg reg_scale : R) : float64 :=
  fmul (fdiv (np_abs_fft isovals 2)
             (fmul (Fin (INR (length isovals)))
                   (fadd (max0 (np_mean isovals)) (Fin noise))))
       (fadd (Fin 1) (fmul (Fin reg) (Fin reg_scale))).

Lemma robust_loss_spec dat R_ E PA i C noise mask reg_scale :
  (i < length R_)%nat -> length E = length R_ -> length PA = length R_ ->
  Forall (fun e => e < 1) E ->
  (3 <= length (ring dat R_ E PA i C mask))%nat ->
  _FFT_Robust_loss dat R_ E PA i C noise mask reg_scale
  = Return (spec_robust_loss (ring dat R_ E PA i C mask) noise
              (match mask with None => false | Some _ => true end)
              (spec_reg_loss 0.4 (length R_) E PA i) reg_scale).
Proof.
  intros Hi HE HP Hlt Hlen. unfold _FFT_Robust_loss.
  rewrite (index_nth R_ i 0), (index_nth E i 0), (index_nth PA i 0) by lia.
  cbn [mbind outcome_bind]. fold (ring dat R_ E PA i C mask).
  rewrite second_coef_abs_long
    by (unfold np_clip_max; rewrite length_map; exact Hlen).
  cbn [mbind outcome_bind].
  replace (2 * 0.2) with 0.4 by lra.
  rewrite reg_loss_spec by (auto; lra).
  cbn [mbind outcome_bind mret outcome_ret].
  unfold spec_robust_loss, np_clip_max. destruct mask; reflexivity.
Qed.


Lemma mean_loss_finite dat R_ E PA i C noise mask reg_scale :
  (i < length R_)%nat -> length E = length R_ -> length PA = length R_ ->
  Forall (fun e => e < 1) E ->
  (3 <= length (ring dat R_ E PA i C mask))%nat ->
  all_finite (ring dat R_ E PA i C mask) = true ->
  _FFT_mean_loss dat R_ E PA i C noise mask reg_scale
  = Return (spec_mean_loss (ring dat R_ E PA i C mask) noise
              (spec_reg_loss 0.6 (length R_) E PA i) reg_scale).
Proof.
  intros Hi HE HP Hlt Hlen Hfin. unfold _FFT_mean_loss.
  rewrite (index_nth R_ i 0), (index_nth E i 0), (index_nth PA i 0) by lia.
  cbn [mbind outcome_bind]. fold (ring dat R_ E PA i C mask).
  rewrite Hfin. cbn [negb]. rewrite second_coef_abs_long by exact Hlen.
  cbn [mbind outcome_bind].
  replace (2 * 0.3) with 0.6 by lra.
  rewrite reg_loss_spec by (auto; lra). reflexivity.
Qed.

End LossProperties.


Lemma np_sum_finite rs : np_sum (map Fin rs) = Fin (Rsum rs).
Proof.
  unfold np_sum. induction rs as [|r rs IH]; simpl; auto.
  rewrite IH. reflexivity.
Qed.


Lemma normaliser_nonneg (n : nat) (m : float64) (noise : R) :
  (0 < n)%nat -> 0 <= noise ->
  nonneg (fmul (Fin (INR n)) (fadd (max0 m) (Fin noise))).
Proof.
  intros Hn Hnoise.
  assert (HN : 0 < INR n) by (apply lt_0_INR; lia).
  destruct (max0_nonneg m) as [->|(x & -> & Hx)]; simpl.
  - left. Rdec.
  - right. eexists. split; [reflexivity | nra].
Qed.

Section LossSigns.
Context {AF : ArrayFunctions}.

(** With a regularisation scale and a noise that are not negative, the
    robust loss is NaN or a non-negative number. *)
Lemma spec_robust_loss_nonneg isovals noise masked reg reg_scale :
  (0 < length isovals)%nat -> 0 <= noise -> 0 <= reg -> 0 <= reg_scale ->
  spec_robust_loss isovals noise masked reg reg_scale = NaN \/
  nonneg (spec_robust_loss isovals noise masked reg reg_scale).
Proof.
  intros Hn Hnoise Hreg Hscale. unfold spec_robust_loss.
  set (c2 := np_abs_fft _ 2).
  set (d := fmul (Fin (INR (length isovals))) _).
  assert (Hd : nonneg d) by (apply normaliser_nonneg; auto).
  assert (Hc : c2 = NaN \/ nonneg c2) by apply np_abs_fft_sign.
  simpl fadd. simpl (fmul (Fin reg) _).
  destruct Hc as [->|Hc]; [left; destruct d; reflexivity|].
  destruct (fdiv_nonneg c2 d Hc Hd) as [->|Hq]; [left; reflexivity|].
  right. apply fmul_nonneg_ge1; auto. nra.
Qed.


End LossSigns.



(** ** The sampling radii *)

Lemma last_item_app {A} (l : list A) (x : A) : last_item (l ++ [x]) = Return x.
Proof.
  unfold last_item. destruct (l ++ [x]) eqn:E.
  - destruct l; discriminate.
  - rewrite <- E. apply index_Return.
    rewrite length_app. simpl.
    replace (length l + 1 - 1)%nat with (length l + 0)%nat by lia.
    rewrite lookup_app_r by lia.
    replace (length l + 0 - length l)%nat with 0%nat by lia. reflexivity.
Qed.

Lemma last_item_nth (l : list R) :
  l <> [] -> last_item l = Return (nth (length l - 1) l 0).
Proof.
  intros H. unfold last_item. destruct l as [|x l]; [congruence|].
  apply index_nth. simpl. lia.
Qed.

(** Each radius is the one before times [q]. *)
Definition geometric (q : R) (rs : list R) : Prop :=
  forall k, (S k < length rs)%nat -> nth (S k) rs 0 = nth k rs 0 * q.

(** Each radius is below the next. *)
Definition increasing (rs : list R) : Prop :=
  forall k, (S k < length rs)%nat -> nth k rs 0 < nth (S k) rs 0.

Lemma geometric_snoc q rs :
  rs <> [] -> geometric q rs ->
  geometric q (rs ++ [nth (length rs - 1) rs 0 * q]).
Proof.
  intros Hne Hg k Hk. rewrite length_app in Hk. simpl in Hk.
  assert (0 < length rs)%nat by (destruct rs; simpl; [congruence | lia]).
  destruct (Nat.eq_dec (S k) (length rs)) as [E|E].
  - rewrite app_nth2 by lia. rewrite app_nth1 by lia.
    replace (S k - length rs)%nat with 0%nat by lia. simpl.
    replace (length rs - 1)%nat with k by lia. reflexivity.
  - rewrite !app_nth1 by lia. apply Hg. lia.
Qed.

Lemma geometric_nth q rs k :
  geometric q rs -> (k < length rs)%nat -> nth k rs 0 = nth 0 rs 0 * q ^ k.
Proof.
  intros Hg. induction k as [|k IH]; intros Hk; simpl; [lra|].
  rewrite Hg by lia. rewrite IH by lia. lra.
Qed.

Lemma geometric_increasing q rs :
  geometric q rs -> 0 < nth 0 rs 0 -> 1 < q -> increasing rs.
Proof.
  intros Hg H0 Hq k Hk. rewrite (Hg k Hk).
  assert (0 < nth k rs 0).
  { rewrite (geometric_nth q) by (auto; lia).
    apply Rmult_lt_0_compat; auto. apply pow_lt. lra. }
  nra.
Qed.

Section RadiiProperties.
Context {SF : SharedFunctions}.
Variables (v : variant) (dat : image) (half_size : R) (res : results_t)
          (mask : option mask_array) (scale fit_limit : R).

Abbreviation grow := (grow_radii v dat half_size res mask scale fit_limit).
Abbreviation attempts := (radii_attempts v dat half_size res mask scale fit_limit).

(** The growth factor of the relaxation attempt [shrink]. *)
Definition growth (shrink : nat) : R := 1 + scale / (1 + INR shrink).

(** The ring at the radius [r] is too faint. *)
Definition faint (r : R) : bool :=
  flt (central_of v (_iso_extract dat r (init_ellip res) (init_pa res)
                       (results_center res) (Some false) mask None))
      (Fin (fit_limit * background_noise res)).

(** The inner loop stops at the radius [r]. *)
Definition stops_at (r : R) : Prop := ~ r < half_size \/ faint r = true.

(** What the inner loop returns: the list it started from, grown by the
    factor of the attempt, whose last radius is the first at which the
    loop stops. *)
Definition grown_from (shrink : nat) (rs0 rs : list R) : Prop :=
  (exists new, rs = rs0 ++ new) /\
  (geometric (growth shrink) rs0 -> geometric (growth shrink) rs) /\
  stops_at (nth (length rs - 1) rs 0) /\
  (forall k, (length rs0 - 1 <= k)%nat -> (S k < length rs)%nat ->
             ~ stops_at (nth k rs 0)).

Lemma grow_radii_grown fuel shrink rs0 rs :
  rs0 <> [] -> grow fuel shrink rs0 = Return rs -> grown_from shrink rs0 rs.
Proof.
  revert rs0. induction fuel as [|fuel IH]; intros rs0 Hne H; simpl in H;
    [discriminate|].
  rewrite (last_item_nth rs0 Hne) in H. cbn [mbind outcome_bind] in H.
  set (r := nth (length rs0 - 1) rs0 0) in *.
  assert (Hlen0 : (0 < length rs0)%nat)
    by (destruct rs0; simpl; [congruence | lia]).
  unfold Rltb in H. destruct (Rlt_dec r half_size) as [Hlt|Hge].
  - fold (faint r) in H. destruct (faint r) eqn:Hf.
    + injection H as <-. repeat split; auto.
      * exists []. rewrite app_nil_r. reflexivity.
      * right. exact Hf.
      * intros k Hk1 Hk2. lia.
    + apply IH in H; [|destruct rs0; discriminate].
      destruct H as ((new & ->) & Hg & Hstop & Hbefore).
      repeat split.
      * exists ((r * (1 + scale / (1 + INR shrink))) :: new).
        rewrite <- app_assoc. reflexivity.
      * intros Hg0. apply Hg. apply geometric_snoc; auto.
      * exact Hstop.
      * intros k Hk1 Hk2.
        destruct (Nat.eq_dec k (length rs0 - 1)%nat) as [->|Hne'].
        -- rewrite <- app_assoc. rewrite app_nth1 by lia. fold r.
           unfold stops_at. rewrite Hf. intros [?|?]; [tauto | discriminate].
        -- apply Hbefore; auto. rewrite length_app. simpl. lia.
  - injection H as <-. repeat split; auto.
    + exists []. rewrite app_nil_r. reflexivity.
    + left. exact Hge.
    + intros k Hk1 Hk2. lia.
Qed.

(** More steps do not change what the inner loop returns. *)
Lemma grow_radii_more_fuel fuel fuel' shrink rs0 rs :
  (fuel <= fuel')%nat -> grow fuel shrink rs0 = Return rs ->
  grow fuel' shrink rs0 = Return rs.
Proof.
  revert fuel' rs0. induction fuel as [|fuel IH]; intros fuel' rs0 Hle H;
    simpl in H; [discriminate|].
  destruct fuel' as [|fuel']; [lia|]. simpl.
  destruct (last_item rs0); cbn [mbind outcome_bind] in *; try discriminate.
  destruct (Rltb a half_size); auto.
  destruct (flt _ _); auto. apply IH; auto. lia.
Qed.

(** The inner loop returns once the radius must have passed
    [half_size]. *)
Lemma grow_radii_returns d fuel shrink rs0 :
  rs0 <> [] ->
  half_size <= nth (length rs0 - 1) rs0 0 * growth shrink ^ d ->
  (d < fuel)%nat ->
  exists rs, grow fuel shrink rs0 = Return rs.
Proof.
  revert fuel rs0. induction d as [|d IH]; intros fuel rs0 Hne Hhalf Hfuel;
    (destruct fuel as [|fuel]; [lia|]); simpl;
    rewrite (last_item_nth rs0 Hne); cbn [mbind outcome_bind];
    set (r := nth (length rs0 - 1) rs0 0) in *;
    unfold Rltb; destruct (Rlt_dec r half_size) as [Hlt|Hge]; eauto.
  - simpl in Hhalf. lra.
  - destruct (flt _ _); eauto.
    apply IH; [destruct rs0; discriminate | | lia].
    rewrite length_app. simpl.
    replace (length rs0 + 1 - 1)%nat with (length rs0) by lia.
    rewrite app_nth2 by lia. rewrite Nat.sub_diag. simpl.
    fold (growth shrink). simpl in Hhalf. lra.
Qed.

Lemma growth_gt_1 shrink : 0 < scale -> 1 < growth shrink.
Proof.
  intros Hs. unfold growth.
  assert (0 < 1 + INR shrink) by (pose proof (pos_INR shrink); lra).
  assert (0 < scale / (1 + INR shrink)) by (apply Rdiv_lt_0_compat; auto).
  lra.
Qed.

(** A geometric sequence with a factor above 1 passes every bound. *)
Lemma geometric_passes (r0 q b : R) :
  0 < r0 -> 1 < q -> exists d, b <= r0 * q ^ d.
Proof.
  intros Hr Hq.
  destruct (Pow_x_infinity q) with (b := Rabs (b / r0)) as [N HN].
  { rewrite Rabs_pos_eq; lra. }
  exists N. specialize (HN N (Nat.le_refl N)).
  rewrite Rabs_pos_eq in HN by (apply pow_le; lra).
  assert (b / r0 <= q ^ N).
  { pose proof (Rle_abs (b / r0)). lra. }
  apply Rmult_le_compat_l with (r := r0) in H; [|lra].
  replace (r0 * (b / r0)) with b in H by (field; lra). exact H.
Qed.

(** With a positive seed and a positive scale every attempt comes to an
    end. *)
Lemma grow_radii_terminates shrink :
  0 < psf_fwhm res -> 0 < scale ->
  exists fuel0, forall fuel, (fuel0 <= fuel)%nat ->
    exists rs, grow fuel shrink [3 * psf_fwhm res / 2] = Return rs.
Proof.
  intros Hpsf Hscale.
  destruct (geometric_passes (3 * psf_fwhm res / 2) (growth shrink) half_size)
    as [d Hd]; [lra | apply growth_gt_1; auto |].
  exists (S d). intros fuel Hf.
  apply (grow_radii_returns d); [discriminate | exact Hd | lia].
Qed.

(** The attempts that the outer loop still has to make all come out with
    fewer than 15 radii. *)
Definition all_short (fuel : nat) (shrink n : nat) : Prop :=
  forall k, (shrink <= k < shrink + n)%nat ->
    exists rs, grow fuel k [3 * psf_fwhm res / 2] = Return rs /\
               (length rs < 15)%nat.

Lemma radii_attempts_raise fuel n shrink :
  (forall k, (shrink <= k < shrink + n)%nat ->
     exists rs, grow fuel k [3 * psf_fwhm res / 2] = Return rs) ->
  (exists e, attempts fuel n shrink = Raise e) <-> all_short fuel shrink n.
Proof.
  revert shrink. induction n as [|n IH]; intros shrink Hret; simpl.
  - split; [|eauto]. intros _ k Hk. lia.
  - destruct (Hret shrink ltac:(lia)) as [rs Hrs]. rewrite Hrs.
    cbn [mbind outcome_bind].
    destruct (Nat.ltb_spec (length rs) 15) as [Hshort|Hlong].
    + rewrite IH by (intros k Hk; apply Hret; lia).
      split; intros H k Hk.
      * destruct (Nat.eq_dec k shrink) as [->|Hne]; [eauto|].
        apply H. lia.
      * apply H. lia.
    + split; [intros [e He]; discriminate|].
      intros H. destruct (H shrink ltac:(lia)) as (rs' & Hrs' & Hlen).
      rewrite Hrs in Hrs'. injection Hrs' as <-. lia.
Qed.

Lemma radii_attempts_return fuel n shrink rs :
  attempts fuel n shrink = Return rs ->
  exists k, (shrink <= k < shrink + n)%nat /\
            grow fuel k [3 * psf_fwhm res / 2] = Return rs /\
            (15 <= length rs)%nat /\
            all_short fuel shrink (k - shrink).
Proof.
  revert shrink. induction n as [|n IH]; intros shrink H; simpl in H;
    [discriminate|].
  inv_bind H. destruct (Nat.ltb_spec (length a) 15) as [Hshort|Hlong].
  - apply IH in H. destruct H as (k & Hk & Hg & Hl & Hs).
    exists k. repeat split; auto; try lia.
    intros j Hj. destruct (Nat.eq_dec j shrink) as [->|Hne]; [eauto|].
    apply Hs. lia.
  - injection H as <-. exists shrink. repeat split; auto; try lia.
    intros j Hj. lia.
Qed.

Lemma radii_attempts_finishes fuel n shrink :
  (forall k, (shrink <= k < shrink + n)%nat ->
     exists rs, grow fuel k [3 * psf_fwhm res / 2] = Return rs) ->
  attempts fuel n shrink <> OutOfFuel.
Proof.
  revert shrink. induction n as [|n IH]; intros shrink Hret; simpl;
    [discriminate|].
  destruct (Hret shrink ltac:(lia)) as [rs ->]. cbn [mbind outcome_bind].
  destruct (length rs <? 15)%nat; [|discriminate].
  apply IH. intros k Hk. apply Hret. lia.
Qed.

End RadiiProperties.

Section LoopShape.
Context {SF : SharedFunctions} {NR : NumpyRandom}.
Variable loss : list R -> list R -> nat -> R -> outcome float64.
Variable regularize_scale : R.
Variable n_radii : nat.

Lemma for_each_shaped idx s s' :
  Forall (fun i => (i < n_radii)%nat) idx -> shaped n_radii s ->
  for_each loss regularize_scale idx s = Return s' -> shaped n_radii s'.
Proof.
  revert s. induction idx as [|i idx IH]; intros s Hidx Hs H; simpl in H.
  - injection H as <-. exact Hs.
  - inversion Hidx; subst. inv_bind H.
    apply (IH a); auto.
    apply (refine_radius_shaped loss regularize_scale n_radii i s a); auto.
Qed.

Lemma iteration_shaped s s' :
  shaped n_radii s ->
  iteration loss regularize_scale s = Return s' -> shaped n_radii s'.
Proof.
  intros (He & Hp & HI). unfold iteration.
  pose proof (shuffle_perm (I s) (gen s)) as Hperm.
  destruct (shuffle (I s) (gen s)) as [I' g]. simpl in Hperm.
  assert (HI' : Forall (fun i => (i < n_radii)%nat) I').
  { eapply Permutation_Forall; [symmetry; exact Hperm | exact HI]. }
  apply for_each_shaped; auto. repeat split; auto.
Qed.

Lemma fit_loop_shaped fuel s s' :
  shaped n_radii s ->
  fit_loop loss regularize_scale n_radii fuel s = Return s' ->
  shaped n_radii s'.
Proof.
  revert s. induction fuel as [|fuel IH]; intros s Hs H; simpl in H.
  - destruct (continue_fit n_radii s); [discriminate|]. injection H as <-. auto.
  - destruct (continue_fit n_radii s).
    + inv_bind H. apply (IH a); auto. apply (iteration_shaped s a); auto.
    + injection H as <-. auto.
Qed.

End LoopShape.

(** ** Collapsed centre and clamp *)

Lemma fill_prefix_length {A} k (v : A) l :
  length (fill_prefix k v l) = length l.
Proof.
  unfold fill_prefix. rewrite length_app, length_replicate, length_drop. lia.
Qed.

Lemma fill_prefix_nth k (v : R) l j :
  (k <= length l)%nat ->
  nth j (fill_prefix k v l) 0 = if (j <? k)%nat then v else nth j l 0.
Proof.
  intros Hk. unfold fill_prefix. rewrite Nat.min_l by lia.
  destruct (Nat.ltb_spec j k).
  - rewrite app_nth1 by (rewrite length_replicate; lia).
    rewrite nth_lookup, lookup_replicate_2 by lia. reflexivity.
  - rewrite app_nth2 by (rewrite length_replicate; lia).
    rewrite length_replicate. rewrite nth_skipn. f_equal. lia.
Qed.

Section Collapse.
Context {SF : SharedFunctions}.

(** The transformed ellipticity drops by more than 0.5 from [i] to
    [i + 1]. *)
Definition drops_at (ellip : list R) (i : nat) : Prop :=
  0.5 < _inv_x_to_eps (nth i ellip 0) - _inv_x_to_eps (nth (i + 1) ellip 0).

Lemma collapse_step_spec i ellip pa :
  (i + 1 < length ellip)%nat -> (i + 1 < length pa)%nat ->
  collapse_step i (ellip, pa) =
  Return (if Rlt_dec 0.5 (_inv_x_to_eps (nth i ellip 0)
                          - _inv_x_to_eps (nth (i + 1) ellip 0))
          then (fill_prefix (i + 1) (nth (i + 1) ellip 0) ellip,
                fill_prefix (i + 1) (nth (i + 1) pa 0) pa)
          else (ellip, pa)).
Proof.
  intros He Hp. unfold collapse_step.
  rewrite (index_nth ellip i 0), (index_nth ellip (i + 1) 0) by lia.
  cbn [mbind outcome_bind]. unfold Rltb.
  destruct (Rlt_dec 0.5 _); [|reflexivity].
  rewrite (index_nth pa (i + 1) 0) by lia. reflexivity.
Qed.

(** The state of the scan before its step [i]: the entries from [i] on
    are the ones the scan started with, and below every drop already met
    the arrays are flat. *)
Definition scanned (ellip0 pa0 : list R) (i : nat) (ep : list R * list R)
  : Prop :=
  length ep.1 = length ellip0 /\ length ep.2 = length pa0 /\
  (forall k, (i <= k)%nat ->
     nth k ep.1 0 = nth k ellip0 0 /\ nth k ep.2 0 = nth k pa0 0) /\
  (forall j k, (j < i)%nat -> drops_at ellip0 j -> (k <= j)%nat ->
     nth k ep.1 0 = nth (j + 1) ep.1 0 /\ nth k ep.2 0 = nth (j + 1) ep.2 0) /\
  ((forall j, (j < i)%nat -> ~ drops_at ellip0 j) -> ep = (ellip0, pa0)).

Lemma collapse_from_scanned ellip0 pa0 n i ep :
  (i + n < length ellip0)%nat -> (i + n < length pa0)%nat ->
  scanned ellip0 pa0 i ep ->
  exists ep', collapse_from (seq i n) ep = Return ep' /\
              scanned ellip0 pa0 (i + n) ep'.
Proof.
  revert i ep. induction n as [|n IH]; intros i [e p] He Hp Hs;
    cbn [collapse_from seq].
  - exists (e, p). rewrite Nat.add_0_r. auto.
  - destruct Hs as (Hle & Hlp & Hsame & Hflat & Hnone).
    cbn [fst snd] in *.
    rewrite collapse_step_spec by lia. cbn [mbind outcome_bind].
    replace (i + S n)%nat with (S i + n)%nat by lia.
    apply IH; try lia.
    destruct (Hsame i (Nat.le_refl i)) as [Hei Hpi].
    destruct (Hsame (i + 1)%nat ltac:(lia)) as [Hei1 Hpi1].
    assert (Hfill : forall (l : list R) v k,
               (i + 1 <= length l)%nat ->
               nth k (fill_prefix (i + 1) v l) 0
               = if (k <=? i)%nat then v else nth k l 0).
    { intros l v k Hl. rewrite fill_prefix_nth by lia.
      destruct (Nat.ltb_spec k (i + 1)); destruct (Nat.leb_spec k i);
        auto; lia. }
    destruct (Rlt_dec 0.5 _) as [Hdrop|Hno].
    + split; [cbn [fst]; rewrite fill_prefix_length; auto|].
      split; [cbn [snd]; rewrite fill_prefix_length; auto|].
      cbn [fst snd]. split; [|split].
      * intros k Hk. rewrite !Hfill by lia.
        destruct (Nat.leb_spec k i); [lia|]. apply Hsame. lia.
      * intros j k Hj Hd Hk. rewrite !Hfill by lia.
        destruct (Nat.leb_spec k i); [|lia].
        destruct (Nat.leb_spec (j + 1) i); auto.
        assert (j = i) as -> by lia. auto.
      * intros Hnodrop. exfalso. apply (Hnodrop i); [lia|].
        unfold drops_at. rewrite <- Hei, <- Hei1. exact Hdrop.
    + split; [auto|]. split; [auto|]. cbn [fst snd]. split; [|split].
      * intros k Hk. apply Hsame. lia.
      * intros j k Hj Hd Hk.
        destruct (Nat.eq_dec j i) as [->|Hne].
        -- exfalso. apply Hno. unfold drops_at in Hd.
           rewrite Hei, Hei1. exact Hd.
        -- apply (Hflat j k); auto. lia.
      * intros Hnodrop. apply Hnone. intros j Hj. apply Hnodrop. lia.
Qed.

Lemma detect_collapsed_center_spec ellip pa :
  (6 <= length ellip)%nat -> (6 <= length pa)%nat ->
  exists ep, detect_collapsed_center ellip pa = Return ep /\
             scanned ellip pa 5 ep.
Proof.
  intros He Hp. unfold detect_collapsed_center.
  apply (collapse_from_scanned ellip pa 5 0); try lia.
  repeat split; auto; intros; lia.
Qed.

Lemma py_min_le xs m :
  py_min xs = Return m -> Forall (fun x => m <= x) xs /\ In m xs.
Proof.
  destruct xs as [|x xs]; simpl; [discriminate|]. intros H. injection H as <-.
  assert (G : forall l a, fold_left (fun m y => if Rltb y m then y else m) l a <= a /\
                  Forall (fun y => fold_left (fun m y => if Rltb y m then y else m) l a <= y) l /\
                  (fold_left (fun m y => if Rltb y m then y else m) l a = a \/
                   In (fold_left (fun m y => if Rltb y m then y else m) l a) l)).
  { induction l as [|y l IH]; intros a; simpl.
    - split; [lra|]. split; auto.
    - destruct (IH (if Rltb y a then y else a)) as (H1 & H2 & H3).
      unfold Rltb in *. destruct (Rlt_dec y a).
      + split; [lra|]. split; [constructor; auto|]. destruct H3; auto.
      + split; [lra|]. split; [constructor; auto; lra|]. destruct H3; auto. }
  destruct (G xs x) as (H1 & H2 & H3). split.
  - constructor; auto.
  - destruct H3 as [->|H3]; [left | right]; auto.
Qed.

End Collapse.

(** ** Errors *)

Lemma fold_insert_lookup {A} (f : nat -> A) (a m : nat) (err : list A) (j : nat) :
  fold_left (fun e i => <[i := f i]> e) (seq a m) err !! j
  = if decide ((a <= j < a + m)%nat /\ (j < length err)%nat)
    then Some (f j) else err !! j.
Proof.
  revert a err. induction m as [|m IH]; intros a err; simpl.
  - destruct (decide _) as [[? ?]|?]; [lia | reflexivity].
  - rewrite IH. rewrite length_insert.
    destruct (decide ((S a <= j < S a + m)%nat /\ (j < length err)%nat)) as [H|H].
    + destruct (decide _) as [?|H']; [reflexivity | exfalso; apply H'; lia].
    + destruct (Nat.eq_dec j a) as [->|Hne].
      * destruct (decide _) as [[_ Hl]|H'].
        -- apply list_lookup_insert_eq. exact Hl.
        -- rewrite list_insert_ge; [reflexivity|].
           destruct (Nat.le_gt_cases (length err) a); auto. exfalso. apply H'. lia.
      * rewrite list_lookup_insert_ne by auto.
        destruct (decide _) as [?|?]; [exfalso; apply H; lia | reflexivity].
Qed.

Lemma fold_insert_length {A} (f : nat -> A) (idx : list nat) (err : list A) :
  length (fold_left (fun e i => <[i := f i]> e) idx err) = length err.
Proof.
  revert err. induction idx as [|i idx IH]; intros err; simpl; auto.
  rewrite IH. apply length_insert.
Qed.

Lemma take4_drop {A} (lo : nat) (l : list A) (d : A) :
  (lo + 4 <= length l)%nat ->
  take 4 (drop lo l)
  = [nth lo l d; nth (lo + 1) l d; nth (lo + 2) l d; nth (lo + 3) l d].
Proof.
  revert l. induction lo as [|lo IH]; intros l H.
  - destruct l as [|a [|b [|c [|e l]]]]; simpl in H; try lia. reflexivity.
  - destruct l as [|a l]; simpl in H; [lia|]. simpl. apply IH. lia.
Qed.

(** The root mean square of the specification: the window of four
    entries that starts at [lo]. *)
Definition sq_dev (raw smooth : list float64) (k : nat) : float64 :=
  let d := fsub (nth k raw NaN) (nth k smooth NaN) in fmul d d.

Definition spec_rms (raw smooth : list float64) (lo : nat) : float64 :=
  fsqrt (fdiv (np_sum [sq_dev raw smooth lo; sq_dev raw smooth (lo + 1);
                       sq_dev raw smooth (lo + 2); sq_dev raw smooth (lo + 3)])
              (Fin 4)).

Lemma rms4_slice raw smooth lo :
  (lo + 4 <= length raw)%nat -> (lo + 4 <= length smooth)%nat ->
  rms4 (slice lo (lo + 4) raw) (slice lo (lo + 4) smooth)
  = spec_rms raw smooth lo.
Proof.
  intros Hr Hs. unfold slice.
  replace (lo + 4 - lo)%nat with 4%nat by lia.
  rewrite (take4_drop lo raw NaN), (take4_drop lo smooth NaN) by lia.
  reflexivity.
Qed.

Lemma rms4_first raw smooth :
  (4 <= length raw)%nat -> (4 <= length smooth)%nat ->
  rms4 (take 4 raw) (take 4 smooth) = spec_rms raw smooth 0.
Proof. intros Hr Hs. apply (rms4_slice raw smooth 0); lia. Qed.

Lemma rms4_last raw smooth :
  (4 <= length raw)%nat -> length smooth = length raw ->
  rms4 (last4 raw) (last4 smooth) = spec_rms raw smooth (length raw - 4).
Proof.
  intros Hr Hs. unfold last4. rewrite Hs.
  pose proof (rms4_slice raw smooth (length raw - 4)) as H.
  unfold slice in H.
  replace (length raw - 4 + 4 - (length raw - 4))%nat with 4%nat in H by lia.
  rewrite <- H by lia.
  rewrite !firstn_all2; auto; rewrite length_drop; lia.
Qed.

(** On arrays of numbers the root mean square is the number
    [sqrt (sum of the four squared deviations / 4)]. *)
Lemma spec_rms_reals (a b : list R) lo :
  (lo + 4 <= length a)%nat -> (lo + 4 <= length b)%nat ->
  spec_rms (map Fin a) (map Fin b) lo
  = Fin (sqrt (((nth lo a 0 - nth lo b 0) ^ 2
                + (nth (lo + 1) a 0 - nth (lo + 1) b 0) ^ 2
                + (nth (lo + 2) a 0 - nth (lo + 2) b 0) ^ 2
                + (nth (lo + 3) a 0 - nth (lo + 3) b 0) ^ 2) / 4)).
Proof.
  intros Ha Hb. unfold spec_rms, sq_dev.
  assert (Hn : forall (l : list R) k, (k < length l)%nat ->
                 nth k (map Fin l) NaN = Fin (nth k l 0)).
  { intros l k Hk. rewrite (nth_indep _ NaN (Fin 0)) by (rewrite length_map; lia).
    apply (map_nth Fin). }
  rewrite !Hn by lia. simpl.
  unfold Reqb. destruct (Req_dec_T 4 0); [lra|].
  simpl. unfold Rltb.
  match goal with |- context [Rlt_dec ?x 0] => destruct (Rlt_dec x 0) as [Hneg|_] end.
  - exfalso.
    match type of Hneg with ?x / 4 < 0 => assert (0 <= x) end; [|lra].
    repeat apply Rplus_le_le_0_compat; try lra;
      match goal with |- 0 <= ?x * ?x => apply Rle_0_sqr end.
  - f_equal. f_equal. lra.
Qed.

(** What [param_err] leaves in the error array of a parameter with at
    least four radii. *)
Lemma param_err_spec raw smooth :
  (4 <= length raw)%nat -> length smooth = length raw ->
  exists err,
    param_err (length raw) raw smooth = Return err /\
    length err = length raw /\
    err !! 0%nat = Some (spec_rms raw smooth 0) /\
    err !! 1%nat = Some (spec_rms raw smooth 0) /\
    err !! (length raw - 1)%nat = Some (spec_rms raw smooth (length raw - 4)) /\
    (forall i, (2 <= i <= length raw - 2)%nat ->
               err !! i = Some (spec_rms raw smooth (i - 2))).
Proof.
  intros Hn Hs. unfold param_err.
  set (n := length raw) in *.
  set (e0 := fill_prefix 2 (rms4 (take 4 raw) (take 4 smooth))
               (replicate n (Fin 0))).
  assert (Hl0 : length e0 = n).
  { unfold e0. rewrite fill_prefix_length, length_replicate. reflexivity. }
  assert (He0 : set_last (rms4 (last4 raw) (last4 smooth)) e0
                = Return (<[(n - 1)%nat := rms4 (last4 raw) (last4 smooth)]> e0)).
  { rewrite <- Hl0. unfold set_last. destruct e0; [simpl in Hl0; lia | reflexivity]. }
  rewrite He0. cbn [mbind outcome_bind mret outcome_ret].
  eexists. split; [reflexivity|].
  set (e1 := <[(n - 1)%nat := rms4 (last4 raw) (last4 smooth)]> e0).
  assert (Hl1 : length e1 = n) by (unfold e1; rewrite length_insert; auto).
  assert (Hlen : length (fold_left
            (fun err i => <[i := rms4 (slice (i - 2) (i + 2) raw)
                                  (slice (i - 2) (i + 2) smooth)]> err)
            (seq 2 (n - 1 - 2)) e1) = n).
  { rewrite fold_insert_length. exact Hl1. }
  assert (Hpre : forall k, (k < 2)%nat -> e0 !! k = Some (spec_rms raw smooth 0)).
  { intros k Hk. unfold e0, fill_prefix. rewrite length_replicate.
    rewrite Nat.min_l by lia. rewrite lookup_app_l by (rewrite length_replicate; lia).
    rewrite lookup_replicate_2 by lia. rewrite rms4_first by lia. reflexivity. }
  split; [exact Hlen|].
  rewrite !fold_insert_lookup. rewrite Hl1.
  split; [|split; [|split]].
  - destruct (decide _) as [[? ?]|_]; [lia|].
    unfold e1. rewrite list_lookup_insert_ne by lia. apply Hpre. lia.
  - destruct (decide _) as [[? ?]|_]; [lia|].
    unfold e1. rewrite list_lookup_insert_ne by lia. apply Hpre. lia.
  - destruct (decide _) as [[? ?]|_]; [lia|].
    unfold e1. rewrite list_lookup_insert_eq by lia.
    rewrite rms4_last by auto. reflexivity.
  - intros i Hi. rewrite fold_insert_lookup. rewrite Hl1.
    destruct (decide _) as [_|H']; [|exfalso; apply H'; lia].
    replace (i + 2)%nat with (i - 2 + 4)%nat by lia.
    rewrite rms4_slice by lia. reflexivity.
Qed.

(** ** The position-angle smoother *)

Lemma pymod_range x m : 0 < m -> 0 <= pymod x m < m.
Proof.
  intros Hm. unfold pymod.
  pose proof (Zfloor_bound (x / m)) as [H1 H2].
  assert (Hx : x = m * (x / m)) by (field; lra).
  split.
  - apply Rmult_le_compat_l with (r := m) in H1; lra.
  - apply Rmult_lt_compat_l with (r := m) in H2; lra.
Qed.


Lemma fdiv_Fin x y : y <> 0 -> fdiv (Fin x) (Fin y) = Fin (x / y).
Proof. intros Hy. simpl. unfold Reqb. destruct (Req_dec_T y 0); tauto. Qed.





(** The remainder lies between 0 and the modulus. *)
Lemma pymod_range_closed x m : 0 < m -> 0 <= pymod x m <= m.
Proof. intros Hm. pose proof (pymod_range x m Hm). lra. Qed.



Section SmoothProperties.
Context {SF : SharedFunctions} {SK : Sklearn}.







Lemma ellip_smooth_length R_ E deg : length (_ellip_smooth R_ E deg) = length E.
Proof.
  unfold _ellip_smooth. rewrite length_map, huber_fit_predict_length, length_map.
  reflexivity.
Qed.

End SmoothProperties.

(** ** The whole fit *)

Section FitProperties.
Context {AF : ArrayFunctions} {SF : SharedFunctions} {NR : NumpyRandom}
        {SK : Sklearn} {PF : PythonFormat}.

(** The array [dat] and the mask that a run of the fitter works on. *)
Definition dat_of (IMG : nat) (results : results_t) (h : store) : image :=
  subtract_background (h !!! IMG) (background results).

Definition mask_of (results : results_t) : option mask_array :=
  match results_mask results with
  | Some m => if np_any m then Some m else None
  | None => None
  end.

Definition radii_of (v : variant) (fuel : nat) (IMG : nat)
    (results : results_t) (options : gmap string R) (h : store)
  : outcome (list R) :=
  sample_radii_init v (dat_of IMG results h)
    (INR (max_shape (h !!! IMG)) / 2) results (mask_of results)
    (scale_of options) (fit_limit_of v options) fuel.

Definition loss_in (v : variant) (IMG : nat) (results : results_t)
    (h : store) (sample_radii : list R)
  : list R -> list R -> nat -> R -> outcome float64 :=
  fun E PA i reg_scale =>
    loss_of v (dat_of IMG results h) sample_radii E PA i
      (results_center results) (background_noise results)
      (mask_of results) reg_scale.

Definition initial_state (n : nat) (results : results_t) (g : rng)
  : fit_state :=
  {| ellip := replicate n (1 * init_ellip results);
     pa := replicate n (1 * init_pa results);
     count := 0; count_nochange := 0; I := seq 0 n; gen := g |}.

(** What the fitter does after the radii are there. *)
Definition fit_with (v : variant) (IMG : nat) (results : results_t)
    (options : gmap string R) (h : store) (g : rng) (sample_radii : list R)
  : outcome (nat * gmap string value) :=
  let n := length sample_radii in
  s ← fit_loop (loss_in v IMG results h sample_radii)
        (regularize_scale_of options) n 300 (initial_state n results g);
  '(ellip, pa) ← detect_collapsed_center (ellip s) (pa s);
  sm ← smooth_profile sample_radii ellip pa;
  ellip_err ← param_err (length (raw_pa sm))
                (map Fin (raw_ellip sm)) (map Fin (smooth_ellip sm));
  pa_err ← param_err (length (raw_pa sm))
             (map Fin (raw_pa sm)) (smooth_pa sm);
  r_last ← last_item sample_radii;
  mret (IMG,
        <["fit ellip"%string := VList (raw_ellip sm)]>
        (<["fit pa"%string := VList (raw_pa sm)]>
        (<["fit R"%string := VList sample_radii]>
        (<["fit ellip_err"%string := VArray ellip_err]>
        (<["fit pa_err"%string := VArray pa_err]>
        (<["auxfile fitlimit"%string := VStr (fitlimit_text r_last)]>
         ∅)))))).

Lemma isophote_fit_unfold v fuel IMG results options h g :
  h !! IMG <> None ->
  isophote_fit v fuel IMG results options h g
  = (sample_radii ← radii_of v fuel IMG results options h;
     fit_with v IMG results options h g sample_radii,
     <[fresh (dom h) := dat_of IMG results h]> h).
Proof.
  intros HIMG. cbv beta iota zeta delta [isophote_fit alloc].
  assert (Hne : fresh (dom h) <> IMG).
  { intros E. apply HIMG. apply not_elem_of_dom. rewrite <- E. apply is_fresh. }
  rewrite lookup_total_insert_eq.
  rewrite lookup_total_insert_ne by auto.
  reflexivity.
Qed.

Lemma collapse_step_length i ep ep' :
  collapse_step i ep = Return ep' ->
  length ep'.1 = length ep.1 /\ length ep'.2 = length ep.2.
Proof.
  destruct ep as [e p]. unfold collapse_step. intros H.
  inv_bind H. inv_bind H. destruct (Rltb 0.5 _).
  - inv_bind H. injection H as <-. simpl. rewrite !fill_prefix_length. auto.
  - injection H as <-. auto.
Qed.

Lemma collapse_from_length idx ep ep' :
  collapse_from idx ep = Return ep' ->
  length ep'.1 = length ep.1 /\ length ep'.2 = length ep.2.
Proof.
  revert ep. induction idx as [|i idx IH]; intros ep H; simpl in H.
  - injection H as <-. auto.
  - inv_bind H. apply IH in H. apply collapse_step_length in Ha.
    destruct H as [-> ->]. exact Ha.
Qed.

Lemma smooth_profile_spec sample_radii ellip pa sm :
  smooth_profile sample_radii ellip pa = Return sm ->
  exists m, py_min (take 3 ellip) = Return m /\
            raw_ellip sm = fill_prefix 3 m ellip /\
            raw_pa sm = pa /\
            smooth_ellip_arg sm = ellip /\ smooth_pa_arg sm = pa /\
            smooth_ellip sm = _ellip_smooth sample_radii ellip 5 /\
            smooth_pa sm = _pa_smooth sample_radii pa 5.
Proof.
  unfold smooth_profile, clamp_first3. intros H. inv_bind H. inv_bind Ha.
  injection Ha as <-. injection H as <-. exists a0. simpl. auto 10.
Qed.

Lemma param_err_length len raw smooth err :
  param_err len raw smooth = Return err -> length err = length raw.
Proof.
  unfold param_err. intros H. inv_bind H. injection H as <-.
  rewrite fold_insert_length.
  unfold set_last in Ha.
  destruct (fill_prefix 2 _ _) eqn:E; [discriminate|].
  injection Ha as <-. rewrite length_insert, <- E.
  rewrite fill_prefix_length, length_replicate. reflexivity.
Qed.

Lemma param_err_returns len raw smooth :
  raw <> [] -> exists err, param_err len raw smooth = Return err.
Proof.
  intros Hne. unfold param_err. unfold set_last.
  destruct (fill_prefix 2 _ _) eqn:E.
  - apply (f_equal length) in E.
    rewrite fill_prefix_length, length_replicate in E.
    destruct raw; simpl in E; [congruence | lia].
  - cbn [mbind outcome_bind mret outcome_ret]. eauto.
Qed.

(** The entries of the returned dict. *)
Definition bundle (res : gmap string value) (sample_radii e p : list R)
    (ee pe : list float64) (text : string) : Prop :=
  res !! "fit R"%string = Some (VList sample_radii) /\
  res !! "fit ellip"%string = Some (VList e) /\
  res !! "fit pa"%string = Some (VList p) /\
  res !! "fit ellip_err"%string = Some (VArray ee) /\
  res !! "fit pa_err"%string = Some (VArray pe) /\
  res !! "auxfile fitlimit"%string = Some (VStr text).

Lemma initial_state_shaped n results g :
  shaped n (initial_state n results g).
Proof.
  unfold shaped, initial_state. simpl. rewrite !length_replicate.
  repeat split; auto.
  apply Forall_forall. intros i Hi. apply list_elem_of_In, in_seq in Hi. lia.
Qed.

Lemma fit_with_bundle v IMG results options h g sample_radii l res :
  fit_with v IMG results options h g sample_radii = Return (l, res) ->
  l = IMG /\
  exists e p ee pe r_last,
    bundle res sample_radii e p ee pe (fitlimit_text r_last) /\
    last_item sample_radii = Return r_last /\
    length e = length sample_radii /\ length p = length sample_radii /\
    length ee = length sample_radii /\ length pe = length sample_radii.
Proof.
  unfold fit_with. intros H.
  inv_bind H. rename a into s. rename Ha into Hloop.
  inv_bind H. destruct a as [e p]. rename Ha into Hcol.
  inv_bind H. rename a into sm. rename Ha into Hsm.
  inv_bind H. rename a into ee. rename Ha into Hee.
  inv_bind H. rename a into pe. rename Ha into Hpe.
  inv_bind H. rename a into r_last. rename Ha into Hlast.
  injection H as <- <-. split; [reflexivity|].
  apply fit_loop_shaped in Hloop; [|apply initial_state_shaped].
  destruct Hloop as (Hle & Hlp & _).
  apply collapse_from_length in Hcol. simpl in Hcol. destruct Hcol as [Hle' Hlp'].
  apply smooth_profile_spec in Hsm.
  destruct Hsm as (m & _ & Hre & Hrp & _ & _ & _ & _).
  apply param_err_length in Hee, Hpe. rewrite length_map in Hee, Hpe.
  exists (raw_ellip sm), (raw_pa sm), ee, pe, r_last.
  assert (length (raw_ellip sm) = length sample_radii).
  { rewrite Hre, fill_prefix_length. lia. }
  assert (length (raw_pa sm) = length sample_radii).
  { rewrite Hrp. lia. }
  repeat split; auto; try lia.
Qed.

(** The sampler hands back at least three samples, so that [coefs[2]]
    exists. *)
Definition sampler_ok (dat : image) (C : center) (mask : option mask_array)
  : Prop :=
  forall r e p interp, (3 <= length (_iso_extract dat r e p C None mask interp))%nat.

Lemma reg_add_returns bw E PA i j acc :
  (i < length E)%nat -> (j < length E)%nat ->
  (i < length PA)%nat -> (j < length PA)%nat ->
  exists l, reg_add bw E PA i j acc = Return l.
Proof.
  intros. unfold reg_add.
  rewrite (index_nth E i 0), (index_nth E j 0) by auto.
  cbn [mbind outcome_bind].
  rewrite (index_nth PA i 0), (index_nth PA j 0) by auto.
  cbn [mbind outcome_bind mret outcome_ret]. eauto.
Qed.

Lemma reg_loss_returns bw R_ E PA i :
  (i < length R_)%nat -> length E = length R_ -> length PA = length R_ ->
  exists l, reg_loss bw R_ E PA i = Return l.
Proof.
  intros Hi HE HP. unfold reg_loss.
  destruct (Nat.ltb_spec i (length R_ - 1)).
  - destruct (reg_add_returns bw E PA i (i + 1) (Fin 0)) as [l1 ->]; try lia.
    cbn [mbind outcome_bind].
    destruct (Nat.ltb_spec 0 i); [|eauto].
    apply reg_add_returns; lia.
  - cbn [mbind outcome_bind mret outcome_ret].
    destruct (Nat.ltb_spec 0 i); [|eauto].
    apply reg_add_returns; lia.
Qed.

Lemma loss_of_returns v dat R_ E PA i C noise mask reg_scale :
  sampler_ok dat C mask ->
  (i < length R_)%nat -> length E = length R_ -> length PA = length R_ ->
  exists l, loss_of v dat R_ E PA i C noise mask reg_scale = Return l.
Proof.
  intros Hok Hi HE HP.
  destruct (reg_loss_returns (2 * 0.2) R_ E PA i Hi HE HP) as [l2 H2].
  destruct (reg_loss_returns (2 * 0.3) R_ E PA i Hi HE HP) as [l3 H3].
  destruct v; simpl.
  - unfold _FFT_Robust_loss.
    rewrite (index_nth R_ i 0), (index_nth E i 0), (index_nth PA i 0) by lia.
    cbn [mbind outcome_bind].
    rewrite second_coef_abs_long
      by (unfold np_clip_max; rewrite length_map; apply Hok).
    cbn [mbind outcome_bind]. rewrite H2.
    cbn [mbind outcome_bind mret outcome_ret]. eauto.
  - unfold _FFT_mean_loss.
    rewrite (index_nth R_ i 0), (index_nth E i 0), (index_nth PA i 0) by lia.
    cbn [mbind outcome_bind].
    destruct (negb (all_finite _)); [cbn [mret outcome_ret]; eauto|].
    rewrite second_coef_abs_long by apply Hok.
    cbn [mbind outcome_bind]. rewrite H3.
    cbn [mbind outcome_bind mret outcome_ret]. eauto.
Qed.

Lemma loss_in_returns v IMG results h sample_radii :
  sampler_ok (dat_of IMG results h) (results_center results) (mask_of results) ->
  loss_returns (loss_in v IMG results h sample_radii) (length sample_radii).
Proof.
  intros Hok E PA j r HE HP Hj. unfold loss_in.
  apply loss_of_returns; auto.
Qed.

(** With at least six radii and a sampler that hands back rings, the
    fitter returns its result. *)
Lemma fit_with_returns v IMG results options h g sample_radii :
  sampler_ok (dat_of IMG results h) (results_center results) (mask_of results) ->
  (6 <= length sample_radii)%nat ->
  exists res,
    fit_with v IMG results options h g sample_radii = Return (IMG, res).
Proof.
  intros Hok Hn. unfold fit_with.
  destruct (fit_loop_returns (loss_in v IMG results h sample_radii)
              (regularize_scale_of options) (length sample_radii) 300
              (initial_state (length sample_radii) results g))
    as (s & Hs & Hshape).
  { apply loss_in_returns. exact Hok. }
  { apply initial_state_shaped. }
  { simpl. lia. }
  rewrite Hs. cbn [mbind outcome_bind].
  destruct Hshape as (Hle & Hlp & _).
  destruct (detect_collapsed_center_spec (ellip s) (pa s)) as ([e p] & Hc & Hsc);
    try lia.
  rewrite Hc. cbn [mbind outcome_bind].
  destruct Hsc as (Hle' & Hlp' & _). simpl in Hle', Hlp'.
  unfold smooth_profile, clamp_first3.
  assert (Hmin : exists m, py_min (take 3 e) = Return m).
  { destruct e as [|x e]; [simpl in Hle'; lia|]. simpl. eauto. }
  destruct Hmin as [m ->]. cbn [mbind outcome_bind mret outcome_ret].
  cbn [raw_pa raw_ellip smooth_ellip smooth_pa].
  destruct (param_err_returns (length p) (map Fin (fill_prefix 3 m e))
              (map Fin (_ellip_smooth sample_radii e 5))) as [ee ->].
  { intros E. apply (f_equal length) in E.
    rewrite length_map, fill_prefix_length in E. simpl in E. lia. }
  cbn [mbind outcome_bind].
  destruct (param_err_returns (length p) (map Fin p)
              (_pa_smooth sample_radii p 5)) as [pe ->].
  { intros E. apply (f_equal length) in E. rewrite length_map in E.
    simpl in E. lia. }
  cbn [mbind outcome_bind].
  rewrite (last_item_nth sample_radii)
    by (intros E; rewrite E in Hn; simpl in Hn; lia).
  cbn [mbind outcome_bind mret outcome_ret]. eauto.
Qed.

End FitProperties.

(** * Concrete collaborators

    Small stand-ins for the collaborators, to run the definitions on
    concrete inputs: a sampler whose ring depends on the ellipticity
    only, transforms that are the identity, a generator that always
    draws [loc + scale], a shuffle that leaves the order, and a
    regression that predicts what it was given. *)

Module Example.

Definition ring_sampler (ring_at : R -> list float64) : SharedFunctions :=
  {| _iso_extract := fun _ _ e _ _ _ _ _ => ring_at e;
     _x_to_eps := fun x => x;
     _inv_x_to_eps := fun x => x;
     Angle_TwoAngles := fun _ _ => 0 |}.

(** Every ring is [1, 1, 1]. *)
Definition bright : SharedFunctions :=
  ring_sampler (fun _ => [Fin 1; Fin 1; Fin 1]).

(** Every ring is [0, 0, 0]. *)
Definition blank : SharedFunctions :=
  ring_sampler (fun _ => [Fin 0; Fin 0; Fin 0]).

(** Every ring is [1, 0, 0]. *)
Definition spike : SharedFunctions :=
  ring_sampler (fun _ => [Fin 1; Fin 0; Fin 0]).

(** The ring is [1, 1, 1] on the ellipse of ellipticity 1/2 and
    [0, 0, 0] on every other one. *)
Definition lit_at_half : SharedFunctions :=
  ring_sampler (fun e => if Reqb e (1 / 2)
                         then [Fin 1; Fin 1; Fin 1]
                         else [Fin 0; Fin 0; Fin 0]).

(** [np.quantile] and the transform as a library that gives NaN on
    every array with a sample that is not finite. *)
Definition on_finite (f : list R -> float64) (xs : list float64) : float64 :=
  match finite_values xs with
  | Some rs => f rs
  | None => NaN
  end.

Lemma on_finite_map f rs : on_finite f (map Fin rs) = f rs.
Proof. unfold on_finite. rewrite finite_values_map. reflexivity. Qed.

Definition nan_on_non_finite : ArrayFunctions.
Proof.
  refine {| np_quantile := fun xs q => on_finite (fun rs => Rquantile rs q) xs;
            np_abs_fft := fun xs k => on_finite (fun rs => Fin (cabs (dft rs k))) xs |}.
  - intros rs q _ _. apply on_finite_map.
  - intros rs k _. apply on_finite_map.
  - intros xs k. unfold on_finite. destruct (finite_values xs); [|left; reflexivity].
    right. right. eexists. split; [reflexivity | apply sqrt_pos].
Defined.

Definition one_sigma : NumpyRandom :=
  {| rng := unit;
     normal := fun loc scale g => (loc + scale, g);
     shuffle := fun l g => (l, g);
     shuffle_perm := fun l g => Permutation_refl l |}.

Definition echo : Sklearn :=
  {| huber_fit_predict := fun _ _ _ y => y;
     huber_fit_predict_length := fun _ _ _ y => eq_refl |}.

Definition two_digits : PythonFormat := {| format_2f := fun _ => "0.00"%string |}.

(** A loss that is the same for every candidate. *)
Definition level_loss : list R -> list R -> nat -> R -> outcome float64 :=
  fun _ _ _ _ => Return (Fin 1).

(** The state of a fit with one radius, about to start the pass with
    [count = 3]. *)
Definition one_radius : @fit_state one_sigma :=
  @Build_fit_state one_sigma [1 / 2] [0] 3 0 [0%nat] tt.

Definition results_noiseless : results_t :=
  {| background := 0; background_noise := 0; psf_fwhm := 1;
     init_ellip := 1 / 2; init_pa := 0;
     results_center := {| center_x := 0; center_y := 0 |};
     results_mask := None |}.

Definition results_unit_noise : results_t :=
  {| background := 0; background_noise := 1; psf_fwhm := 1;
     init_ellip := 1 / 2; init_pa := 0;
     results_center := {| center_x := 0; center_y := 0 |};
     results_mask := None |}.

Definition origin : center := {| center_x := 0; center_y := 0 |}.

(** An image of 200 rows of one pixel. *)
Definition tall_image : image := replicate 200 [Fin 1].

End Example.

(** * The claims *)

(** ** Rings that hold one value *)

Lemma fdiv_nonzero_number x y : y <> 0 -> exists z, fdiv (Fin x) (Fin y) = Fin z.
Proof. intros Hy. rewrite fdiv_Fin by auto. eauto. Qed.

Lemma sort_constant3 c : sort [c; c; c] = [c; c; c].
Proof. unfold sort. simpl. Rdec. Qed.

Lemma Rmedian_constant3 c : Rmedian [c; c; c] = Fin c.
Proof. unfold Rmedian. rewrite sort_constant3. reflexivity. Qed.

Lemma Zfloor_val (z : Z) x : IZR z <= x < IZR z + 1 -> Zfloor x = z.
Proof. apply Zfloor_eq. Qed.

(** The quantile position of the two clips in a ring of three samples. *)
Lemma quantile_position3 q :
  q = 0.85 \/ q = 0.9 -> Z.to_nat (Zfloor (INR (3 - 1) * q)) = 1%nat.
Proof.
  intros Hq. rewrite (Zfloor_val 1); [reflexivity|].
  simpl. destruct Hq; subst; lra.
Qed.

Lemma Rquantile_constant3 c q :
  q = 0.85 \/ q = 0.9 -> Rquantile [c; c; c] q = Fin c.
Proof.
  intros Hq. unfold Rquantile. rewrite sort_constant3.
  cbn [length Nat.eqb]. rewrite quantile_position3 by auto.
  simpl. f_equal. lra.
Qed.

Lemma np_median_constant3 c : np_median [Fin c; Fin c; Fin c] = Fin c.
Proof.
  change [Fin c; Fin c; Fin c] with (map Fin [c; c; c]).
  rewrite np_median_finite. apply Rmedian_constant3.
Qed.

Lemma np_clip_max_constant3 c :
  np_clip_max [Fin c; Fin c; Fin c] (Fin c) = [Fin c; Fin c; Fin c].
Proof. unfold np_clip_max. simpl. Rdec. Qed.


Lemma max0_zero : max0 (Fin 0) = Fin 0.
Proof. unfold max0, fgt. simpl. Rdec. Qed.

Lemma fdiv_zero_zero x y : x = 0 -> y = 0 -> fdiv (Fin x) (Fin y) = NaN.
Proof. intros -> ->. simpl. Rdec. Qed.

Section ConstantRings.
Context {AF : ArrayFunctions}.

Lemma np_quantile_constant3 c q :
  q = 0.85 \/ q = 0.9 -> np_quantile [Fin c; Fin c; Fin c] q = Fin c.
Proof.
  intros Hq. rewrite (np_quantile_finite [c; c; c]).
  - apply Rquantile_constant3. exact Hq.
  - discriminate.
  - destruct Hq; subst; lra.
Qed.

Lemma np_abs_fft_blank3 : np_abs_fft [Fin 0; Fin 0; Fin 0] 2 = Fin 0.
Proof.
  rewrite (np_abs_fft_finite [0; 0; 0]) by (simpl; lia). f_equal.
  unfold cabs, dft. simpl.
  match goal with |- sqrt ?x = 0 => replace x with 0 by ring end.
  apply sqrt_0.
Qed.

(** A blank ring under a zero noise: the robust loss is 0/0. *)
Lemma spec_robust_loss_blank reg reg_scale :
  spec_robust_loss [Fin 0; Fin 0; Fin 0] 0 false reg reg_scale = NaN.
Proof.
  unfold spec_robust_loss.
  rewrite np_quantile_constant3 by auto.
  rewrite np_clip_max_constant3, np_abs_fft_blank3, np_median_constant3.
  rewrite max0_zero. cbn [length fadd fmul].
  rewrite fdiv_zero_zero by (simpl; lra). reflexivity.
Qed.


(** A ring of ones: the robust loss is a number. *)
Lemma spec_robust_loss_bright noise reg reg_scale :
  0 <= noise ->
  exists x, spec_robust_loss [Fin 1; Fin 1; Fin 1] noise false reg reg_scale = Fin x.
Proof.
  intros Hn. unfold spec_robust_loss.
  rewrite np_quantile_constant3 by auto.
  rewrite np_clip_max_constant3, np_median_constant3.
  rewrite (np_abs_fft_finite [1; 1; 1]) by (simpl; lia).
  assert (Hmax : max0 (Fin 1) = Fin 1) by (unfold max0, fgt; simpl; Rdec).
  rewrite Hmax. cbn [length fadd fmul].
  rewrite fdiv_Fin by (simpl; lra).
  simpl. eauto.
Qed.

End ConstantRings.

(** ** C1: the choice among the candidates and the end of the loop *)

(** The robust loss of a fit with one radius, on the image that is lit on
    the ellipse of ellipticity 1/2 only, with a zero noise. *)
Definition noiseless_robust_loss : list R -> list R -> nat -> R -> outcome float64 :=
  fun E PA i reg_scale =>
    @_FFT_Robust_loss Example.nan_on_non_finite Example.lit_at_half
      [] [3 / 2] E PA i Example.origin 0 None reg_scale.

Lemma noiseless_robust_loss_returns : loss_returns noiseless_robust_loss 1.
Proof.
  intros E PA j r HE HP Hj. unfold noiseless_robust_loss.
  apply (@loss_of_returns Example.nan_on_non_finite Example.lit_at_half Robust);
    auto.
  intros r0 e p interp. simpl. destruct (Reqb e (1 / 2)); simpl; lia.
Qed.

Lemma noiseless_robust_loss_lit PA reg_scale :
  length PA = 1%nat ->
  exists x, noiseless_robust_loss [1 / 2] PA 0 reg_scale = Return (Fin x).
Proof.
  intros HP. unfold noiseless_robust_loss.
  rewrite robust_loss_spec; auto.
  - unfold ring. simpl. unfold Reqb. destruct (Req_dec_T (1 / 2) (1 / 2)); [|lra].
    destruct (@spec_robust_loss_bright Example.nan_on_non_finite 0
                (@spec_reg_loss Example.lit_at_half 0.4 1 [1 / 2] PA 0) reg_scale)
      as [x Hx]; [lra|].
    exists x. f_equal. exact Hx.
  - constructor; [lra | constructor].
  - unfold ring. simpl. destruct (Reqb _ _); simpl; lia.
Qed.

Lemma noiseless_robust_loss_dark e PA reg_scale :
  length PA = 1%nat -> e <> 1 / 2 -> e < 1 ->
  noiseless_robust_loss [e] PA 0 reg_scale = Return NaN.
Proof.
  intros HP He Hlt. unfold noiseless_robust_loss.
  rewrite robust_loss_spec; auto.
  - unfold ring. simpl. unfold Reqb. destruct (Req_dec_T e (1 / 2)); [tauto|].
    f_equal. apply spec_robust_loss_blank.
  - unfold ring. simpl. destruct (Reqb _ _); simpl; lia.
Qed.

(** C1, counterexample: on an image that is lit on one ellipse only, with
    a zero noise, the unchanged candidate has a loss that is a number and
    every perturbation has the loss NaN (0/0); [np.argmin] returns the
    index 1, the perturbation is committed and [count_nochange] is reset,
    although its loss is not below the loss of the unchanged candidate. *)
Lemma nan_loss_is_committed :
  exists s' cands g',
    @refine_radius Example.lit_at_half Example.one_sigma
      noiseless_robust_loss 1 0 Example.one_radius = Return s' /\
    @candidates Example.lit_at_half Example.one_sigma
      noiseless_robust_loss 1 3 0 [1 / 2] [0] tt = Return (cands, g') /\
    argmin (map c_loss cands) = 1%nat /\
    count_nochange s' = 0%nat /\
    ellip s' = [1 / 2 + (0 + 0.03)] /\
    flt (nth 1 (map c_loss cands) NaN) (nth 0 (map c_loss cands) NaN) = false.
Proof.
  destruct (@refine_radius_total Example.lit_at_half Example.one_sigma
              noiseless_robust_loss 1 1 0 Example.one_radius
              noiseless_robust_loss_returns eq_refl eq_refl ltac:(lia))
    as [s' Hs'].
  destruct (@refine_radius_selects Example.lit_at_half Example.one_sigma
              _ _ _ _ _ Hs') as (cands & g' & Hc & _ & Hsel).
  exists s', cands, g'. split; [exact Hs'|]. split; [exact Hc|].
  pose proof Hc as Hpool.
  apply (@candidates_spec Example.lit_at_half Example.one_sigma) in Hpool;
    [|simpl; lia|simpl; lia].
  destruct Hpool as (l0 & new & Hl0 & -> & Hlen & Hall).
  destruct (noiseless_robust_loss_lit [0] (spec_reg_scale 1 3) eq_refl) as [x Hx].
  simpl in Hl0. rewrite Hx in Hl0. injection Hl0 as <-.
  assert (Hnan : Forall (fun p => c_loss p = NaN /\ c_ellip p = [1 / 2 + (0 + 0.03)]) new).
  { eapply Forall_impl; [exact Hall|]. intros p [g Hp].
    unfold spec_perturbed in Hp. simpl in Hp.
    destruct Hp as (He & Hpa & Hloss).
    rewrite noiseless_robust_loss_dark in Hloss by (auto; lra).
    injection Hloss as <-. auto. }
  destruct new as [|p1 new]; [discriminate|].
  inversion Hnan as [|? ? [Hp1 He1] _]; subst.
  unfold selects in Hsel. simpl in Hsel. rewrite Hp1 in Hsel. simpl in Hsel.
  destruct Hsel as (_ & _ & _ & (p & Hp & He & _) & Hcn).
  injection Hp as <-.
  simpl. rewrite Hp1. simpl. repeat split; auto. congruence.
Qed.

(** The condition of the [while], written out. *)
Lemma continue_fit_spec {NR : NumpyRandom} (n_radii : nat) (s : fit_state) :
  continue_fit n_radii s = true <->
  (count s < 300)%nat /\ (count_nochange s < 3 * n_radii)%nat.
Proof.
  unfold continue_fit. rewrite andb_true_iff, !Nat.ltb_lt. reflexivity.
Qed.

(** C1 (as amended).  For every radius index [i] processed in the inner
    loop the pool has six candidates and [np.argmin] picks one of them,
    [best]: if [best > 0] the whole [ellip] and [pa] arrays of that
    candidate are committed and [count_nochange] is reset to 0; if
    [best = 0] the arrays stay and [count_nochange] goes up by 1.  When
    no loss in the pool is NaN, [best] is the first index that holds the
    least loss, so that a perturbation is only committed when its loss
    is strictly below the loss of the unchanged candidate, and a tie
    goes to index 0.  When a loss in the pool is NaN, [best] is the
    index of the first NaN.  The outer loop runs its body exactly while
    [count < 300] and [count_nochange < 3 * n_radii]; a pass adds one to
    [count]; and the loop returns within the 300 passes, with
    [count >= 300] or [count_nochange >= 3 * n_radii].  The loss that
    the fitter passes returns on every ring of at least three
    samples. *)
Theorem fit_loop_selects_and_terminates
    {AF : ArrayFunctions} {SF : SharedFunctions} {NR : NumpyRandom}
    (loss : list R -> list R -> nat -> R -> outcome float64)
    (regularize_scale : R) (n_radii : nat) :
  (forall E PA j r,
     length E = n_radii -> length PA = n_radii -> (j < n_radii)%nat ->
     exists l, loss E PA j r = Return l) ->
  (forall i s,
     length (ellip s) = n_radii -> length (pa s) = n_radii ->
     (i < n_radii)%nat ->
     exists s' cands g',
       refine_radius loss regularize_scale i s = Return s' /\
       candidates loss regularize_scale (count s) i (ellip s) (pa s) (gen s)
         = Return (cands, g') /\
       length cands = 6%nat /\
       let losses := map c_loss cands in
       let best := argmin losses in
       (best < 6)%nat /\
       count s' = count s /\ I s' = I s /\ gen s' = g' /\
       ((0 < best)%nat ->
        exists p, cands !! best = Some p /\
                  ellip s' = c_ellip p /\ pa s' = c_pa p /\
                  count_nochange s' = 0%nat) /\
       (best = 0%nat ->
        ellip s' = ellip s /\ pa s' = pa s /\
        count_nochange s' = (count_nochange s + 1)%nat) /\
       (Forall (fun l => isnan l = false) losses ->
        (forall k, (k < 6)%nat ->
           flt (nth k losses NaN) (nth best losses NaN) = false) /\
        (forall k, (k < best)%nat ->
           flt (nth best losses NaN) (nth k losses NaN) = true) /\
        ((0 < best)%nat ->
         flt (nth best losses NaN) (nth 0 losses NaN) = true) /\
        ((forall k, (k < 6)%nat ->
            flt (nth k losses NaN) (nth 0 losses NaN) = false) ->
         best = 0%nat)) /\
       (forall k,
          nth k losses (Fin 0) = NaN ->
          (forall j, (j < k)%nat -> isnan (nth j losses (Fin 0)) = false) ->
          best = k)) /\
  (forall fuel s,
     ~ ((count s < 300)%nat /\ (count_nochange s < 3 * n_radii)%nat) ->
     fit_loop loss regularize_scale n_radii fuel s = Return s) /\
  (forall fuel s,
     (count s < 300)%nat -> (count_nochange s < 3 * n_radii)%nat ->
     fit_loop loss regularize_scale n_radii (S fuel) s
     = (s' ← iteration loss regularize_scale s;
        fit_loop loss regularize_scale n_radii fuel s')) /\
  (forall s s', iteration loss regularize_scale s = Return s' ->
     count s' = (count s + 1)%nat) /\
  (forall s,
     length (ellip s) = n_radii -> length (pa s) = n_radii ->
     Forall (fun i => (i < n_radii)%nat) (I s) -> (count s <= 300)%nat ->
     exists s',
       fit_loop loss regularize_scale n_radii (300 - count s) s = Return s' /\
       ((300 <= count s')%nat \/ (3 * n_radii <= count_nochange s')%nat) /\
       (count s <= count s' <= 300)%nat) /\
  (forall (v : variant) (dat : image) (sample_radii : list R) (C : center)
          (noise : R) (mask : option mask_array),
     (forall r e p interp,
        (3 <= length (_iso_extract dat r e p C None mask interp))%nat) ->
     forall E PA j r,
       length E = length sample_radii -> length PA = length sample_radii ->
       (j < length sample_radii)%nat ->
       exists l, loss_of v dat sample_radii E PA j C noise mask r = Return l).
Proof.
  intros Hloss. split; [|split; [|split; [|split; [|split]]]].
  - intros i s He Hp Hi.
    destruct (refine_radius_total loss regularize_scale n_radii i s Hloss
                He Hp Hi) as [s' Hs'].
    destruct (refine_radius_selects _ _ _ _ _ Hs')
      as (cands & g' & Hc & Hg & Hsel).
    exists s', cands, g'.
    assert (Hlen : length cands = 6%nat)
      by (eapply candidates_length; exact Hc).
    split; [exact Hs'|]. split; [exact Hc|]. split; [exact Hlen|].
    intros losses best.
    assert (Hl6 : length losses = 6%nat)
      by (unfold losses; rewrite length_map; exact Hlen).
    assert (Hne : losses <> []) by (intros E; rewrite E in Hl6; discriminate).
    destruct Hsel as (Hb & Hcount & HI & Hsel). fold losses best in Hb, Hsel.
    split; [lia|]. split; [exact Hcount|]. split; [exact HI|].
    split; [exact Hg|]. split; [|split; [|split]].
    + intros Hpos. destruct (Nat.ltb_spec 0 best); [|lia].
      destruct Hsel as [(p & Hp1 & Hp2 & Hp3) Hcn]. exists p. auto.
    + intros Hzero. destruct (Nat.ltb_spec 0 best); [lia|]. exact Hsel.
    + intros Hnan.
      destruct (argmin_first_minimum losses Hne Hnan) as (_ & Hleast & Hfirst).
      fold best in Hleast, Hfirst.
      split; [intros k Hk; apply Hleast; lia|]. split; [exact Hfirst|].
      split; [intros Hpos; apply Hfirst; exact Hpos|].
      intros Htie. destruct (Nat.eq_dec best 0%nat) as [|Hpos]; [assumption|].
      specialize (Hfirst 0%nat ltac:(lia)).
      rewrite Htie in Hfirst by lia. discriminate.
    + intros k Hk Hbefore. apply argmin_first_nan; assumption.
  - intros fuel s Hc.
    assert (E : continue_fit n_radii s = false).
    { destruct (continue_fit n_radii s) eqn:E; [|reflexivity].
      exfalso. apply Hc. apply continue_fit_spec. exact E. }
    destruct fuel; simpl; rewrite E; reflexivity.
  - intros fuel s H1 H2. simpl.
    rewrite (proj2 (continue_fit_spec n_radii s) (conj H1 H2)). reflexivity.
  - intros s s' H. eapply iteration_count; eauto.
  - intros s He Hp HI Hcount.
    destruct (fit_loop_returns loss regularize_scale n_radii (300 - count s) s)
      as (s' & Hs' & _); auto.
    { repeat split; assumption. }
    exists s'. split; [exact Hs'|].
    apply fit_loop_exit in Hs'. destruct Hs' as (H1 & H2 & H3).
    split; [|split; auto].
    destruct (Nat.lt_ge_cases (count s') 300) as [Hlt|]; [|left; assumption].
    destruct (Nat.lt_ge_cases (count_nochange s') (3 * n_radii)) as [Hlt'|];
      [|right; assumption].
    rewrite (proj2 (continue_fit_spec n_radii s') (conj Hlt Hlt')) in H1.
    discriminate.
  - intros v dat sample_radii C noise mask Hok E PA j r HE HP Hj.
    apply loss_of_returns; auto.
Qed.

(** A loss that falls as the ellipticity at its index rises. *)
Definition slope_loss : list R -> list R -> nat -> R -> outcome float64 :=
  fun E _ i _ => Return (Fin (1 - nth i E 0)).

(** A fit with two radii, in the pass with [count = 3]. *)
Definition two_radii : @fit_state Example.one_sigma :=
  @Build_fit_state Example.one_sigma [1 / 2; 1 / 2] [0; 0] 3 0 [0; 1]%nat tt.

(** C1, witness: the first of two radii under the loss that falls as the
    ellipticity rises, in a pass that moves the ellipticity: the five
    perturbations have the same loss, below the one of the unchanged
    candidate; the first of them is committed and [count_nochange] is
    reset.  The loop from this state ends within the cap. *)
Lemma fit_loop_selects_and_terminates_witness :
  (exists s',
     @refine_radius Example.bright Example.one_sigma slope_loss 1 0 two_radii
     = Return s' /\
     ellip s' = [1 / 2 + (0 + 0.03); 1 / 2] /\ pa s' = [0; 0] /\
     count_nochange s' = 0%nat) /\
  (exists s',
     @fit_loop Example.bright Example.one_sigma slope_loss 1 2 (300 - 3)
       two_radii = Return s' /\
     ((300 <= count s')%nat \/ (3 * 2 <= count_nochange s')%nat) /\
     (3 <= count s' <= 300)%nat).
Proof.
  assert (H : forall E PA j r,
             length E = 2%nat -> length PA = 2%nat -> (j < 2)%nat ->
             exists l, slope_loss E PA j r = Return l).
  { intros E PA j r _ _ _. eexists. reflexivity. }
  destruct (@fit_loop_selects_and_terminates Example.nan_on_non_finite
              Example.bright Example.one_sigma slope_loss 1 2 H)
    as (Hpick & _ & _ & _ & Hloop & _).
  split.
  - destruct (Hpick 0%nat two_radii eq_refl eq_refl ltac:(lia))
      as (s' & cands & g' & Hs' & Hc & Hlen & _ & _ & _ & _ & Hcommit & _).
    exists s'. split; [exact Hs'|].
    apply (@candidates_spec Example.bright Example.one_sigma) in Hc;
      [|simpl; lia|simpl; lia].
    destruct Hc as (l0 & new & Hl0 & -> & Hnew & Hall).
    injection Hl0 as <-.
    assert (Hsame : Forall (fun p => p = {| c_ellip := [1 / 2 + (0 + 0.03); 1 / 2];
                                           c_pa := [0; 0];
                                           c_loss := Fin (1 - (1 / 2 + (0 + 0.03))) |})
                           new).
    { eapply Forall_impl; [exact Hall|]. intros [pe pp pl] [g Hp].
      unfold spec_perturbed in Hp. simpl in Hp.
      destruct Hp as (-> & -> & Hl). injection Hl as <-. reflexivity. }
    destruct new as [|p1 [|p2 [|p3 [|p4 [|p5 [|p6 new]]]]]]; try discriminate.
    repeat match goal with
           | Hf : Forall _ (_ :: _) |- _ =>
               apply Forall_cons in Hf; destruct Hf as [-> Hf]
           end.
    cbv zeta in Hcommit.
    match type of Hcommit with
    | (0 < ?b)%nat -> _ =>
        assert (Hbest : b = 1%nat) by (unfold argmin; simpl; Rdec)
    end.
    rewrite Hbest in Hcommit.
    destruct (Hcommit ltac:(lia)) as (p & Hp & He & Hpa & Hcn).
    injection Hp as <-. auto.
  - destruct (Hloop two_radii eq_refl eq_refl) as (s' & Hs' & Hend & Hcount).
    + repeat constructor.
    + simpl. lia.
    + exists s'. split; [exact Hs'|]. split; [exact Hend|]. exact Hcount.
Defined.

(** ** C2: the candidate pool *)

(** C2.  In a run of either fitter on the image at [IMG], for a radius
    index [i] in the pass with the counter [count], the pool holds
    exactly six candidates.  The first is the current arrays, unchanged.
    Each of the five others is a copy of both arrays changed at [i]
    only: when [count mod 3] is 0 or 1, [ellip[i]] becomes
    [_x_to_eps (_inv_x_to_eps ellip[i] + z)] for a draw [z] of
    [normal(0, 0.03)]; when [count mod 3] is 1 or 2, [pa[i]] becomes
    [x - pi * floor(x / pi)] for [x = pa[i] + z'] and a draw [z'] of
    [normal(0, 0.06)], a value between 0 and pi; so 0 touches the
    ellipticity only and 2 the position angle only.  Every loss is the
    loss of the variant on the background-subtracted image, the radii,
    the centre, the noise and the mask of the run, at the candidate's
    arrays, with the regularisation scale 0 while [count <= 4] and
    [options['ap_regularize_scale']], 1 when the key is absent, after
    that. *)
Theorem candidate_pool_construction
    {AF : ArrayFunctions} {SF : SharedFunctions} {NR : NumpyRandom}
    (v : variant) (IMG : nat) (results : results_t)
    (options : gmap string R) (h : store) (sample_radii : list R)
    (count i : nat) (ellip pa : list R) (g : rng) :
  (forall r e p interp,
     (3 <= length (_iso_extract (dat_of IMG results h) r e p
                     (results_center results) None (mask_of results)
                     interp))%nat) ->
  length ellip = length sample_radii -> length pa = length sample_radii ->
  (i < length sample_radii)%nat ->
  let loss := fun E PA j reg_scale =>
    match v with
    | Robust => _FFT_Robust_loss
    | Mean => _FFT_mean_loss
    end (dat_of IMG results h) sample_radii E PA j (results_center results)
        (background_noise results) (mask_of results) reg_scale in
  let reg_scale :=
    if decide (count <= 4)%nat then 0
    else match options !! "ap_regularize_scale"%string with
         | Some r => r
         | None => 1
         end in
  exists cands g',
    candidates (loss_in v IMG results h sample_radii)
      (regularize_scale_of options) count i ellip pa g = Return (cands, g') /\
    length cands = 6%nat /\
    (exists l0,
       loss ellip pa i reg_scale = Return l0 /\
       cands !! 0%nat = Some {| c_ellip := ellip; c_pa := pa; c_loss := l0 |}) /\
    (forall k p, (1 <= k)%nat -> cands !! k = Some p ->
       (exists g1 : rng,
          let g2 := if decide (count mod 3 = 0 \/ count mod 3 = 1)%nat
                    then snd (normal 0 0.03 g1) else g1 in
          let x := nth i pa 0 + fst (normal 0 0.06 g2) in
          c_ellip p
          = (if decide (count mod 3 = 0 \/ count mod 3 = 1)%nat
             then <[i := _x_to_eps (_inv_x_to_eps (nth i ellip 0)
                                    + fst (normal 0 0.03 g1))]> ellip
             else ellip) /\
          c_pa p
          = (if decide (count mod 3 = 1 \/ count mod 3 = 2)%nat
             then <[i := x - PI * IZR (Zfloor (x / PI))]> pa
             else pa) /\
          0 <= x - PI * IZR (Zfloor (x / PI)) <= PI) /\
       loss (c_ellip p) (c_pa p) i reg_scale = Return (c_loss p) /\
       length (c_ellip p) = length ellip /\ length (c_pa p) = length pa /\
       (forall j, j <> i ->
          c_ellip p !! j = ellip !! j /\ c_pa p !! j = pa !! j) /\
       ((count mod 3 = 0)%nat -> c_pa p = pa) /\
       ((count mod 3 = 2)%nat -> c_ellip p = ellip)).
Proof.
  intros Hok He Hp Hi loss reg_scale.
  assert (Hloss : loss_returns (loss_in v IMG results h sample_radii)
                    (length sample_radii)).
  { intros E PA j r HE HP Hj. unfold loss_in.
    apply loss_of_returns; auto. }
  assert (Hsame : forall E PA j r,
             loss_in v IMG results h sample_radii E PA j r = loss E PA j r).
  { intros. unfold loss_in, loss, loss_of. destruct v; reflexivity. }
  assert (Hreg : spec_reg_scale (regularize_scale_of options) count = reg_scale).
  { unfold spec_reg_scale, reg_scale, regularize_scale_of, option_or.
    destruct (decide _); [reflexivity|].
    destruct (options !! "ap_regularize_scale"%string); reflexivity. }
  destruct (candidates_total _ (regularize_scale_of options)
              (length sample_radii) count i ellip pa g Hloss He Hp Hi)
    as (cands & g' & Hc).
  exists cands, g'. split; [exact Hc|].
  split; [eapply candidates_length; exact Hc|].
  apply candidates_spec in Hc; try lia.
  destruct Hc as (l0 & new & Hl0 & -> & Hlen & Hall).
  rewrite Hsame, Hreg in Hl0.
  split; [exists l0; auto|].
  intros k p Hk Hlook. destruct k as [|k]; [lia|]. simpl in Hlook.
  rewrite Forall_forall in Hall.
  assert (Hin : p ∈ new) by (apply list_elem_of_lookup; eauto).
  destruct (Hall p Hin) as [g0 Hg0].
  pose proof (spec_perturbed_length count i ellip pa g0) as Hlens.
  pose proof (fun j => spec_perturbed_other count i ellip pa g0 j) as Hother.
  unfold spec_perturbed in Hg0, Hlens, Hother.
  assert (Hwrap : forall x, 0 <= x - PI * IZR (Zfloor (x / PI)) <= PI).
  { intros x. pose proof (pymod_range x PI PI_RGT_0) as H.
    unfold pymod in H. lra. }
  destruct (decide (count mod 3 = 0 \/ count mod 3 = 1)%nat) as [H01|H01];
    destruct (decide (count mod 3 = 1 \/ count mod 3 = 2)%nat) as [H12|H12];
    cbn [fst snd] in Hg0, Hlens, Hother;
    destruct Hg0 as (Hce & Hcp & Hcl); destruct Hlens as [Hl1 Hl2];
    rewrite Hsame, Hreg, <- Hce, <- Hcp in Hcl;
    (split; [exists g0; cbv zeta; split; [exact Hce|];
             split; [exact Hcp | apply Hwrap]|]);
    (split; [exact Hcl|]);
    rewrite Hce, Hcp;
    (split; [exact Hl1|]); (split; [exact Hl2|]);
    (split; [intros j Hj; apply (Hother j Hj)|]);
    split; intros; auto; lia.
Qed.

(** The store that holds the image of 200 rows at the address 0. *)
Definition store_one_image : store := {[ 0%nat := Example.tall_image ]}.

(** C2, witness: the first of two radii of a run with unit rings, in the
    pass with [count = 4], which moves both the ellipticity and the
    position angle and still has the regularisation scale 0; the draws
    are [0 + 0.03] and [0 + 0.06]. *)
Lemma candidate_pool_construction_witness :
  exists cands g',
    @candidates Example.bright Example.one_sigma
      (@loss_in Example.nan_on_non_finite Example.bright Robust 0
         Example.results_unit_noise store_one_image [3 / 2; 9 / 5])
      (regularize_scale_of (<["ap_regularize_scale"%string := 2]> ∅))
      4 0 [1 / 2; 1 / 2] [0; 0] tt = Return (cands, g') /\
    length cands = 6%nat /\
    forall k p, (1 <= k)%nat -> cands !! k = Some p ->
      c_ellip p = [1 / 2 + (0 + 0.03); 1 / 2] /\
      c_pa p = [0 + (0 + 0.06)
                - PI * IZR (Zfloor ((0 + (0 + 0.06)) / PI)); 0] /\
      @_FFT_Robust_loss Example.nan_on_non_finite Example.bright
        (dat_of 0 Example.results_unit_noise store_one_image) [3 / 2; 9 / 5]
        (c_ellip p) (c_pa p) 0 Example.origin 1 None 0
      = Return (c_loss p).
Proof.
  destruct (@candidate_pool_construction Example.nan_on_non_finite
              Example.bright Example.one_sigma Robust 0
              Example.results_unit_noise
              (<["ap_regularize_scale"%string := 2]> ∅) store_one_image
              [3 / 2; 9 / 5] 4 0 [1 / 2; 1 / 2] [0; 0] tt)
    as (cands & g' & Hc & Hlen & _ & Hpert).
  - intros r e p interp. simpl. lia.
  - reflexivity.
  - reflexivity.
  - simpl. lia.
  - exists cands, g'. split; [exact Hc|]. split; [exact Hlen|].
    intros k p Hk Hlook.
    destruct (Hpert k p Hk Hlook) as ((g1 & He & Hp & _) & Hl & _).
    repeat split; assumption.
Defined.

(** ** C3: the robust loss *)

Lemma fmin_Fin x y : fmin (Fin x) (Fin y) = Fin (Rmin x y).
Proof.
  unfold fmin. simpl. unfold Rltb, Rmin.
  destruct (Rlt_dec y x); destruct (Rle_dec x y); try reflexivity;
    try (f_equal; lra).
Qed.

Lemma max0_Fin x : max0 (Fin x) = Fin (Rmax 0 x).
Proof.
  unfold max0, fgt. simpl. unfold Rltb, Rmax.
  destruct (Rlt_dec 0 x); destruct (Rle_dec 0 x); try reflexivity;
    try (f_equal; lra).
Qed.

Lemma np_clip_max_finite rs m :
  np_clip_max (map Fin rs) (Fin m) = map Fin (map (fun x => Rmin x m) rs).
Proof.
  unfold np_clip_max. rewrite !map_map. apply map_ext. intros x.
  apply fmin_Fin.
Qed.

Lemma Rquantile_number rs q : rs <> [] -> exists x, Rquantile rs q = Fin x.
Proof.
  intros Hne. unfold Rquantile. rewrite sort_length.
  destruct rs; [congruence|]. simpl. eauto.
Qed.

Lemma Rmedian_number rs : rs <> [] -> exists x, Rmedian rs = Fin x.
Proof.
  intros Hne. unfold Rmedian. rewrite sort_length.
  destruct rs; [congruence|]. cbn [length Nat.eqb].
  destruct (Nat.even _); eauto.
Qed.

Section LossRaises.
Context {AF : ArrayFunctions} {SF : SharedFunctions}.

(** On a ring of one or two samples [coefs[2]] does not exist. *)
Lemma robust_loss_short_ring dat R_ E PA i C noise mask reg_scale :
  (i < length R_)%nat -> length E = length R_ -> length PA = length R_ ->
  (1 <= length (ring dat R_ E PA i C mask) <= 2)%nat ->
  _FFT_Robust_loss dat R_ E PA i C noise mask reg_scale = Raise IndexError.
Proof.
  intros Hi HE HP Hlen. unfold _FFT_Robust_loss.
  rewrite (index_nth R_ i 0), (index_nth E i 0), (index_nth PA i 0) by lia.
  cbn [mbind outcome_bind]. fold (ring dat R_ E PA i C mask).
  rewrite second_coef_abs_short
    by (unfold np_clip_max; rewrite length_map; exact Hlen).
  reflexivity.
Qed.


End LossRaises.

(** C3 (as amended).  At a radius index [i] of arrays of one length,
    with ellipticities below 1, let [reg bw] add for each neighbour [j]
    of [i] that exists [|E[i]-E[j]| / (1-E[j])] and the distance of the
    doubled angles over [bw].  On a ring of at least three samples the
    robust loss returns
    [|fft(clip(samples, quantile q))[2]| / (sample_count * (max(0,
    median(samples)) + noise)) * (1 + reg 0.4 * reg_scale)], with
    [q = 0.85], or [0.9] under a mask; on a ring of finite samples this
    is the number, or the quotient by zero, that the order statistics,
    the transform and the median of the reals give; the mean-normalised
    loss has the bandwidth 0.6.  On a ring of one or two samples the
    robust loss raises IndexError.  With a noise and a regularisation
    scale that are not negative the value that the robust loss returns
    is NaN or is not negative. *)
Theorem robust_loss_formula
    {AF : ArrayFunctions} {SF : SharedFunctions} (dat : image)
    (R_ E PA : list R) (i : nat) (C : center) (noise : R)
    (mask : option mask_array) (reg_scale : R) :
  (i < length R_)%nat -> length E = length R_ -> length PA = length R_ ->
  Forall (fun e => e < 1) E ->
  let isovals :=
    _iso_extract dat (nth i R_ 0) (nth i E 0) (nth i PA 0) C None mask
      (Some (match mask with None => false | Some _ => true end)) in
  let q := match mask with None => 0.85 | Some _ => 0.9 end in
  let neighbour (bw : R) (j : nat) :=
    Rabs (nth i E 0 - nth j E 0) / (1 - nth j E 0)
    + Rabs (Angle_TwoAngles (2 * nth i PA 0) (2 * nth j PA 0)) / bw in
  let reg (bw : R) :=
    (if decide (i + 1 < length R_)%nat then neighbour bw (i + 1)%nat else 0)
    + (if decide (1 <= i)%nat then neighbour bw (i - 1)%nat else 0) in
  let l :=
    fmul (fdiv (np_abs_fft (np_clip_max isovals (np_quantile isovals q)) 2)
               (fmul (Fin (INR (length isovals)))
                     (fadd (max0 (np_median isovals)) (Fin noise))))
         (fadd (Fin 1) (fmul (Fin (reg 0.4)) (Fin reg_scale))) in
  ((3 <= length isovals)%nat ->
   _FFT_Robust_loss dat R_ E PA i C noise mask reg_scale = Return l /\
   (0 <= noise -> 0 <= reg_scale ->
    l = NaN \/ l = PInf \/ exists x, l = Fin x /\ 0 <= x)) /\
  ((1 <= length isovals <= 2)%nat ->
   _FFT_Robust_loss dat R_ E PA i C noise mask reg_scale
   = Raise IndexError) /\
  (forall rs, isovals = map Fin rs -> (3 <= length rs)%nat ->
     exists qv m,
       Rquantile rs q = Fin qv /\ Rmedian rs = Fin m /\
       l = fmul (fdiv (Fin (cabs (dft (map (fun x => Rmin x qv) rs) 2)))
                      (Fin (INR (length rs) * (Rmax 0 m + noise))))
                (Fin (1 + reg 0.4 * reg_scale))) /\
  ((3 <= length isovals)%nat -> all_finite isovals = true ->
   _FFT_mean_loss dat R_ E PA i C noise mask reg_scale
   = Return (fmul (fdiv (np_abs_fft isovals 2)
                        (fmul (Fin (INR (length isovals)))
                              (fadd (max0 (np_mean isovals)) (Fin noise))))
                  (fadd (Fin 1) (fmul (Fin (reg 0.6)) (Fin reg_scale))))).
Proof.
  intros Hi HE HP Hlt isovals q neighbour reg l.
  assert (Hreg : forall bw, reg bw = spec_reg_loss bw (length R_) E PA i)
    by reflexivity.
  assert (Hl : l = spec_robust_loss (ring dat R_ E PA i C mask) noise
                     (match mask with None => false | Some _ => true end)
                     (spec_reg_loss 0.4 (length R_) E PA i) reg_scale).
  { unfold l, spec_robust_loss, q. fold isovals. destruct mask; reflexivity. }
  split; [|split; [|split]].
  - intros Hlen. split.
    + rewrite Hl. apply robust_loss_spec; auto.
    + intros Hnoise Hscale. rewrite Hl. apply spec_robust_loss_nonneg; auto.
      * unfold ring. fold isovals. lia.
      * apply spec_reg_loss_nonneg; [lra|].
        intros j. destruct (Nat.lt_ge_cases j (length E)) as [Hj|Hj].
        -- rewrite Forall_forall in Hlt. apply Hlt.
           apply list_elem_of_In, nth_In. exact Hj.
        -- rewrite nth_overflow by lia. lra.
  - intros Hlen. apply robust_loss_short_ring; auto.
  - intros rs Hrs Hlen.
    assert (Hne : rs <> []) by (intros ->; simpl in Hlen; lia).
    destruct (Rquantile_number rs q Hne) as [qv Hq].
    destruct (Rmedian_number rs Hne) as [m Hm].
    exists qv, m. split; [exact Hq|]. split; [exact Hm|].
    unfold l. rewrite Hrs.
    rewrite np_quantile_finite by (auto; unfold q; destruct mask; lra).
    rewrite Hq, np_clip_max_finite.
    rewrite np_abs_fft_finite by (rewrite length_map; lia).
    rewrite np_median_finite, Hm, max0_Fin, length_map. reflexivity.
  - intros Hlen Hfin. rewrite !Hreg.
    apply mean_loss_finite; auto.
Qed.

(** C3, witness: the first of two radii on the image whose rings are all
    [1, 0, 0], with a unit noise and a unit regularisation scale: the
    loss is a number that is not negative. *)
Lemma robust_loss_formula_witness :
  exists l,
    @_FFT_Robust_loss Example.nan_on_non_finite Example.spike [] [1; 2]
      [1 / 2; 0] [0; 0] 0 Example.origin 1 None 1 = Return l /\
    (l = NaN \/ l = PInf \/ exists x, l = Fin x /\ 0 <= x) /\
    exists qv m,
      Rquantile [1; 0; 0] 0.85 = Fin qv /\ Rmedian [1; 0; 0] = Fin m /\
      l = fmul (fdiv (Fin (cabs (dft (map (fun x => Rmin x qv) [1; 0; 0]) 2)))
                     (Fin (INR 3 * (Rmax 0 m + 1))))
               (Fin (1 + (Rabs (1 / 2 - 0) / (1 - 0)
                          + Rabs 0 / 0.4 + 0) * 1)).
Proof.
  destruct (@robust_loss_formula Example.nan_on_non_finite Example.spike
              [] [1; 2] [1 / 2; 0] [0; 0] 0 Example.origin 1 None 1)
    as (Hl & _ & Hfin & _); try reflexivity.
  - simpl. lia.
  - repeat constructor; lra.
  - destruct Hl as [Hl Hn]; [simpl; lia|].
    eexists. split; [exact Hl|]. split; [apply Hn; lra|].
    destruct (Hfin [1; 0; 0] eq_refl ltac:(simpl; lia))
      as (qv & m & Hq & Hm & Hval).
    exists qv, m. split; [exact Hq|]. split; [exact Hm|]. exact Hval.
Defined.

Lemma sort_spike : sort [1; 0; 0] = [0; 0; 1].
Proof. unfold sort. simpl. Rdec. Qed.

Section SpikeRing.
Context {AF : ArrayFunctions}.

(** The spike ring after the clip at its 0.85 quantile. *)
Lemma clip_spike :
  np_clip_max [Fin 1; Fin 0; Fin 0] (np_quantile [Fin 1; Fin 0; Fin 0] 0.85)
  = [Fin (7 / 10); Fin 0; Fin 0].
Proof.
  change [Fin 1; Fin 0; Fin 0] with (map Fin [1; 0; 0]).
  rewrite np_quantile_finite by (try discriminate; lra).
  unfold Rquantile. rewrite sort_spike. cbn [length Nat.eqb].
  rewrite quantile_position3 by auto. cbn [nth Nat.min Nat.add Nat.sub INR].
  replace (0 + ((1 + 1) * 0.85 - 1) * (1 - 0)) with (7 / 10) by lra.
  unfold np_clip_max. simpl. Rdec.
Qed.

Lemma abs_fft_spike :
  exists c, np_abs_fft [Fin (7 / 10); Fin 0; Fin 0] 2 = Fin c /\ 0 < c.
Proof.
  change [Fin (7 / 10); Fin 0; Fin 0] with (map Fin [7 / 10; 0; 0]).
  rewrite np_abs_fft_finite by (simpl; lia).
  eexists. split; [reflexivity|].
  unfold cabs, dft. cbn [dft_sum length fst snd INR].
  replace (2 * PI * 0 * (1 + 1) / (1 + 1 + 1)) with 0 by lra.
  rewrite cos_0, sin_0. apply sqrt_lt_R0. nra.
Qed.

End SpikeRing.

(** C3, counterexample: with the regularisation scale -4 the robust loss
    of the first of two radii is a negative number; and on a blank ring
    under a zero noise it is NaN.  Both rings are finite, where the
    array functions are fixed by their laws. *)
Lemma robust_loss_negative_or_nan :
  (exists x,
     @_FFT_Robust_loss Example.nan_on_non_finite Example.spike [] [1; 2]
       [1 / 2; 0] [0; 0] 0 Example.origin 1 None (-4) = Return (Fin x) /\
     x < 0) /\
  @_FFT_Robust_loss Example.nan_on_non_finite Example.blank [] [1] [1 / 2]
    [0] 0 Example.origin 0 None 1 = Return NaN.
Proof.
  split.
  - rewrite (@robust_loss_spec Example.nan_on_non_finite Example.spike []
               [1; 2] [1 / 2; 0] [0; 0] 0
               Example.origin 1 None (-4) ltac:(simpl; lia) eq_refl eq_refl
               ltac:(repeat constructor; lra) ltac:(simpl; lia)).
    unfold ring. cbn [Example.spike Example.ring_sampler _iso_extract].
    unfold spec_robust_loss. rewrite clip_spike.
    destruct (@abs_fft_spike Example.nan_on_non_finite) as (c & -> & Hc).
    assert (Hmed : np_median [Fin 1; Fin 0; Fin 0] = Fin 0).
    { change [Fin 1; Fin 0; Fin 0] with (map Fin [1; 0; 0]).
      rewrite np_median_finite.
      unfold Rmedian. rewrite sort_spike. reflexivity. }
    rewrite Hmed, max0_zero. cbn [length fadd fmul].
    rewrite fdiv_Fin by (simpl; lra). cbn [fmul].
    eexists. split; [reflexivity|].
    assert (Hreg : @spec_reg_loss Example.spike 0.4 2 [1 / 2; 0] [0; 0] 0 = 1 / 2).
    { unfold spec_reg_loss, spec_reg_neighbour. simpl.
      rewrite Rabs_R0. rewrite Rabs_pos_eq by lra. lra. }
    cbn [length]. rewrite Hreg. simpl INR.
    assert (0 < c / ((1 + 1 + 1) * (0 + 1))).
    { apply Rdiv_lt_0_compat; lra. }
    nra.
  - rewrite (@robust_loss_spec Example.nan_on_non_finite Example.blank []
               [1] [1 / 2] [0] 0
               Example.origin 0 None 1 ltac:(simpl; lia) eq_refl eq_refl
               ltac:(repeat constructor; lra) ltac:(simpl; lia)).
    unfold ring. cbn [Example.blank Example.ring_sampler _iso_extract].
    f_equal. apply spec_robust_loss_blank.
Qed.

(** ** C8: non-finite samples in the mean-normalised loss *)





(** ** C4: the sampling radii *)

Section RadiiClaim.
Context {SF : SharedFunctions}.
Variables (v : variant) (dat : image) (half_size : R) (res : results_t)
          (mask : option mask_array) (scale fit_limit : R).

Abbreviation grow := (grow_radii v dat half_size res mask scale fit_limit).
Abbreviation attempts := (radii_attempts v dat half_size res mask scale fit_limit).

Lemma grow_radii_no_raise fuel shrink rs0 e :
  rs0 <> [] -> grow fuel shrink rs0 <> Raise e.
Proof.
  revert rs0. induction fuel as [|fuel IH]; intros rs0 Hne; simpl;
    [discriminate|].
  rewrite (last_item_nth rs0 Hne). cbn [mbind outcome_bind].
  destruct (Rltb _ _); [|discriminate].
  destruct (flt _ _); [discriminate|].
  apply IH. destruct rs0; discriminate.
Qed.

Lemma radii_attempts_exception fuel n shrink e :
  attempts fuel n shrink = Raise e ->
  e = Exception
        "Unable to initialize ellipse fit, check diagnostic plots. Possible missed center.".
Proof.
  revert shrink. induction n as [|n IH]; intros shrink H; simpl in H.
  - injection H as <-. reflexivity.
  - destruct (grow fuel shrink [3 * psf_fwhm res / 2]) eqn:E;
      cbn [mbind outcome_bind] in H; try discriminate.
    + destruct (length a <? 15)%nat; [eauto | discriminate].
    + exfalso. eapply grow_radii_no_raise; [|exact E]. discriminate.
Qed.

(** One number of steps that is enough for each of the five attempts. *)
Lemma five_attempts_terminate :
  0 < psf_fwhm res -> 0 < scale ->
  exists fuel0, forall fuel, (fuel0 <= fuel)%nat ->
    forall shrink, (shrink < 5)%nat ->
      exists rs, grow fuel shrink [3 * psf_fwhm res / 2] = Return rs.
Proof.
  intros Hpsf Hscale.
  destruct (grow_radii_terminates v dat half_size res mask scale fit_limit 0 Hpsf Hscale) as [f0 H0].
  destruct (grow_radii_terminates v dat half_size res mask scale fit_limit 1 Hpsf Hscale) as [f1 H1].
  destruct (grow_radii_terminates v dat half_size res mask scale fit_limit 2 Hpsf Hscale) as [f2 H2].
  destruct (grow_radii_terminates v dat half_size res mask scale fit_limit 3 Hpsf Hscale) as [f3 H3].
  destruct (grow_radii_terminates v dat half_size res mask scale fit_limit 4 Hpsf Hscale) as [f4 H4].
  exists (f0 + f1 + f2 + f3 + f4)%nat. intros fuel Hf shrink Hs.
  destruct shrink as [|[|[|[|[|k]]]]]; try lia;
    [apply H0 | apply H1 | apply H2 | apply H3 | apply H4]; lia.
Qed.

(** What an attempt that returns has produced. *)
Lemma grow_radii_result fuel shrink rs :
  0 < psf_fwhm res -> 0 < scale ->
  grow fuel shrink [3 * psf_fwhm res / 2] = Return rs ->
  nth 0 rs 0 = 1.5 * psf_fwhm res /\
  geometric (growth scale shrink) rs /\
  increasing rs /\
  stops_at v dat half_size res mask fit_limit (nth (length rs - 1) rs 0) /\
  (forall k, (S k < length rs)%nat ->
     ~ stops_at v dat half_size res mask fit_limit (nth k rs 0)).
Proof.
  intros Hpsf Hscale H.
  apply grow_radii_grown in H; [|discriminate].
  destruct H as ((new & ->) & Hg & Hstop & Hbefore).
  assert (H0 : nth 0 ([3 * psf_fwhm res / 2] ++ new) 0 = 1.5 * psf_fwhm res)
    by (simpl; lra).
  assert (Hgeo : geometric (growth scale shrink) ([3 * psf_fwhm res / 2] ++ new)).
  { apply Hg. intros k Hk. simpl in Hk. lia. }
  repeat split; auto.
  - eapply geometric_increasing; [exact Hgeo | lra | apply growth_gt_1; auto].
  - intros k Hk. apply Hbefore; [simpl; lia | exact Hk].
Qed.

End RadiiClaim.

Lemma float_epsilon_pos : 0 < float_epsilon.
Proof. unfold float_epsilon. apply Rinv_0_lt_compat, pow_lt. lra. Qed.

Lemma float_min_normal_pos : 0 < float_min_normal.
Proof. unfold float_min_normal. apply Rinv_0_lt_compat, pow_lt. lra. Qed.

Lemma inv_pow2_le_1 (n : nat) : / 2 ^ n <= 1.
Proof.
  rewrite <- Rinv_1. apply Rinv_le_contravar; [lra|].
  apply pow_R1_Rle. lra.
Qed.

Lemma float_epsilon_small : float_epsilon <= / 32.
Proof.
  unfold float_epsilon.
  replace (2 ^ 52) with (32 * 2 ^ 47) by (simpl; lra).
  rewrite Rinv_mult. pose proof (inv_pow2_le_1 47).
  assert (0 < / 2 ^ 47) by (apply Rinv_0_lt_compat, pow_lt; lra).
  lra.
Qed.

(** C4 (as amended).  When the seed radius [1.5 * psf_fwhm] is at least
    the least normal float, [2^-1022], and [scale] is at least
    [5 * 2^-52], so that each growth factor is at least the next float
    after 1: every relaxation attempt [shrink = 0..4] comes to an end;
    its radii start at [1.5 * psf_fwhm]; each next one is the one before
    times [1 + scale / (1 + shrink)], above it by the factor
    [1 + 2^-53] at least, which is more than rounding takes back; all
    but the last are below half the largest
    image dimension with a ring whose median (mean, in the mean
    variant) is not below [fit_limit * background_noise]; and the last
    is the first at which the ring is that faint or the radius has
    reached half the largest image dimension.  The initialisation as a
    whole ends: it raises, with the message of the source, if and only
    if each of the five attempts leaves fewer than 15 radii, and
    otherwise returns the radii, at least 15, of the first attempt that
    leaves that many.  The fit limit is [options['ap_fit_limit']], and 2
    in the robust variant and 1 in the mean variant when the key is
    absent. *)
Theorem sample_radii_generation
    {SF : SharedFunctions} (v : variant) (dat : image) (half_size : R)
    (res : results_t) (mask : option mask_array) (scale fit_limit : R) :
  float_min_normal <= 3 * psf_fwhm res / 2 ->
  5 * float_epsilon <= scale ->
  let faint (r : R) :=
    flt (match v with Robust => np_median | Mean => np_mean end
           (_iso_extract dat r (init_ellip res) (init_pa res)
              (results_center res) (Some false) mask None))
        (Fin (fit_limit * background_noise res)) = true in
  let stops (r : R) := ~ r < half_size \/ faint r in
  let attempt (fuel shrink : nat) :=
    grow_radii v dat half_size res mask scale fit_limit fuel shrink
      [3 * psf_fwhm res / 2] in
  let short (fuel shrink : nat) :=
    exists rs, attempt fuel shrink = Return rs /\ (length rs < 15)%nat in
  let init (fuel : nat) :=
    sample_radii_init v dat half_size res mask scale fit_limit fuel in
  exists fuel0, forall fuel, (fuel0 <= fuel)%nat ->
    (forall shrink, (shrink < 5)%nat ->
       exists rs,
         attempt fuel shrink = Return rs /\
         nth 0 rs 0 = 1.5 * psf_fwhm res /\
         (forall k, (S k < length rs)%nat ->
            nth (S k) rs 0 = nth k rs 0 * (1 + scale / (1 + INR shrink)) /\
            float_min_normal <= nth k rs 0 /\
            (1 + float_epsilon / 2) * nth k rs 0 <= nth (S k) rs 0 /\
            nth k rs 0 < nth (S k) rs 0 /\
            ~ stops (nth k rs 0)) /\
         stops (nth (length rs - 1) rs 0)) /\
    ((exists e, init fuel = Raise e) \/ (exists rs, init fuel = Return rs)) /\
    ((exists e, init fuel = Raise e)
     <-> forall shrink, (shrink < 5)%nat -> short fuel shrink) /\
    (forall e, init fuel = Raise e ->
       e = Exception
             "Unable to initialize ellipse fit, check diagnostic plots. Possible missed center.") /\
    (forall rs, init fuel = Return rs ->
       (15 <= length rs)%nat /\
       exists shrink, (shrink < 5)%nat /\
         attempt fuel shrink = Return rs /\
         forall k, (k < shrink)%nat -> short fuel k) /\
    (forall options : gmap string R,
       fit_limit_of v options
       = match options !! "ap_fit_limit"%string with
         | Some x => x
         | None => match v with Robust => 2 | Mean => 1 end
         end).
Proof.
  intros Hseed Hscale5 faint stops attempt short init.
  pose proof float_min_normal_pos as Hmin.
  pose proof float_epsilon_pos as Heps.
  assert (Hpsf : 0 < psf_fwhm res) by lra.
  assert (Hscale : 0 < scale) by lra.
  destruct (five_attempts_terminate v dat half_size res mask scale fit_limit
              Hpsf Hscale) as [fuel0 Hfuel].
  exists fuel0. intros fuel Hf. specialize (Hfuel fuel Hf).
  assert (Hshort : forall a n,
             all_short v dat half_size res mask scale fit_limit fuel a n
             <-> forall k, (a <= k < a + n)%nat -> short fuel k)
    by (intros; reflexivity).
  split; [|split; [|split; [|split; [|split]]]].
  - intros shrink Hs. destruct (Hfuel shrink Hs) as [rs Hrs].
    exists rs. split; [exact Hrs|].
    destruct (grow_radii_result v dat half_size res mask scale fit_limit
                fuel shrink rs Hpsf Hscale Hrs)
      as (H0 & Hgeo & Hinc & Hstop & Hbefore).
    split; [exact H0|]. split; [|exact Hstop].
    intros k Hk.
    assert (Hq : 1 + float_epsilon <= growth scale shrink).
    { unfold growth.
      assert (H5 : 1 + INR shrink <= 5).
      { assert (Hs4 : (shrink <= 4)%nat) by lia.
        apply le_INR in Hs4. simpl in Hs4. lra. }
      assert (Hpos : 0 < 1 + INR shrink)
        by (pose proof (pos_INR shrink); lra).
      assert (float_epsilon <= scale / (1 + INR shrink)).
      { apply Rmult_le_reg_r with (1 + INR shrink); [exact Hpos|].
        unfold Rdiv. rewrite Rmult_assoc, Rinv_l by lra. nra. }
      lra. }
    assert (Hk0 : nth 0 rs 0 <= nth k rs 0).
    { rewrite (geometric_nth _ _ k Hgeo) by lia.
      assert (1 <= growth scale shrink ^ k) by (apply pow_R1_Rle; lra).
      nra. }
    pose proof (Hgeo k Hk) as Hnext. fold (growth scale shrink).
    split; [exact Hnext|]. split; [lra|]. split; [nra|].
    split; [apply Hinc; exact Hk | apply Hbefore; exact Hk].
  - destruct (init fuel) as [rs|e|] eqn:E; [right | left |]; eauto.
    exfalso. revert E.
    apply radii_attempts_finishes. intros k Hk. apply Hfuel. lia.
  - unfold init, sample_radii_init.
    rewrite radii_attempts_raise by (intros k Hk; apply Hfuel; lia).
    rewrite Hshort. split; intros H k Hk; apply H; lia.
  - intros e He. eapply radii_attempts_exception. exact He.
  - intros rs Hrs. unfold init, sample_radii_init in Hrs.
    apply radii_attempts_return in Hrs.
    destruct Hrs as (k & Hk & Hg & Hlen & Hall).
    split; [exact Hlen|].
    exists k. split; [lia|]. split; [exact Hg|].
    rewrite Nat.sub_0_r in Hall. intros j Hj. apply Hall. lia.
  - intros options. unfold fit_limit_of, option_or, default_fit_limit.
    destruct (options !! "ap_fit_limit"%string); reflexivity.
Qed.

(** C4, witness: the image whose rings are all [1, 1, 1] under a zero
    noise, with the default scale 0.2 and the default fit limit 2: no
    ring is faint, and the first attempt grows the radii by the factor
    1.2 from 1.5 up to half the image size, 100, which takes at least
    15 of them. *)
Lemma sample_radii_generation_witness :
  exists fuel0, forall fuel, (fuel0 <= fuel)%nat ->
    exists rs,
      @sample_radii_init Example.bright Robust [] 100
        Example.results_noiseless None 0.2 2 fuel = Return rs /\
      (15 <= length rs)%nat /\
      nth 0 rs 0 = 1.5 * 1 /\
      forall k, (S k < length rs)%nat ->
        nth (S k) rs 0 = nth k rs 0 * (1 + 0.2 / (1 + INR 0)) /\
        nth k rs 0 < nth (S k) rs 0.
Proof.
  pose proof float_epsilon_small as Heps.
  pose proof (inv_pow2_le_1 1022) as Hmin.
  destruct (@sample_radii_generation Example.bright Robust [] 100
              Example.results_noiseless None 0.2 2) as [fuel0 H].
  - unfold float_min_normal. simpl psf_fwhm. lra.
  - lra.
  - exists fuel0. intros fuel Hf.
    destruct (H fuel Hf) as (Hattempt & _).
    destruct (Hattempt 0%nat ltac:(lia)) as (rs & Hrs & H0 & Hstep & Hstop).
    simpl psf_fwhm in *.
    assert (Hgeo : geometric 1.2 rs).
    { intros k Hk. destruct (Hstep k Hk) as (-> & _). simpl. lra. }
    assert (Hne : (0 < length rs)%nat).
    { destruct rs; [|simpl; lia]. simpl in H0. lra. }
    assert (Hlong : (15 <= length rs)%nat).
    { destruct (Nat.le_gt_cases 15 (length rs)) as [|Hshort]; [assumption|].
      exfalso.
      rewrite (geometric_nth _ _ _ Hgeo) in Hstop by lia.
      rewrite H0 in Hstop.
      assert (Hpow : 1.2 ^ (length rs - 1) <= 1.2 ^ 13).
      { apply Rle_pow; [lra | lia]. }
      assert (H13 : 1.2 ^ 13 < 60) by (simpl; lra).
      destruct Hstop as [Hstop|Hfaint].
      - apply Hstop. nra.
      - cbn [Example.bright Example.ring_sampler _iso_extract] in Hfaint.
        rewrite np_median_constant3 in Hfaint. simpl in Hfaint.
        revert Hfaint. Rdec. }
    exists rs. split; [|split; [exact Hlong|split; [exact H0|]]].
    + unfold sample_radii_init. simpl radii_attempts.
      simpl psf_fwhm. rewrite Hrs. cbn [mbind outcome_bind].
      destruct (Nat.ltb_spec (length rs) 15); [lia | reflexivity].
    + intros k Hk. destruct (Hstep k Hk) as (Hn & _ & _ & Hlt & _).
      split; assumption.
Defined.

Lemma grow_radii_stuck fuel rs r :
  last_item rs = Return r -> r < 100 ->
  @grow_radii Example.bright Robust [] 100 Example.results_noiseless None 0 2
    fuel 0 rs = OutOfFuel.
Proof.
  revert rs r. induction fuel as [|fuel IH]; intros rs r Hlast Hr; simpl;
    [reflexivity|].
  rewrite Hlast. cbn [mbind outcome_bind].
  unfold Rltb. destruct (Rlt_dec r 100); [|lra].
  rewrite np_median_constant3.
  assert (Hf : flt (Fin 1) (Fin (2 * 0)) = false) by (simpl; Rdec).
  rewrite Hf. apply (IH _ (r * (1 + 0 / (1 + 0)))).
  - apply last_item_app.
  - replace (r * (1 + 0 / (1 + 0))) with r by (field; lra). exact Hr.
Qed.

(** C4, counterexample: with [ap_scale = 0] on an image whose rings never
    get faint the radius stays at its seed, below half the image size, and
    the inner loop has not finished after any number of steps: the
    initialisation does not come to an end. *)
Lemma sample_radii_scale_zero_diverges :
  ~ exists fuel,
      @sample_radii_init Example.bright Robust [] 100 Example.results_noiseless
        None 0 2 fuel <> OutOfFuel.
Proof.
  intros [fuel H]. apply H. unfold sample_radii_init. simpl.
  rewrite (grow_radii_stuck fuel [3 * 1 / 2] (3 * 1 / 2)); [reflexivity | | lra].
  reflexivity.
Qed.

(** ** C5: the collapsed centre and the clamp *)

(** X21.  After the fitting loop, on arrays of at least six radii, the
    scan over [i = 0..4] tests at each [i] whether the transformed
    ellipticity drops by more than 0.5 from [i] to [i + 1], and if so
    sets [ellip[0..i]] and [pa[0..i]] to [ellip[i+1]] and [pa[i+1]].
    The scan returns arrays of the same lengths; where the ellipticity
    given to it drops at an [i < 5], the entries [0..i] of what it
    leaves equal the entry [i + 1]; the entries from 5 on are untouched;
    and without a drop nothing changes.  Then the first three
    ellipticities of the raw profile are set to their minimum, and the
    other entries and the position angles are kept. *)
Theorem collapsed_center_scan
    {SF : SharedFunctions} {SK : Sklearn}
    (sample_radii ellip pa : list R) :
  (6 <= length ellip)%nat -> (6 <= length pa)%nat ->
  (forall i e p, (i + 1 < length e)%nat -> (i + 1 < length p)%nat ->
     collapse_step i (e, p)
     = Return (if Rlt_dec 0.5 (_inv_x_to_eps (nth i e 0)
                               - _inv_x_to_eps (nth (i + 1) e 0))
               then (fill_prefix (i + 1) (nth (i + 1) e 0) e,
                     fill_prefix (i + 1) (nth (i + 1) p 0) p)
               else (e, p))) /\
  exists ellip1 pa1 sm m,
    detect_collapsed_center ellip pa = Return (ellip1, pa1) /\
    length ellip1 = length ellip /\ length pa1 = length pa /\
    (forall i k, (i < 5)%nat ->
       0.5 < _inv_x_to_eps (nth i ellip 0)
             - _inv_x_to_eps (nth (i + 1) ellip 0) ->
       (k <= i)%nat ->
       nth k ellip1 0 = nth (i + 1) ellip1 0 /\
       nth k pa1 0 = nth (i + 1) pa1 0) /\
    (forall k, (5 <= k)%nat ->
       nth k ellip1 0 = nth k ellip 0 /\ nth k pa1 0 = nth k pa 0) /\
    ((forall i, (i < 5)%nat ->
        ~ 0.5 < _inv_x_to_eps (nth i ellip 0)
                - _inv_x_to_eps (nth (i + 1) ellip 0)) ->
     ellip1 = ellip /\ pa1 = pa) /\
    smooth_profile sample_radii ellip1 pa1 = Return sm /\
    py_min (take 3 ellip1) = Return m /\
    Forall (fun x => m <= x) (take 3 ellip1) /\ In m (take 3 ellip1) /\
    (forall k, (k < 3)%nat -> nth k (raw_ellip sm) 0 = m) /\
    (forall k, (3 <= k)%nat -> nth k (raw_ellip sm) 0 = nth k ellip1 0) /\
    raw_pa sm = pa1.
Proof.
  intros He Hp. split.
  { intros i e p Hie Hip. apply collapse_step_spec; auto. }
  destruct (detect_collapsed_center_spec ellip pa He Hp)
    as ([ellip1 pa1] & Hc & Hle & Hlp & Hsame & Hflat & Hnone).
  cbn [fst snd] in *.
  assert (Hmin : exists m, py_min (take 3 ellip1) = Return m).
  { destruct ellip1 as [|x l]; [simpl in Hle; lia|]. simpl. eauto. }
  destruct Hmin as [m Hm].
  assert (Hsm : exists sm, smooth_profile sample_radii ellip1 pa1 = Return sm).
  { unfold smooth_profile, clamp_first3. rewrite Hm.
    cbn [mbind outcome_bind mret outcome_ret]. eauto. }
  destruct Hsm as [sm Hsm].
  exists ellip1, pa1, sm, m.
  pose proof (smooth_profile_spec _ _ _ _ Hsm)
    as (m' & Hm' & Hre & Hrp & _ & _ & Hse & Hsp).
  rewrite Hm in Hm'. injection Hm' as <-.
  destruct (py_min_le _ _ Hm) as [Hall Hin].
  split; [exact Hc|]. split; [exact Hle|]. split; [exact Hlp|].
  split; [intros i k Hi Hd Hk; apply (Hflat i k); auto|].
  split; [exact Hsame|].
  split; [intros Hno; specialize (Hnone Hno); injection Hnone; auto|].
  split; [exact Hsm|]. split; [exact Hm|]. split; [exact Hall|].
  split; [exact Hin|].
  split; [|split; [|auto]].
  - intros k Hk. rewrite Hre, fill_prefix_nth by lia.
    destruct (Nat.ltb_spec k 3); [reflexivity | lia].
  - intros k Hk. rewrite Hre, fill_prefix_nth by lia.
    destruct (Nat.ltb_spec k 3); [lia | reflexivity].
Qed.

(** X21, witness: six radii whose ellipticity drops from 0.9 to 0.2 at
    the centre, under transforms that are the identity: the first entry
    of both arrays is set to the second. *)
Lemma collapsed_center_scan_witness :
  exists e1 p1,
    @detect_collapsed_center Example.bright
      [0.9; 0.2; 0.4; 0.4; 0.4; 0.4] [1; 2; 3; 4; 5; 6] = Return (e1, p1) /\
    nth 0 e1 0 = nth 1 e1 0 /\ nth 0 p1 0 = nth 1 p1 0 /\
    nth 5 e1 0 = 0.4 /\ nth 5 p1 0 = 6.
Proof.
  destruct (@collapsed_center_scan Example.bright Example.echo
              [1; 2; 3; 4; 5; 6] [0.9; 0.2; 0.4; 0.4; 0.4; 0.4]
              [1; 2; 3; 4; 5; 6] ltac:(simpl; lia) ltac:(simpl; lia))
    as (_ & e1 & p1 & sm & m & Hc & _ & _ & Hflat & Hsame & _).
  exists e1, p1. split; [exact Hc|].
  destruct (Hflat 0%nat 0%nat ltac:(lia) ltac:(simpl; lra) ltac:(lia))
    as [He Hp].
  destruct (Hsame 5%nat ltac:(lia)) as [He5 Hp5].
  repeat split; assumption.
Defined.

(** The trend that the plot of [ap_doplot] draws,
    [_ellip_smooth(sample_radii, ellip, deg = 5)], on the array [ellip]
    as it is at that point: after the clamp. *)
Definition show_ellip {SF : SharedFunctions} {SK : Sklearn}
    (sample_radii : list R) (sm : smoothed) : list R :=
  _ellip_smooth sample_radii (raw_ellip sm) 5.

(** C5.  With the ellipticities 0.3, 0.2, 0.4, ... the raw profile comes
    out with its first three entries at 0.2, while the array that the
    smoother is given is the copy taken before the clamp and still
    starts with 0.3, 0.2, 0.4: under a regression that predicts what it
    was given, the trend that the fitter keeps starts with 0.3 and the
    trend that the plot draws, from the clamped array, with 0.2. *)
Lemma smoothing_sees_unclamped_ellipticities :
  exists sm,
    @smooth_profile Example.bright Example.echo [1; 2; 3; 4; 5; 6]
      [0.3; 0.2; 0.4; 0.4; 0.4; 0.4] [0; 0; 0; 0; 0; 0] = Return sm /\
    raw_ellip sm = [0.2; 0.2; 0.2; 0.4; 0.4; 0.4] /\
    smooth_ellip_arg sm = [0.3; 0.2; 0.4; 0.4; 0.4; 0.4] /\
    smooth_ellip sm
    = @_ellip_smooth Example.bright Example.echo [1; 2; 3; 4; 5; 6]
        [0.3; 0.2; 0.4; 0.4; 0.4; 0.4] 5 /\
    smooth_ellip sm = [0.3; 0.2; 0.4; 0.4; 0.4; 0.4] /\
    @show_ellip Example.bright Example.echo [1; 2; 3; 4; 5; 6] sm
    = [0.2; 0.2; 0.2; 0.4; 0.4; 0.4] /\
    nth 0 (smooth_ellip sm) 0
    <> nth 0 (@show_ellip Example.bright Example.echo [1; 2; 3; 4; 5; 6] sm) 0.
Proof.
  unfold smooth_profile, clamp_first3.
  assert (Hm : py_min (take 3 [0.3; 0.2; 0.4; 0.4; 0.4; 0.4]) = Return 0.2).
  { simpl. f_equal. Rdec. }
  rewrite Hm. cbn [mbind outcome_bind mret outcome_ret].
  eexists. split; [reflexivity|].
  unfold show_ellip. cbn [raw_ellip smooth_ellip_arg smooth_ellip].
  repeat split. simpl. lra.
Qed.

(** ** C6: the error arrays *)

(** C6.  For a raw and a smoothed array of the same length [n >= 4], the
    error array has the length [n]; its entries 0 and 1 are the root mean
    square of [raw - smoothed] over the indices 0..3, its entry [n - 1] is
    the one over the last four indices, and its entry [i], for
    [2 <= i <= n - 2], is the one over the indices [i-2 .. i+1]; each root
    mean square is [sqrt (sum of the four squared deviations / 4)]. *)
Theorem error_windows (raw smooth : list float64) :
  (4 <= length raw)%nat -> length smooth = length raw ->
  (exists err,
     param_err (length raw) raw smooth = Return err /\
     length err = length raw /\
     err !! 0%nat = Some (spec_rms raw smooth 0) /\
     err !! 1%nat = Some (spec_rms raw smooth 0) /\
     err !! (length raw - 1)%nat
       = Some (spec_rms raw smooth (length raw - 4)) /\
     (forall i, (2 <= i <= length raw - 2)%nat ->
        err !! i = Some (spec_rms raw smooth (i - 2)))) /\
  (forall (a b : list R) lo,
     raw = map Fin a -> smooth = map Fin b -> (lo + 4 <= length a)%nat ->
     spec_rms raw smooth lo
     = Fin (sqrt (((nth lo a 0 - nth lo b 0) ^ 2
                   + (nth (lo + 1) a 0 - nth (lo + 1) b 0) ^ 2
                   + (nth (lo + 2) a 0 - nth (lo + 2) b 0) ^ 2
                   + (nth (lo + 3) a 0 - nth (lo + 3) b 0) ^ 2) / 4))).
Proof.
  intros Hn Hs. split; [apply param_err_spec; auto|].
  intros a b lo -> -> Hlo. rewrite !length_map in Hs.
  apply spec_rms_reals; lia.
Qed.

(** C6, witness: five radii where the raw profile is 1 above the trend at
    the third radius only. *)
Lemma error_windows_witness :
  (4 <= length (map Fin [0; 0; 1; 0; 0]%R))%nat /\
  exists err,
    param_err 5 (map Fin [0; 0; 1; 0; 0]) (map Fin [0; 0; 0; 0; 0])
      = Return err /\
    err !! 0%nat = Some (Fin (sqrt (((0 - 0) ^ 2 + (0 - 0) ^ 2
                                     + (1 - 0) ^ 2 + (0 - 0) ^ 2) / 4))).
Proof.
  split; [simpl; lia|].
  destruct (error_windows (map Fin [0; 0; 1; 0; 0]) (map Fin [0; 0; 0; 0; 0])
              ltac:(simpl; lia) eq_refl)
    as ((err & Herr & _ & H0 & _) & Hreal).
  exists err. split; [exact Herr|].
  rewrite H0. f_equal.
  apply (Hreal [0; 0; 1; 0; 0] [0; 0; 0; 0; 0] 0%nat eq_refl eq_refl).
  simpl. lia.
Defined.

(** ** C7: the position-angle smoother *)





(** ** C9 and C10: the image and the returned bundle *)

Lemma increasing_le rs j k :
  increasing rs -> (j <= k)%nat -> (k < length rs)%nat ->
  nth j rs 0 <= nth k rs 0.
Proof.
  intros Hinc Hjk Hk. induction k as [|k IH].
  - assert (j = 0)%nat as -> by lia. lra.
  - destruct (Nat.eq_dec j (S k)) as [->|Hne]; [lra|].
    specialize (IH ltac:(lia) ltac:(lia)).
    specialize (Hinc k Hk). lra.
Qed.

(** C9.  The fitter leaves the input image as it was: [dat] is a new
    array, at an address that was free, holding [IMG - background]; every
    array that was in the store, [IMG] among them, is unchanged after the
    call, whether the fitter returns or raises; and the first element of
    what it returns is the address of [IMG]. *)
Theorem input_image_untouched
    {AF : ArrayFunctions} {SF : SharedFunctions} {NR : NumpyRandom} {SK : Sklearn}
    {PF : PythonFormat}
    (v : variant) (fuel : nat) (IMG : nat) (results : results_t)
    (options : gmap string R) (h : store) (g : rng) :
  h !! IMG <> None ->
  let out := (isophote_fit v fuel IMG results options h g).1 in
  let h' := (isophote_fit v fuel IMG results options h g).2 in
  h' !! IMG = h !! IMG /\
  (forall a, h !! a <> None -> h' !! a = h !! a) /\
  (exists dat,
     h !! dat = None /\ dat <> IMG /\
     h' = <[dat := subtract_background (h !!! IMG) (background results)]> h) /\
  (forall l res, out = Return (l, res) -> l = IMG).
Proof.
  intros HIMG out h'. unfold out, h'.
  rewrite isophote_fit_unfold by exact HIMG. cbn [fst snd].
  assert (Hfresh : h !! fresh (dom h) = None).
  { apply not_elem_of_dom. apply is_fresh. }
  assert (Hother : forall a, h !! a <> None ->
             <[fresh (dom h) := dat_of IMG results h]> h !! a = h !! a).
  { intros a Ha. apply lookup_insert_ne. intros E. apply Ha.
    rewrite <- E. exact Hfresh. }
  split; [apply Hother; exact HIMG|]. split; [exact Hother|]. split.
  - exists (fresh (dom h)). split; [exact Hfresh|]. split; [|reflexivity].
    intros E. apply HIMG. rewrite <- E. exact Hfresh.
  - intros l res Hout. inv_bind Hout.
    apply fit_with_bundle in Hout. apply Hout.
Qed.


(** C9, witness: the robust fitter on the store with one image. *)
Lemma input_image_untouched_witness :
  store_one_image !! 0%nat <> None /\
  (@isophote_fit Example.nan_on_non_finite Example.bright
     Example.one_sigma Example.echo
     Example.two_digits Robust 0 0 Example.results_noiseless ∅
     store_one_image tt).2 !! 0%nat
  = store_one_image !! 0%nat.
Proof.
  assert (H : store_one_image !! 0%nat <> None).
  { unfold store_one_image. rewrite lookup_singleton_eq. discriminate. }
  split; [exact H|].
  exact (proj1 (@input_image_untouched Example.nan_on_non_finite Example.bright
                  Example.one_sigma
                  Example.echo Example.two_digits Robust 0 0
                  Example.results_noiseless ∅ store_one_image tt H)).
Defined.

(** On the image whose rings are all [1, 1, 1], with a zero noise, no ring
    is faint: the radii grow by the factor 1.2 from 1.5 up to half the
    image size, 100, which takes more than 15 of them. *)
Lemma bright_radii (dat : image) :
  exists fuel rs,
    @sample_radii_init Example.bright Robust dat 100 Example.results_noiseless
      None 0.2 2 fuel = Return rs /\
    (15 <= length rs)%nat.
Proof.
  destruct (@grow_radii_terminates Example.bright Robust dat 100
              Example.results_noiseless None 0.2 2 0)
    as [fuel Hfuel]; [simpl; lra | lra |].
  destruct (Hfuel fuel (Nat.le_refl fuel)) as [rs Hrs].
  exists fuel, rs.
  pose proof Hrs as Hres.
  apply grow_radii_result in Hres; [|simpl; lra | lra].
  destruct Hres as (H0 & Hgeo & _ & Hstop & _).
  assert (Hlong : (15 <= length rs)%nat).
  { destruct (Nat.le_gt_cases 15 (length rs)) as [|Hshort]; [assumption|].
    exfalso.
    assert (Hne : (0 < length rs)%nat).
    { apply grow_radii_grown in Hrs; [|discriminate].
      destruct Hrs as ((new & ->) & _). simpl. lia. }
    rewrite (geometric_nth _ _ _ Hgeo) in Hstop by lia.
    rewrite H0 in Hstop. simpl psf_fwhm in Hstop.
    assert (Hq : growth 0.2 0 = 1.2) by (unfold growth; simpl; lra).
    rewrite Hq in Hstop.
    assert (Hpow : 1.2 ^ (length rs - 1) <= 1.2 ^ 13).
    { apply Rle_pow; [lra | lia]. }
    assert (H13 : 1.2 ^ 13 < 60) by (simpl; lra).
    destruct Hstop as [Hbig|Hfaint].
    - apply Hbig. nra.
    - unfold faint in Hfaint. simpl in Hfaint.
      rewrite np_median_constant3 in Hfaint. simpl in Hfaint.
      revert Hfaint. Rdec. }
  split; [|exact Hlong].
  unfold sample_radii_init. cbn [radii_attempts]. rewrite Hrs.
  cbn [mbind outcome_bind].
  destruct (Nat.ltb_spec (length rs) 15); [lia | reflexivity].
Qed.


(** * More of the package: invariants of the fitters and the other steps *)

From Stdlib Require Import Ascii.

(** * More on the fitters *)

(** ** Sorting and the median *)

Lemma insert_sorted_In x l y : In y (insert_sorted x l) -> y = x \/ In y l.
Proof.
  induction l as [|z l IH]; simpl.
  - intros [->|[]]. auto.
  - destruct (Rleb x z); simpl.
    + intros [->|[->|H]]; auto.
    + intros [->|H]; auto. destruct (IH H); auto.
Qed.

Lemma sort_In l y : In y (sort l) -> In y l.
Proof.
  induction l as [|x l IH]; simpl; [auto|].
  unfold sort in *. simpl. intros H.
  apply insert_sorted_In in H. destruct H; auto.
Qed.

(** The median of a non-empty array is one of its entries or the mean of
    two of them. *)
Lemma Rmedian_mean_of_two xs :
  xs <> [] ->
  exists a b, In a xs /\ In b xs /\ Rmedian xs = Fin ((a + b) / 2).
Proof.
  intros Hne. unfold Rmedian.
  assert (Hlen : (0 < length (sort xs))%nat).
  { rewrite sort_length. destruct xs; [congruence | simpl; lia]. }
  destruct (Nat.eqb_spec (length (sort xs)) 0) as [E|_]; [lia|].
  assert (Hhalf : (length (sort xs) / 2 < length (sort xs))%nat).
  { apply Nat.div_lt; lia. }
  destruct (Nat.even (length (sort xs))).
  - exists (nth (length (sort xs) / 2 - 1) (sort xs) 0),
           (nth (length (sort xs) / 2) (sort xs) 0).
    repeat split; try reflexivity; apply sort_In, nth_In; lia.
  - exists (nth (length (sort xs) / 2) (sort xs) 0),
           (nth (length (sort xs) / 2) (sort xs) 0).
    repeat split; try (apply sort_In, nth_In; lia).
    apply (f_equal Fin). lra.
Qed.


(** ** Whole turns *)

Lemma pymod_turns x :
  exists k : Z, pymod x (2 * PI) = x - 2 * IZR k * PI.
Proof. exists (Zfloor (x / (2 * PI))). unfold pymod. lra. Qed.

Lemma cos_sin_turns x (k : Z) :
  cos (x - 2 * IZR k * PI) = cos x /\ sin (x - 2 * IZR k * PI) = sin x.
Proof.
  destruct (Z_le_gt_dec 0 k) as [Hk|Hk].
  - rewrite <- (Z2Nat.id k Hk), <- INR_IZR_INZ.
    rewrite <- (cos_period (x - 2 * INR (Z.to_nat k) * PI) (Z.to_nat k)).
    rewrite <- (sin_period (x - 2 * INR (Z.to_nat k) * PI) (Z.to_nat k)).
    split; f_equal; lra.
  - assert (Hk' : (0 <= - k)%Z) by lia.
    replace (x - 2 * IZR k * PI) with (x + 2 * IZR (- k) * PI)
      by (rewrite opp_IZR; lra).
    rewrite <- (Z2Nat.id (- k) Hk'), <- INR_IZR_INZ.
    split; [apply cos_period | apply sin_period].
Qed.

(** ** The position angles stay within a half turn *)

(** A position angle as the fit keeps it: the angle it started from, or
    one that a step has wrapped, a remainder modulo pi. *)
Definition angle_kept (a0 a : R) : Prop := a = a0 \/ 0 <= a <= PI.

Section AngleProperties.
Context {SF : SharedFunctions} {NR : NumpyRandom}.
Variable loss : list R -> list R -> nat -> R -> outcome float64.
Variable regularize_scale : R.
Variable n_radii : nat.
Variable start : R.

Lemma spec_perturbed_angles count i ellip pa g :
  Forall (angle_kept start) pa ->
  let '(_, pa', _) := spec_perturbed count i ellip pa g in
  Forall (angle_kept start) pa'.
Proof.
  clear n_radii. intros Hpa. unfold spec_perturbed.
  destruct (decide _); destruct (decide _); simpl; auto;
    apply Forall_insert; auto; right; apply pymod_range_closed, PI_RGT_0.
Qed.

Lemma refine_radius_angles i s s' :
  (i < n_radii)%nat -> shaped n_radii s ->
  Forall (angle_kept start) (pa s) ->
  refine_radius loss regularize_scale i s = Return s' ->
  Forall (angle_kept start) (pa s').
Proof.
  intros Hi (He & Hp & HI) Hpa H.
  apply refine_radius_selects in H. destruct H as (cands & g' & Hc & _ & Hs).
  apply candidates_spec in Hc; try lia.
  destruct Hc as (l0 & new & _ & -> & Hlen & Hall).
  destruct Hs as (Hb & _ & HI' & Hsel).
  destruct (0 <? _)%nat.
  - destruct Hsel as [(p & Hp' & _ & ->) _].
    destruct (argmin _) as [|b]; simpl in Hp'.
    + injection Hp' as <-. exact Hpa.
    + rewrite Forall_forall in Hall.
      assert (Hin : p ∈ new) by (apply list_elem_of_lookup; eauto).
      apply Hall in Hin. destruct Hin as [g Hg].
      pose proof (spec_perturbed_angles (count s) i (ellip s) (pa s) g Hpa) as Ha.
      destruct (spec_perturbed (count s) i (ellip s) (pa s) g) as [[e' p'] g2].
      destruct Hg as (_ & -> & _). exact Ha.
  - destruct Hsel as (_ & -> & _). exact Hpa.
Qed.

Lemma for_each_angles idx s s' :
  Forall (fun i => (i < n_radii)%nat) idx -> shaped n_radii s ->
  Forall (angle_kept start) (pa s) ->
  for_each loss regularize_scale idx s = Return s' ->
  Forall (angle_kept start) (pa s').
Proof.
  revert s. induction idx as [|i idx IH]; intros s Hidx Hs Hpa H; simpl in H.
  - injection H as <-. exact Hpa.
  - inversion Hidx; subst. inv_bind H.
    apply (IH a); auto.
    + apply (refine_radius_shaped loss regularize_scale n_radii i s a); auto.
    + apply (refine_radius_angles i s a); auto.
Qed.

Lemma iteration_angles s s' :
  shaped n_radii s -> Forall (angle_kept start) (pa s) ->
  iteration loss regularize_scale s = Return s' ->
  Forall (angle_kept start) (pa s').
Proof.
  intros (He & Hp & HI) Hpa. unfold iteration.
  pose proof (shuffle_perm (I s) (gen s)) as Hperm.
  destruct (shuffle (I s) (gen s)) as [I' g]. simpl in Hperm.
  assert (HI' : Forall (fun i => (i < n_radii)%nat) I').
  { eapply Permutation_Forall; [symmetry; exact Hperm | exact HI]. }
  apply for_each_angles; auto. repeat split; auto.
Qed.

Lemma fit_loop_angles fuel s s' :
  shaped n_radii s -> Forall (angle_kept start) (pa s) ->
  fit_loop loss regularize_scale n_radii fuel s = Return s' ->
  Forall (angle_kept start) (pa s').
Proof.
  revert s. induction fuel as [|fuel IH]; intros s Hs Hpa H; simpl in H.
  - destruct (continue_fit n_radii s); [discriminate|]. injection H as <-. auto.
  - destruct (continue_fit n_radii s).
    + inv_bind H. apply (IH a); auto.
      * apply (iteration_shaped loss regularize_scale n_radii s a); auto.
      * apply (iteration_angles s a); auto.
    + injection H as <-. auto.
Qed.

Lemma fill_prefix_Forall {A} (P : A -> Prop) k v l :
  P v -> Forall P l -> Forall P (fill_prefix k v l).
Proof.
  intros Hv Hl. unfold fill_prefix. apply Forall_app. split.
  - apply Forall_replicate. exact Hv.
  - apply Forall_drop. exact Hl.
Qed.

Lemma collapse_step_angles i ep ep' :
  Forall (angle_kept start) ep.2 ->
  collapse_step i ep = Return ep' -> Forall (angle_kept start) ep'.2.
Proof.
  clear n_radii. destruct ep as [e p]. unfold collapse_step. intros Hp H.
  inv_bind H. inv_bind H. destruct (Rltb 0.5 _).
  - inv_bind H. injection H as <-. simpl. apply fill_prefix_Forall; auto.
    apply index_Return in Ha1. rewrite Forall_forall in Hp. apply Hp.
    eapply list_elem_of_lookup_2. exact Ha1.
  - injection H as <-. exact Hp.
Qed.

Lemma collapse_from_angles idx ep ep' :
  Forall (angle_kept start) ep.2 ->
  collapse_from idx ep = Return ep' -> Forall (angle_kept start) ep'.2.
Proof.
  clear n_radii. revert ep. induction idx as [|i idx IH]; intros ep Hp H; simpl in H.
  - injection H as <-. exact Hp.
  - inv_bind H. apply (IH a); auto. eapply collapse_step_angles; eauto.
Qed.

End AngleProperties.

(** ** The passes of the loop *)

Section PassProperties.
Context {SF : SharedFunctions} {NR : NumpyRandom}.
Variable loss : list R -> list R -> nat -> R -> outcome float64.
Variable regularize_scale : R.
Variable n_radii : nat.

Lemma refine_radius_nochange i s s' :
  refine_radius loss regularize_scale i s = Return s' ->
  (count_nochange s' <= count_nochange s + 1)%nat /\ I s' = I s.
Proof.
  clear n_radii. intros H. apply refine_radius_selects in H.
  destruct H as (cands & g' & _ & _ & Hs).
  destruct Hs as (_ & _ & HI & Hsel). split; [|exact HI].
  destruct (0 <? _)%nat.
  - destruct Hsel as [_ ->]. lia.
  - destruct Hsel as (_ & _ & ->). lia.
Qed.

Lemma for_each_nochange idx s s' :
  for_each loss regularize_scale idx s = Return s' ->
  (count_nochange s' <= count_nochange s + length idx)%nat /\ I s' = I s.
Proof.
  clear n_radii. revert s. induction idx as [|i idx IH]; intros s H; simpl in H.
  - injection H as <-. split; [lia | reflexivity].
  - inv_bind H. apply IH in H. apply refine_radius_nochange in Ha.
    destruct H as [H1 H2], Ha as [H3 H4]. simpl. split; [lia | congruence].
Qed.

Lemma iteration_nochange s s' :
  iteration loss regularize_scale s = Return s' ->
  (count_nochange s' <= count_nochange s + length (I s))%nat /\
  length (I s') = length (I s).
Proof.
  clear n_radii. unfold iteration.
  pose proof (shuffle_perm (I s) (gen s)) as Hperm.
  destruct (shuffle (I s) (gen s)) as [I' g]. simpl in Hperm.
  intros H. apply for_each_nochange in H. simpl in H. destruct H as [H1 H2].
  apply Permutation_length in Hperm. rewrite H2. split; [lia | exact Hperm].
Qed.

(** The passes that have found nothing better are at most the passes
    made so far, each over all the radii. *)
Lemma fit_loop_nochange fuel s s' :
  length (I s) = n_radii ->
  (count_nochange s <= count s * n_radii)%nat ->
  fit_loop loss regularize_scale n_radii fuel s = Return s' ->
  (count_nochange s' <= count s' * n_radii)%nat.
Proof.
  revert s. induction fuel as [|fuel IH]; intros s HI Hinv H; simpl in H.
  - destruct (continue_fit n_radii s); [discriminate|]. injection H as <-. auto.
  - destruct (continue_fit n_radii s).
    + inv_bind H. apply (IH a); auto.
      * apply iteration_nochange in Ha. lia.
      * pose proof (iteration_count _ _ _ _ Ha) as Hc.
        apply iteration_nochange in Ha. rewrite Hc. lia.
    + injection H as <-. auto.
Qed.

(** X4.  The loop makes at least 3 and at most 300 passes over the radii: it
    goes on until 300 passes are made or [3 * len(sample_radii)] radii
    in a row have kept their ellipse, and a pass goes over each radius
    once. *)
Theorem fit_loop_pass_count (fuel : nat) (s s' : fit_state) :
  (1 <= n_radii)%nat ->
  length (I s) = n_radii -> count s = 0%nat -> count_nochange s = 0%nat ->
  fit_loop loss regularize_scale n_radii fuel s = Return s' ->
  (3 <= count s' <= 300)%nat.
Proof.
  intros Hn HI Hc Hnc H.
  pose proof (fit_loop_nochange fuel s s' HI ltac:(lia) H) as Hinv.
  apply fit_loop_exit in H. destruct H as (Hstop & _ & Hcap).
  split; [|apply Hcap; lia].
  unfold continue_fit in Hstop. apply andb_false_iff in Hstop.
  destruct Hstop as [Hstop|Hstop]; apply Nat.ltb_ge in Hstop; [lia|].
  nia.
Qed.

End PassProperties.

(** ** The error arrays hold no negative number *)

(** A float that is a number, and one that is a number not below zero;
    either may be NaN where it says so. *)
Definition number_or_nan (x : float64) : Prop := x = NaN \/ exists r, x = Fin r.

Definition is_number (x : float64) : Prop := exists r, x = Fin r.

Definition finite_nonneg (x : float64) : Prop := exists r, x = Fin r /\ 0 <= r.

Definition nonneg_or_nan (x : float64) : Prop := x = NaN \/ finite_nonneg x.

Lemma squares_sum_nonneg_or_nan (raw smooth : list float64) :
  Forall number_or_nan raw -> Forall number_or_nan smooth ->
  nonneg_or_nan (np_sum (map (fun d => fmul d d) (zip_with fsub raw smooth))).
Proof.
  intros Hraw. revert smooth.
  induction Hraw as [|a raw Ha _ IH]; intros smooth Hsmooth.
  - right. exists 0. split; [reflexivity | lra].
  - destruct Hsmooth as [|b smooth Hb Hsmooth].
    + right. exists 0. split; [reflexivity | lra].
    + simpl. unfold np_sum in *. simpl.
      destruct (IH smooth Hsmooth) as [->|(r & -> & Hr)].
      * left. destruct (fmul _ _); reflexivity.
      * destruct Ha as [->|[x ->]]; [left; reflexivity|].
        destruct Hb as [->|[y ->]]; [left; reflexivity|].
        right. simpl. eexists. split; [reflexivity|].
        pose proof (Rle_0_sqr (x + - y)) as Hsq. unfold Rsqr in Hsq. lra.
Qed.

Lemma squares_sum_finite (raw smooth : list float64) :
  Forall is_number raw -> Forall is_number smooth ->
  finite_nonneg (np_sum (map (fun d => fmul d d) (zip_with fsub raw smooth))).
Proof.
  intros Hraw. revert smooth.
  induction Hraw as [|a raw Ha _ IH]; intros smooth Hsmooth.
  - exists 0. split; [reflexivity | lra].
  - destruct Hsmooth as [|b smooth Hb Hsmooth].
    + exists 0. split; [reflexivity | lra].
    + simpl. unfold np_sum in *. simpl.
      destruct (IH smooth Hsmooth) as (r & -> & Hr).
      destruct Ha as [x ->]. destruct Hb as [y ->].
      simpl. eexists. split; [reflexivity|].
      pose proof (Rle_0_sqr (x + - y)) as Hsq. unfold Rsqr in Hsq. lra.
Qed.

Lemma root_of_quarter r :
  0 <= r -> finite_nonneg (fsqrt (fdiv (Fin r) (Fin 4))).
Proof.
  intros Hr. simpl. unfold Reqb. destruct (Req_dec_T 4 0); [lra|].
  simpl. unfold Rltb. destruct (Rlt_dec (r / 4) 0); [lra|].
  eexists. split; [reflexivity | apply sqrt_pos].
Qed.

Lemma rms4_nonneg_or_nan raw smooth :
  Forall number_or_nan raw -> Forall number_or_nan smooth ->
  nonneg_or_nan (rms4 raw smooth).
Proof.
  intros Hr Hs. unfold rms4.
  destruct (squares_sum_nonneg_or_nan raw smooth Hr Hs) as [->|(r & -> & Hr')].
  - left. reflexivity.
  - right. apply root_of_quarter. exact Hr'.
Qed.

Lemma rms4_finite raw smooth :
  Forall is_number raw -> Forall is_number smooth ->
  finite_nonneg (rms4 raw smooth).
Proof.
  intros Hr Hs. unfold rms4.
  destruct (squares_sum_finite raw smooth Hr Hs) as (r & -> & Hr').
  apply root_of_quarter. exact Hr'.
Qed.

Lemma fold_insert_Forall {A} (P : A -> Prop) (f : nat -> A) idx (err : list A) :
  (forall i, P (f i)) -> Forall P err ->
  Forall P (fold_left (fun err i => <[i := f i]> err) idx err).
Proof.
  intros Hf. revert err. induction idx as [|i idx IH]; intros err Herr; simpl;
    [exact Herr|].
  apply IH. apply Forall_insert; auto.
Qed.

(** Every entry of an error array is a root mean square over slices of
    the two arrays, or the zero the array was made of. *)
Lemma param_err_Forall (P Q S : float64 -> Prop) len raw smooth err :
  (forall a b, Forall Q a -> Forall S b -> P (rms4 a b)) -> P (Fin 0) ->
  Forall Q raw -> Forall S smooth ->
  param_err len raw smooth = Return err -> Forall P err.
Proof.
  intros Hrms H0 Hraw Hsmooth H. unfold param_err in H. inv_bind H.
  injection H as <-.
  apply (fold_insert_Forall P
           (fun i => rms4 (slice (i - 2) (i + 2) raw)
                          (slice (i - 2) (i + 2) smooth))).
  - intros i. apply Hrms; unfold slice; apply Forall_take, Forall_drop; assumption.
  - unfold set_last in Ha. destruct (fill_prefix 2 _ _) eqn:E; [discriminate|].
    injection Ha as <-. apply Forall_insert.
    + rewrite <- E. apply fill_prefix_Forall.
      * apply Hrms; apply Forall_take; assumption.
      * apply Forall_replicate. exact H0.
    + apply Hrms; unfold last4; apply Forall_drop; assumption.
Qed.

Lemma pa_of_predictions_number_or_nan s c :
  number_or_nan (pa_of_predictions s c).
Proof.
  unfold pa_of_predictions.
  assert (H2 : forall x, number_or_nan x -> number_or_nan (fdiv x (Fin 2))).
  { intros x [->|[r ->]]; [left; reflexivity|]. right. simpl.
    unfold Reqb. destruct (Req_dec_T 2 0); [lra|]. eauto. }
  apply H2.
  assert (Hm : forall x, number_or_nan (fmod x (2 * PI))).
  { intros [r| | |]; simpl; [right; eauto | left; reflexivity ..]. }
  apply Hm.
Qed.

(** ** The losses do not depend on the unit of flux *)

Section FluxUnit.
Context {AF : ArrayFunctions}.
Variable lam : R.
Hypothesis lam_pos : 0 < lam.

Lemma Rleb_scale x y : Rleb (lam * x) (lam * y) = Rleb x y.
Proof using lam_pos.
  unfold Rleb. destruct (Rle_dec x y), (Rle_dec (lam * x) (lam * y));
    try reflexivity; exfalso; nra.
Qed.

Lemma Rltb_scale x y : Rltb (lam * x) (lam * y) = Rltb x y.
Proof using lam_pos.
  unfold Rltb. destruct (Rlt_dec x y), (Rlt_dec (lam * x) (lam * y));
    try reflexivity; exfalso; nra.
Qed.

Lemma insert_sorted_scale x l :
  insert_sorted (lam * x) (map (Rmult lam) l)
  = map (Rmult lam) (insert_sorted x l).
Proof using lam_pos.
  induction l as [|y l IH]; simpl; [reflexivity|].
  rewrite Rleb_scale. destruct (Rleb x y); simpl; [reflexivity|].
  rewrite IH. reflexivity.
Qed.

Lemma sort_scale l : sort (map (Rmult lam) l) = map (Rmult lam) (sort l).
Proof using lam_pos.
  unfold sort. induction l as [|x l IH]; simpl; [reflexivity|].
  rewrite IH. apply insert_sorted_scale.
Qed.

Lemma nth_scale k l : nth k (map (Rmult lam) l) 0 = lam * nth k l 0.
Proof using lam_pos.
  rewrite <- (map_nth (Rmult lam)). f_equal. lra.
Qed.

Lemma Rmedian_scale rs :
  Rmedian (map (Rmult lam) rs) = fmul (Fin lam) (Rmedian rs).
Proof using lam_pos.
  unfold Rmedian. rewrite sort_scale, length_map.
  destruct (length (sort rs) =? 0)%nat; [reflexivity|].
  destruct (Nat.even _); simpl; rewrite !nth_scale; f_equal; lra.
Qed.

Lemma Rquantile_scale rs q :
  Rquantile (map (Rmult lam) rs) q = fmul (Fin lam) (Rquantile rs q).
Proof using lam_pos.
  unfold Rquantile. rewrite sort_scale, length_map.
  destruct (length (sort rs) =? 0)%nat; [reflexivity|].
  simpl. rewrite !nth_scale. f_equal. lra.
Qed.

Lemma np_clip_max_scale rs m :
  np_clip_max (map Fin (map (Rmult lam) rs)) (fmul (Fin lam) (Fin m))
  = map Fin (map (Rmult lam)
               (map (fun x => if Rltb m x then m else x) rs)).
Proof using lam_pos.
  unfold np_clip_max. rewrite !map_map. apply map_ext. intros x. simpl.
  rewrite Rltb_scale. destruct (Rltb m x); reflexivity.
Qed.

Lemma np_clip_max_reals rs m :
  np_clip_max (map Fin rs) (Fin m)
  = map Fin (map (fun x => if Rltb m x then m else x) rs).
Proof using Type.
  unfold np_clip_max. rewrite !map_map. apply map_ext. intros x. simpl.
  destruct (Rltb m x); reflexivity.
Qed.

Lemma dft_sum_scale k N j rs :
  dft_sum k N j (map (Rmult lam) rs)
  = (lam * (dft_sum k N j rs).1, lam * (dft_sum k N j rs).2).
Proof using lam_pos.
  revert j. induction rs as [|x rs IH]; intros j; simpl.
  - f_equal; lra.
  - rewrite IH. destruct (dft_sum k N (S j) rs) as [re im]. simpl.
    f_equal; lra.
Qed.

Lemma cabs_scale a b : cabs (lam * a, lam * b) = lam * cabs (a, b).
Proof using lam_pos.
  unfold cabs. simpl.
  replace (lam * a * (lam * a) + lam * b * (lam * b))
    with (lam * lam * (a * a + b * b)) by lra.
  rewrite sqrt_mult_alt by nra.
  rewrite sqrt_square by lra. reflexivity.
Qed.

Lemma np_abs_fft_scale rs k :
  (k < length rs)%nat ->
  np_abs_fft (map Fin (map (Rmult lam) rs)) k
  = fmul (Fin lam) (np_abs_fft (map Fin rs) k).
Proof using lam_pos.
  intros Hk.
  rewrite !np_abs_fft_finite by (rewrite ?length_map; exact Hk).
  unfold dft. rewrite length_map, dft_sum_scale, cabs_scale.
  destruct (dft_sum _ _ _ _); reflexivity.
Qed.

Lemma np_mean_scale rs :
  np_mean (map Fin (map (Rmult lam) rs)) = fmul (Fin lam) (np_mean (map Fin rs)).
Proof using lam_pos.
  unfold np_mean. rewrite !np_sum_finite, !length_map.
  assert (Hs : Rsum (map (Rmult lam) rs) = lam * Rsum rs).
  { unfold Rsum. induction rs as [|x rs IH]; simpl; [lra|]. rewrite IH. lra. }
  rewrite Hs. simpl. unfold Reqb.
  destruct (Req_dec_T (INR (length rs)) 0) as [E|E].
  - destruct (Req_dec_T (lam * Rsum rs) 0), (Req_dec_T (Rsum rs) 0);
      try reflexivity; try (exfalso; nra).
    simpl. unfold Reqb, Rltb. destruct (Req_dec_T lam 0); [lra|].
    destruct (Rlt_dec 0 (lam * Rsum rs)), (Rlt_dec 0 (Rsum rs));
      try (exfalso; nra); simpl; unfold Rltb;
      destruct (Rlt_dec 0 lam), (Rlt_dec lam 0); try lra; reflexivity.
  - simpl. f_equal. field. exact E.
Qed.

(** The second Fourier coefficient over the normaliser, for a central
    value [m] of the ring: a quotient of two quantities that scale
    alike. *)
Lemma max0_scale (m : float64) :
  (m = NaN \/ exists x, m = Fin x) ->
  exists z, max0 m = Fin z /\ max0 (fmul (Fin lam) m) = Fin (lam * z).
Proof using lam_pos.
  intros [->|[y ->]].
  - exists 0. split; [reflexivity|]. simpl.
    rewrite Rmult_0_r. reflexivity.
  - unfold max0, fgt. simpl.
    assert (H0 : Rltb 0 (lam * y) = Rltb 0 y).
    { unfold Rltb. destruct (Rlt_dec 0 y), (Rlt_dec 0 (lam * y));
        try reflexivity; exfalso; nra. }
    rewrite H0. destruct (Rltb 0 y).
    + exists y. auto.
    + exists 0. split; [reflexivity|]. rewrite Rmult_0_r. reflexivity.
Qed.

Lemma f2_loss_scale (c m : float64) (n noise : R) :
  (c = NaN \/ exists x, c = Fin x) -> (m = NaN \/ exists x, m = Fin x) ->
  fdiv (fmul (Fin lam) c)
       (fmul (Fin n) (fadd (max0 (fmul (Fin lam) m)) (Fin (lam * noise))))
  = fdiv c (fmul (Fin n) (fadd (max0 m) (Fin noise))).
Proof using lam_pos.
  intros Hc Hm. destruct (max0_scale m Hm) as (z & -> & ->).
  destruct Hc as [->|[x ->]]; [reflexivity|].
  simpl. unfold Reqb, Rltb.
  destruct (Req_dec_T (n * (lam * z + lam * noise)) 0) as [E1|E1],
           (Req_dec_T (n * (z + noise)) 0) as [E2|E2].
  - destruct (Req_dec_T (lam * x) 0), (Req_dec_T x 0);
      try reflexivity; try (exfalso; nra).
    destruct (Rlt_dec 0 (lam * x)), (Rlt_dec 0 x);
      try reflexivity; exfalso; nra.
  - exfalso. apply E2.
    replace (n * (lam * z + lam * noise)) with (lam * (n * (z + noise))) in E1
      by ring.
    apply Rmult_integral in E1. destruct E1; [lra | assumption].
  - exfalso. apply E1. replace (n * (lam * z + lam * noise))
      with (lam * (n * (z + noise))) by ring.
    rewrite E2. ring.
  - assert (Hn : n <> 0) by (intros E; apply E2; rewrite E; ring).
    assert (Hz : z + noise <> 0) by (intros E; apply E2; rewrite E; ring).
    assert (Hl : lam * z + lam * noise <> 0).
    { intros E. apply E1. rewrite E. ring. }
    f_equal. field. auto.
Qed.

End FluxUnit.

Lemma all_finite_reals rs : all_finite (map Fin rs) = true.
Proof. induction rs as [|r rs IH]; simpl; auto. Qed.

(** X6.  A brighter image in a brighter noise, both by the factor [lam], has
    the losses of the image it was made from: the second Fourier
    coefficient of a ring and the value that it is compared with
    (the median, or the mean, and the noise) grow alike, and the
    regularisation does not look at the image.  So the fit does not
    depend on the unit of flux. *)
Theorem losses_do_not_depend_on_the_flux_unit
    {AF : ArrayFunctions} {SF : SharedFunctions}
    (v : variant) (dat dat' : image) (R_ E PA : list R) (i : nat) (C : center)
    (noise : R) (mask : option mask_array) (reg_scale lam : R) :
  0 < lam ->
  (forall r e p interp, exists rs,
      _iso_extract dat r e p C None mask interp = map Fin rs /\
      _iso_extract dat' r e p C None mask interp
      = map Fin (map (Rmult lam) rs)) ->
  loss_of v dat' R_ E PA i C (lam * noise) mask reg_scale
  = loss_of v dat R_ E PA i C noise mask reg_scale.
Proof.
  intros Hlam Hring.
  destruct v; simpl; unfold _FFT_Robust_loss, _FFT_mean_loss;
    destruct (index R_ i) as [Ri| |]; try reflexivity;
    destruct (index E i) as [Ei| |]; try reflexivity;
    destruct (index PA i) as [PAi| |]; try reflexivity;
    cbn [mbind outcome_bind];
    match goal with |- context [_iso_extract dat Ri Ei PAi C None mask ?t] =>
      destruct (Hring Ri Ei PAi t) as (rs & -> & ->) end;
    (destruct rs as [|r0 rs0]; [reflexivity|]);
    set (rs := r0 :: rs0) in *;
    assert (Hne : rs <> []) by discriminate.
  - assert (Hq : 0 <= match mask with Some _ => 0.9 | None => 0.85 end <= 1)
      by (destruct mask; lra).
    rewrite !np_quantile_finite, !np_median_finite
      by (auto; subst rs; discriminate).
    rewrite (Rquantile_scale lam Hlam), (Rmedian_scale lam Hlam).
    destruct (Rquantile_number rs
                (match mask with Some _ => 0.9 | None => 0.85 end) Hne)
      as [a ->].
    rewrite (np_clip_max_scale lam Hlam), np_clip_max_reals.
    unfold second_coef_abs. rewrite !length_map.
    destruct (length rs =? 0)%nat; [reflexivity|].
    destruct (Nat.leb_spec 3 (length rs)) as [Hlen|_]; [|reflexivity].
    cbn [mbind outcome_bind].
    rewrite (np_abs_fft_scale lam Hlam) by (rewrite length_map; lia).
    rewrite (f2_loss_scale lam Hlam); auto.
    + right. rewrite np_abs_fft_finite by (rewrite length_map; lia). eauto.
    + destruct (Rmedian_mean_of_two rs Hne) as (x & y & _ & _ & ->). eauto.
  - rewrite !all_finite_reals. cbn [negb].
    unfold second_coef_abs. rewrite !length_map.
    destruct (length rs =? 0)%nat; [reflexivity|].
    destruct (Nat.leb_spec 3 (length rs)) as [Hlen|_]; [|reflexivity].
    cbn [mbind outcome_bind].
    rewrite (np_abs_fft_scale lam Hlam), (np_mean_scale lam Hlam) by lia.
    rewrite (f2_loss_scale lam Hlam); auto.
    + right. rewrite np_abs_fft_finite by lia. eauto.
    + right. unfold np_mean. rewrite np_sum_finite, length_map. cbn [fdiv].
      unfold Reqb. destruct (Req_dec_T _ 0) as [E0|_]; [|eauto].
      exfalso. subst rs. cbn [length] in E0. rewrite S_INR in E0.
      pose proof (pos_INR (length rs0)). lra.
Qed.

(** ** The smoothed angles of angles a half turn apart *)

(** X7.  A position angle is an angle up to half turns.  The smoother reads
    an angle through the sine and the cosine of its double only: it
    gives the same for two profiles whose angles differ by half turns. *)
Theorem pa_smooth_ignores_half_turns
    {SK : Sklearn} (R_ PA PA' : list R) (deg : nat) :
  Forall2 (fun a a' => exists k : Z, a' = a + IZR k * PI) PA PA' ->
  _pa_smooth R_ PA' deg = _pa_smooth R_ PA deg.
Proof.
  intros H.
  assert (Hsc : map (fun a => sin (2 * a)) PA' = map (fun a => sin (2 * a)) PA
                /\ map (fun a => cos (2 * a)) PA' = map (fun a => cos (2 * a)) PA).
  { induction H as [|a a' PA PA' [k ->] _ [IHs IHc]]; [split; reflexivity|].
    simpl. rewrite IHs, IHc.
    replace (2 * (a + IZR k * PI)) with (2 * a - 2 * IZR (- k) * PI)
      by (rewrite opp_IZR; lra).
    destruct (cos_sin_turns (2 * a) (- k)) as [-> ->]. split; reflexivity. }
  destruct Hsc as [Hs Hc]. unfold _pa_smooth. rewrite Hs, Hc. reflexivity.
Qed.

(** ** The parts of a run *)

Section RunProperties.
Context {AF : ArrayFunctions} {SF : SharedFunctions} {NR : NumpyRandom}
        {SK : Sklearn} {PF : PythonFormat}.

(** A run of the fitter that returns, taken apart: the radii, the state
    that the loop ends in, the arrays after the scan for a collapsed
    centre, the smoothed profile and the two error arrays. *)
Lemma isophote_fit_parts v fuel IMG results options h g l res :
  h !! IMG <> None ->
  (isophote_fit v fuel IMG results options h g).1 = Return (l, res) ->
  exists rs s e p sm ee pe,
    radii_of v fuel IMG results options h = Return rs /\
    fit_loop (loss_in v IMG results h rs) (regularize_scale_of options)
      (length rs) 300 (initial_state (length rs) results g) = Return s /\
    detect_collapsed_center (ellip s) (pa s) = Return (e, p) /\
    smooth_profile rs e p = Return sm /\
    param_err (length (raw_pa sm)) (map Fin (raw_ellip sm))
      (map Fin (smooth_ellip sm)) = Return ee /\
    param_err (length (raw_pa sm)) (map Fin (raw_pa sm)) (smooth_pa sm)
    = Return pe /\
    res !! "fit R"%string = Some (VList rs) /\
    res !! "fit ellip"%string = Some (VList (raw_ellip sm)) /\
    res !! "fit pa"%string = Some (VList (raw_pa sm)) /\
    res !! "fit ellip_err"%string = Some (VArray ee) /\
    res !! "fit pa_err"%string = Some (VArray pe).
Proof.
  intros HIMG H. rewrite isophote_fit_unfold in H by exact HIMG.
  cbn [fst] in H. inv_bind H. rename a into rs. rename Ha into Hrs.
  unfold fit_with in H.
  inv_bind H. rename a into s. rename Ha into Hloop.
  inv_bind H. destruct a as [e p]. rename Ha into Hcol.
  inv_bind H. rename a into sm. rename Ha into Hsm.
  inv_bind H. rename a into ee. rename Ha into Hee.
  inv_bind H. rename a into pe. rename Ha into Hpe.
  inv_bind H. injection H as <- <-.
  exists rs, s, e, p, sm, ee, pe. repeat split; auto.
Qed.

(** X1.  In the dict that a fitter returns, every position angle is the
    initial one or lies between 0 and pi: a step that moves an angle
    takes its remainder modulo pi, and the scan for a collapsed centre
    copies angles that are there.  With an initial angle between 0 and
    pi all of them are. *)
Theorem fitted_angles_within_half_turn
    (v : variant) (fuel : nat) (IMG : nat) (results : results_t)
    (options : gmap string R) (h : store) (g : rng)
    (l : nat) (res : gmap string value) :
  h !! IMG <> None ->
  (isophote_fit v fuel IMG results options h g).1 = Return (l, res) ->
  exists pa,
    res !! "fit pa"%string = Some (VList pa) /\
    Forall (fun a => a = init_pa results \/ 0 <= a <= PI) pa /\
    (0 <= init_pa results <= PI -> Forall (fun a => 0 <= a <= PI) pa).
Proof.
  intros HIMG H.
  destruct (isophote_fit_parts _ _ _ _ _ _ _ _ _ HIMG H)
    as (rs & s & e & p & sm & ee & pe & _ & Hloop & Hcol & Hsm & _ & _
        & _ & _ & Hpa & _).
  exists (raw_pa sm). split; [exact Hpa|].
  assert (Hkept : Forall (angle_kept (init_pa results)) (raw_pa sm)).
  { apply smooth_profile_spec in Hsm.
    destruct Hsm as (m & _ & _ & -> & _).
    apply (collapse_from_angles (init_pa results) (seq 0 5)
             (ellip s, pa s) (e, p)); [|exact Hcol].
    eapply fit_loop_angles; [| |exact Hloop].
    - apply initial_state_shaped.
    - simpl. apply Forall_replicate. left. lra. }
  split; [exact Hkept|].
  intros Hinit. eapply Forall_impl; [exact Hkept|].
  intros a [->|Ha]; assumption.
Qed.

(** X2.  When [psf_fwhm] and the scale are positive, every radius that a
    fitter returns is at least [1.5 * psf_fwhm]; all but the last are
    below half the largest side of the image, and the last one is below
    [1 + scale] times that. *)
Theorem fit_radii_within_reach
    (v : variant) (fuel : nat) (IMG : nat) (results : results_t)
    (options : gmap string R) (h : store) (g : rng)
    (l : nat) (res : gmap string value) :
  h !! IMG <> None ->
  0 < psf_fwhm results -> 0 < scale_of options ->
  (isophote_fit v fuel IMG results options h g).1 = Return (l, res) ->
  exists rs,
    res !! "fit R"%string = Some (VList rs) /\
    (forall k, (S k < length rs)%nat ->
       nth k rs 0 < INR (max_shape (h !!! IMG)) / 2) /\
    Forall (fun r => 1.5 * psf_fwhm results <= r
                     < (1 + scale_of options) * (INR (max_shape (h !!! IMG)) / 2))
           rs.
Proof.
  intros HIMG Hpsf Hscale H.
  destruct (isophote_fit_parts _ _ _ _ _ _ _ _ _ HIMG H)
    as (rs & s & e & p & sm & ee & pe & Hrs & _ & _ & _ & _ & _
        & HR & _).
  exists rs. split; [exact HR|].
  unfold radii_of, sample_radii_init in Hrs.
  apply radii_attempts_return in Hrs.
  destruct Hrs as (k & Hk & Hgrow & Hlen & _).
  apply grow_radii_result in Hgrow; auto.
  destruct Hgrow as (H0 & Hgeo & Hinc & _ & Hbefore).
  set (half := INR (max_shape (h !!! IMG)) / 2) in *.
  assert (Hbelow : forall j, (S j < length rs)%nat -> nth j rs 0 < half).
  { intros j Hj. specialize (Hbefore j Hj).
    destruct (Rlt_dec (nth j rs 0) half) as [|Hn]; [assumption|].
    exfalso. apply Hbefore. left. exact Hn. }
  split; [exact Hbelow|].
  assert (Hhalf : 0 < half).
  { specialize (Hbelow 0%nat ltac:(lia)). lra. }
  assert (Hlow : forall j, (j < length rs)%nat ->
            1.5 * psf_fwhm results <= nth j rs 0).
  { intros j Hj. rewrite <- H0. apply increasing_le; auto. lia. }
  apply Forall_forall. intros r Hr.
  apply list_elem_of_In, (In_nth _ _ 0) in Hr. destruct Hr as (j & Hj & <-).
  split; [apply Hlow; exact Hj|].
  destruct (Nat.eq_dec (S j) (length rs)) as [Elast|Hne].
  - destruct j as [|j]; [lia|].
    rewrite (Hgeo j) by lia.
    pose proof (Hbelow j ltac:(lia)) as Hb.
    pose proof (Hlow j ltac:(lia)) as Hl.
    assert (Hq : 1 + scale_of options / (1 + INR k) <= 1 + scale_of options).
    { assert (0 <= INR k) by apply pos_INR.
      assert (scale_of options / (1 + INR k) <= scale_of options / 1).
      { apply Rmult_le_compat_l; [lra|]. apply Rinv_le_contravar; lra. }
      lra. }
    assert (0 < 1 + scale_of options / (1 + INR k)).
    { assert (0 <= INR k) by apply pos_INR.
      assert (0 < scale_of options / (1 + INR k))
        by (apply Rdiv_lt_0_compat; lra).
      lra. }
    unfold growth.
    apply Rle_lt_trans with (nth j rs 0 * (1 + scale_of options)).
    + apply Rmult_le_compat_l; lra.
    + rewrite Rmult_comm. apply Rmult_lt_compat_l; lra.
  - pose proof (Hbelow j ltac:(lia)). nra.
Qed.

(** X3.  The error arrays that a fitter returns hold no negative and no
    infinite entry: every ellipticity error is a number not below zero,
    and every position-angle error is one too, or NaN where the smoothed
    angles are. *)
Theorem fit_errors_are_not_negative
    (v : variant) (fuel : nat) (IMG : nat) (results : results_t)
    (options : gmap string R) (h : store) (g : rng)
    (l : nat) (res : gmap string value) :
  h !! IMG <> None ->
  (isophote_fit v fuel IMG results options h g).1 = Return (l, res) ->
  exists ellip_err pa_err,
    res !! "fit ellip_err"%string = Some (VArray ellip_err) /\
    res !! "fit pa_err"%string = Some (VArray pa_err) /\
    Forall (fun x => exists r, x = Fin r /\ 0 <= r) ellip_err /\
    Forall (fun x => x = NaN \/ exists r, x = Fin r /\ 0 <= r) pa_err.
Proof.
  intros HIMG H.
  destruct (isophote_fit_parts _ _ _ _ _ _ _ _ _ HIMG H)
    as (rs & s & e & p & sm & ee & pe & _ & _ & _ & Hsm & Hee & Hpe
        & _ & _ & _ & He & Hp).
  exists ee, pe. split; [exact He|]. split; [exact Hp|].
  assert (Hnum : forall xs : list R, Forall is_number (map Fin xs)).
  { intros xs. apply Forall_map, Forall_forall. intros x _. exists x. reflexivity. }
  split.
  - apply (param_err_Forall finite_nonneg is_number is_number _ _ _ _
             rms4_finite) in Hee; auto.
    exists 0. split; [reflexivity | lra].
  - apply (param_err_Forall nonneg_or_nan number_or_nan number_or_nan _ _ _ _
             rms4_nonneg_or_nan) in Hpe; auto.
    + right. exists 0. split; [reflexivity | lra].
    + eapply Forall_impl; [apply Hnum|]. intros x Hx. right. exact Hx.
    + apply smooth_profile_spec in Hsm.
      destruct Hsm as (m & _ & _ & _ & _ & _ & _ & ->).
      unfold _pa_smooth. apply Forall_forall. intros x Hx.
      apply list_elem_of_In in Hx.
      revert Hx.
      generalize (map (clip (-1) 1)
                    (huber_fit_predict 5 1.35 (map log10 rs)
                       (map (fun a => sin (2 * a)) p))).
      generalize (map (clip (-1) 1)
                    (huber_fit_predict 5 1.35 (map log10 rs)
                       (map (fun a => cos (2 * a)) p))).
      intros cs ss. revert cs.
      induction ss as [|s0 ss IH]; intros [|c0 cs]; simpl; try tauto.
      intros [<-|Hx]; [apply pa_of_predictions_number_or_nan | eauto].
Qed.

(** *** A mask with no pixel set *)

(** The radii are grown from five entries of [results] and the mask that
    is handed over beside them. *)
Lemma grow_radii_results v dat half_size res res' mask scale fit_limit :
  init_ellip res' = init_ellip res -> init_pa res' = init_pa res ->
  results_center res' = results_center res ->
  background_noise res' = background_noise res ->
  forall fuel shrink rs,
    grow_radii v dat half_size res' mask scale fit_limit fuel shrink rs
    = grow_radii v dat half_size res mask scale fit_limit fuel shrink rs.
Proof.
  intros He Hp Hc Hn. induction fuel as [|fuel IH]; intros shrink rs; simpl;
    [reflexivity|].
  destruct (last_item rs); simpl; try reflexivity.
  rewrite He, Hp, Hc, Hn.
  destruct (Rltb _ _); [|reflexivity].
  destruct (flt _ _); [reflexivity|]. apply IH.
Qed.

Lemma radii_attempts_results v dat half_size res res' mask scale fit_limit :
  init_ellip res' = init_ellip res -> init_pa res' = init_pa res ->
  results_center res' = results_center res ->
  background_noise res' = background_noise res ->
  psf_fwhm res' = psf_fwhm res ->
  forall fuel attempts shrink,
    radii_attempts v dat half_size res' mask scale fit_limit fuel attempts shrink
    = radii_attempts v dat half_size res mask scale fit_limit fuel attempts shrink.
Proof.
  intros He Hp Hc Hn Hpsf fuel attempts.
  induction attempts as [|attempts IH]; intros shrink; simpl; [reflexivity|].
  rewrite Hpsf, (grow_radii_results v dat half_size res res') by assumption.
  destruct (grow_radii _ _ _ _ _ _ _ _ _ _); simpl; try reflexivity.
  destruct (_ <? _)%nat; [apply IH | reflexivity].
Qed.

(** [results] without its entry 'mask'. *)
Definition without_mask (results : results_t) : results_t :=
  {| background := background results;
     background_noise := background_noise results;
     psf_fwhm := psf_fwhm results;
     init_ellip := init_ellip results;
     init_pa := init_pa results;
     results_center := results_center results;
     results_mask := None |}.

(** X5.  A mask in which no pixel is set counts for nothing: the fitter does
    on it, to the last detail, what it does without a mask: the same
    rings, the quantile 0.85 in the robust loss, the same result or
    exception, the same arrays in the store. *)
Theorem unset_mask_is_no_mask
    (v : variant) (fuel : nat) (IMG : nat) (results : results_t)
    (options : gmap string R) (h : store) (g : rng) (m : mask_array) :
  results_mask results = Some m -> np_any m = false ->
  isophote_fit v fuel IMG results options h g
  = isophote_fit v fuel IMG (without_mask results) options h g.
Proof.
  intros Hm Hany. unfold isophote_fit.
  cbn [without_mask background background_noise psf_fwhm init_ellip init_pa
       results_center results_mask].
  rewrite Hm, Hany.
  destruct (alloc h _) as [dat h'].
  unfold sample_radii_init.
  rewrite (radii_attempts_results v _ _ results (without_mask results));
    reflexivity.
Qed.

End RunProperties.

(** ** Concrete runs *)

(** The robust fitter returns on the image of 200 rows whose rings are
    all [1, 1, 1]. *)
Lemma bright_fit_returns :
  store_one_image !! 0%nat <> None /\
  exists fuel res,
    (@isophote_fit Example.nan_on_non_finite Example.bright
       Example.one_sigma Example.echo
       Example.two_digits Robust fuel 0 Example.results_noiseless ∅
       store_one_image tt).1 = Return (0%nat, res).
Proof.
  assert (H : store_one_image !! 0%nat <> None).
  { unfold store_one_image. rewrite lookup_singleton_eq. discriminate. }
  split; [exact H|].
  destruct (bright_radii
              (@dat_of 0 Example.results_noiseless store_one_image))
    as (fuel & rs & Hrs & Hlen).
  destruct (@fit_with_returns Example.nan_on_non_finite Example.bright
              Example.one_sigma Example.echo
              Example.two_digits Robust 0 Example.results_noiseless ∅
              store_one_image tt rs) as [res Hres].
  { intros r e p interp. simpl. lia. }
  { lia. }
  exists fuel, res.
  rewrite isophote_fit_unfold by exact H. cbn [fst].
  unfold radii_of.
  replace (INR (max_shape (store_one_image !!! 0%nat)) / 2) with 100.
  - unfold scale_of, fit_limit_of, option_or. rewrite !lookup_empty.
    cbn [default default_fit_limit mask_of Example.results_noiseless
         results_mask].
    rewrite Hrs. exact Hres.
  - unfold store_one_image.
    rewrite (lookup_total_singleton_eq (M := gmap nat)).
    unfold max_shape, Example.tall_image.
    rewrite length_replicate. cbn [replicate hd length Nat.max].
    rewrite INR_IZR_INZ.
    replace (Z.of_nat 200) with 200%Z by reflexivity. lra.
Qed.

(** X1, witness: the robust fitter on the image of 200 rows whose rings
    are all [1, 1, 1], from the initial angle 0. *)
Lemma fitted_angles_within_half_turn_witness :
  store_one_image !! 0%nat <> None /\
  exists fuel res pa,
    (@isophote_fit Example.nan_on_non_finite Example.bright
       Example.one_sigma Example.echo
       Example.two_digits Robust fuel 0 Example.results_noiseless ∅
       store_one_image tt).1 = Return (0%nat, res) /\
    res !! "fit pa"%string = Some (VList pa) /\
    Forall (fun a => 0 <= a <= PI) pa.
Proof.
  destruct bright_fit_returns as (H & fuel & res & Hrun).
  split; [exact H|].
  destruct (@fitted_angles_within_half_turn Example.nan_on_non_finite
              Example.bright Example.one_sigma
              Example.echo Example.two_digits Robust fuel 0
              Example.results_noiseless ∅ store_one_image tt 0%nat res H Hrun)
    as (pa & Hpa & _ & Hin).
  exists fuel, res, pa. split; [exact Hrun|]. split; [exact Hpa|].
  apply Hin. simpl. pose proof PI_RGT_0. lra.
Defined.

(** X2, witness: the same run, with [psf_fwhm = 1] and the scale 0.2. *)
Lemma fit_radii_within_reach_witness :
  store_one_image !! 0%nat <> None /\
  0 < psf_fwhm Example.results_noiseless /\
  0 < scale_of ∅ /\
  exists fuel res rs,
    (@isophote_fit Example.nan_on_non_finite Example.bright
       Example.one_sigma Example.echo
       Example.two_digits Robust fuel 0 Example.results_noiseless ∅
       store_one_image tt).1 = Return (0%nat, res) /\
    res !! "fit R"%string = Some (VList rs) /\
    Forall (fun r => 1.5 * psf_fwhm Example.results_noiseless <= r
                     < (1 + scale_of ∅)
                       * (INR (max_shape (store_one_image !!! 0%nat)) / 2))
           rs.
Proof.
  destruct bright_fit_returns as (H & fuel & res & Hrun).
  assert (Hpsf : 0 < psf_fwhm Example.results_noiseless) by (simpl; lra).
  assert (Hscale : 0 < scale_of ∅).
  { unfold scale_of, option_or. rewrite lookup_empty. simpl. lra. }
  split; [exact H|]. split; [exact Hpsf|]. split; [exact Hscale|].
  destruct (@fit_radii_within_reach Example.nan_on_non_finite Example.bright
              Example.one_sigma
              Example.echo Example.two_digits Robust fuel 0
              Example.results_noiseless ∅ store_one_image tt 0%nat res
              H Hpsf Hscale Hrun)
    as (rs & HR & _ & Hall).
  exists fuel, res, rs. auto.
Defined.

(** X3, witness: the same run. *)
Lemma fit_errors_are_not_negative_witness :
  store_one_image !! 0%nat <> None /\
  exists fuel res ellip_err,
    (@isophote_fit Example.nan_on_non_finite Example.bright
       Example.one_sigma Example.echo
       Example.two_digits Robust fuel 0 Example.results_noiseless ∅
       store_one_image tt).1 = Return (0%nat, res) /\
    res !! "fit ellip_err"%string = Some (VArray ellip_err) /\
    Forall (fun x => exists r, x = Fin r /\ 0 <= r) ellip_err.
Proof.
  destruct bright_fit_returns as (H & fuel & res & Hrun).
  split; [exact H|].
  destruct (@fit_errors_are_not_negative Example.nan_on_non_finite
              Example.bright Example.one_sigma
              Example.echo Example.two_digits Robust fuel 0
              Example.results_noiseless ∅ store_one_image tt 0%nat res H Hrun)
    as (ee & pe & He & _ & Hee & _).
  exists fuel, res, ee. auto.
Defined.

(** The results of [Example.results_noiseless] with a mask of one pixel,
    which is not set. *)
Definition results_unset_mask : results_t :=
  {| background := 0; background_noise := 0; psf_fwhm := 1;
     init_ellip := 1 / 2; init_pa := 0;
     results_center := {| center_x := 0; center_y := 0 |};
     results_mask := Some [[false]] |}.

(** X5, witness: the mask of one pixel that is not set. *)
Lemma unset_mask_is_no_mask_witness :
  np_any [[false]] = false /\
  @isophote_fit Example.nan_on_non_finite Example.bright
    Example.one_sigma Example.echo
    Example.two_digits Robust 0 0 results_unset_mask ∅ store_one_image tt
  = @isophote_fit Example.nan_on_non_finite Example.bright
      Example.one_sigma Example.echo
      Example.two_digits Robust 0 0 (without_mask results_unset_mask) ∅
      store_one_image tt.
Proof.
  split; [reflexivity|].
  exact (@unset_mask_is_no_mask Example.nan_on_non_finite Example.bright
           Example.one_sigma Example.echo
           Example.two_digits Robust 0 0 results_unset_mask ∅ store_one_image
           tt [[false]] eq_refl eq_refl).
Defined.

(** A fit with one radius, about to start, under a loss that is the same
    for every candidate: no pass finds anything better. *)
Definition one_radius_at_start : @fit_state Example.one_sigma :=
  @Build_fit_state Example.one_sigma [1 / 2] [0] 0 0 [0%nat] tt.

(** X4, witness: the fit with one radius under the level loss. *)
Lemma fit_loop_pass_count_witness :
  exists s',
    @fit_loop Example.bright Example.one_sigma Example.level_loss 1 1
      300 one_radius_at_start = Return s' /\
    (3 <= count s' <= 300)%nat.
Proof.
  destruct (@fit_loop_returns Example.bright Example.one_sigma
              Example.level_loss 1 1 300 one_radius_at_start)
    as (s' & Hs' & _).
  { intros E PA j r _ _ _. exists (Fin 1). reflexivity. }
  { repeat split; simpl; auto. }
  { simpl. lia. }
  exists s'. split; [exact Hs'|].
  exact (@fit_loop_pass_count Example.bright Example.one_sigma
           Example.level_loss 1 1 300 one_radius_at_start s'
           (Nat.le_refl 1) eq_refl eq_refl eq_refl Hs').
Defined.

(** X7, witness: the angles 0 and pi at one radius. *)
Lemma pa_smooth_ignores_half_turns_witness :
  @_pa_smooth Example.echo [1] [0 + IZR 1 * PI] 5
  = @_pa_smooth Example.echo [1] [0] 5.
Proof.
  apply (@pa_smooth_ignores_half_turns Example.echo [1] [0] [0 + IZR 1 * PI] 5).
  repeat constructor. exists 1%Z. reflexivity.
Defined.

(** A sampler that hands back the first row of the image as the ring. *)
Definition first_row : SharedFunctions :=
  {| _iso_extract := fun dat _ _ _ _ _ _ _ => hd [] dat;
     _x_to_eps := fun x => x;
     _inv_x_to_eps := fun x => x;
     Angle_TwoAngles := fun _ _ => 0 |}.

(** X6, witness: the ring 1, 2, 3 in the noise 1, and the ring 2, 4, 6
    in the noise 2. *)
Lemma losses_do_not_depend_on_the_flux_unit_witness :
  0 < 2 /\
  @loss_of Example.nan_on_non_finite first_row Robust
    [map Fin (map (Rmult 2) [1; 2; 3])] [1] [0] [0]
    0 Example.origin (2 * 1) None 1
  = @loss_of Example.nan_on_non_finite first_row Robust
      [map Fin [1; 2; 3]] [1] [0] [0]
      0 Example.origin 1 None 1.
Proof.
  assert (H : 0 < 2) by lra.
  split; [exact H|].
  apply (@losses_do_not_depend_on_the_flux_unit Example.nan_on_non_finite
           first_row Robust
           [map Fin [1; 2; 3]] [map Fin (map (Rmult 2) [1; 2; 3])]
           [1] [0] [0] 0 Example.origin 1 None 1 2 H).
  intros r e p interp. exists [1; 2; 3]. split; reflexivity.
Defined.

(** * The other pipeline steps

    The steps below raise more kinds of exceptions than the fitters do,
    and return scalars and texts besides arrays. *)

Module Py.

Inductive error : Type :=
| NameError (name : string)
| UnboundLocalError (name : string)
| KeyError (key : string)
| ValueError
| IndexError
| ZeroDivisionError.

(** What a call comes to: a value, an exception, or a loop that has not
    finished within the steps it was given. *)
Inductive result (A : Type) : Type :=
| Value (a : A)
| Error (e : error)
| Unfinished.
Arguments Value {A} a.
Arguments Error {A} e.
Arguments Unfinished {A}.

#[global] Instance result_ret : MRet result := fun A a => Value a.
#[global] Instance result_bind : MBind result := fun A B k m =>
  match m with
  | Value a => k a
  | Error e => Error e
  | Unfinished => Unfinished
  end.

(** A value of a returned dict. *)
Inductive pyvalue : Type :=
| PFloat (x : float64)
| PStr (s : string)
| PArray (l : list float64).

(** Python's builtin [max(a, b)] on two numbers: [a] unless [b > a]. *)
Definition py_max (a b : R) : R := if Rltb a b then b else a.

(** Python's builtin [min(a, b)]: [a] unless [b < a]. *)
Definition py_min2 (a b : R) : R := if Rltb b a then b else a.

(** [a / b] on Python floats. *)
Definition py_div (a b : R) : result R :=
  if Reqb b 0 then Error ZeroDivisionError else Value (a / b).

(** [arr[mask]] for a boolean array [mask]: the entries where the mask is
    set; numpy refuses a mask of another length. *)
Definition bool_index {A} (arr : list A) (mask : list bool) : result (list A) :=
  if (length arr =? length mask)%nat
  then Value (map fst (List.filter snd (zip arr mask)))
  else Error IndexError.

(** [arr[-1]] *)
Definition last_of {A} (arr : list A) : result A :=
  match last arr with
  | Some a => Value a
  | None => Error IndexError
  end.

(** [key in options and options[key]] *)
Definition enabled (flag : option bool) : bool := default false flag.

Lemma py_max_Rmax a b : py_max a b = Rmax a b.
Proof.
  unfold py_max, Rltb, Rmax.
  destruct (Rlt_dec a b), (Rle_dec a b); try reflexivity; lra.
Qed.

Lemma py_min2_Rmin a b : py_min2 a b = Rmin a b.
Proof.
  unfold py_min2, Rltb, Rmin.
  destruct (Rlt_dec b a), (Rle_dec a b); try reflexivity; lra.
Qed.

Lemma last_of_snoc {A} (l : list A) (a : A) : last_of (l ++ [a]) = Value a.
Proof. unfold last_of. rewrite last_snoc. reflexivity. Qed.

Lemma last_of_map {A B} (f : A -> B) (l : list A) (a : A) :
  last l = Some a -> last_of (map f l) = Value (f a).
Proof.
  unfold last_of. induction l as [|x l IH]; [discriminate|].
  destruct l as [|y l]; simpl in *.
  - intros H. injection H as ->. reflexivity.
  - exact IH.
Qed.

End Py.

(** * [Photutils_Fit]: the fit that photutils makes *)

Module Photutils.
Import Py.

(** [EllipseGeometry(x0, y0, sma, eps, pa)] *)
Record geometry : Type := {
  geo_x0 : R;
  geo_y0 : R;
  geo_sma : R;
  geo_eps : R;
  geo_pa : R
}.

(** One isophote of the list that [fit_image] returns, with the
    attributes that the step reads. *)
Record isophote : Type := {
  sma : R;
  eps : R;
  ellip_err : float64;
  pa : R;
  pa_err : float64
}.

(** [Ellipse(dat, geometry = geo).fit_image(fix_center = ..., linear = ...)] *)
Class PhotutilsEllipse : Type := {
  fit_image : image -> geometry -> bool -> bool -> list isophote
}.

(** The entries of [results] and [options] that the step reads. *)
Record results_t : Type := {
  background : R;
  background_noise : R;
  results_center : center;
  init_R : R;
  init_ellip : R;
  init_pa : R
}.

Record options_t : Type := {
  ap_name : string;
  ap_doplot : option bool;
  ap_plotpath : option string;
  ap_nologo : option bool
}.

(** The block under [ap_doplot] from [LSBImage] on: it draws the
    ellipses of [res] and saves the figure. *)
Class FitFigure : Type := {
  plot_fit : image -> results_t -> options_t -> gmap string value -> R ->
             result unit
}.

Section Step.
Context {PE : PhotutilsEllipse} {FF : FitFigure} {PF : PythonFormat}.

Definition Photutils_Fit (IMG : image) (results : results_t)
    (options : options_t) : result (image * gmap string value) :=
  let dat := subtract_background IMG (background results) in
  let geo := {| geo_x0 := center_x (results_center results);
                geo_y0 := center_y (results_center results);
                geo_sma := init_R results / 2;
                geo_eps := init_ellip results;
                geo_pa := init_pa results |} in
  let isolist := fit_image dat geo true false in
  sma_last ← last_of (map sma isolist);
  let res : gmap string value :=
    <["fit R"%string := VList (drop 1 (map sma isolist))]>
    (<["fit ellip"%string := VList (drop 1 (map eps isolist))]>
    (<["fit ellip_err"%string := VArray (drop 1 (map ellip_err isolist))]>
    (<["fit pa"%string := VList (drop 1 (map pa isolist))]>
    (<["fit pa_err"%string := VArray (drop 1 (map pa_err isolist))]>
    (<["auxfile fitlimit"%string := VStr (fitlimit_text sma_last)]> ∅))))) in
  _ ← (if enabled (ap_doplot options)
       then r_last ← last_of (drop 1 (map sma isolist));
            plot_fit dat results options res r_last
       else Value tt);
  Value (IMG, res).

(** The isophotes that the step gets from photutils. *)
Definition isolist_of (IMG : image) (results : results_t) : list isophote :=
  fit_image (subtract_background IMG (background results))
    {| geo_x0 := center_x (results_center results);
       geo_y0 := center_y (results_center results);
       geo_sma := init_R results / 2;
       geo_eps := init_ellip results;
       geo_pa := init_pa results |} true false.

(** X8.  [Photutils_Fit] hands back the isophotes of photutils without the
    first one, in five arrays of one length, and names the semi-major
    axis of the last one as the fit limit.  It raises [IndexError] when
    photutils has found no isophote, and, with plots on, when it has
    found just one, so that 'fit R' is empty. *)
Theorem photutils_fit_result
    (IMG : image) (results : results_t) (options : options_t) :
  (isolist_of IMG results = [] ->
   Photutils_Fit IMG results options = Error IndexError) /\
  (forall first,
     isolist_of IMG results = [first] -> enabled (ap_doplot options) = true ->
     Photutils_Fit IMG results options = Error IndexError) /\
  (forall first others last_one,
     isolist_of IMG results = first :: others ->
     last (first :: others) = Some last_one ->
     (enabled (ap_doplot options) = true ->
      others <> [] /\ forall dat res r, plot_fit dat results options res r = Value tt) ->
     exists res,
       Photutils_Fit IMG results options = Value (IMG, res) /\
       res !! "fit R"%string = Some (VList (map sma others)) /\
       res !! "fit ellip"%string = Some (VList (map eps others)) /\
       res !! "fit ellip_err"%string = Some (VArray (map ellip_err others)) /\
       res !! "fit pa"%string = Some (VList (map pa others)) /\
       res !! "fit pa_err"%string = Some (VArray (map pa_err others)) /\
       res !! "auxfile fitlimit"%string
       = Some (VStr (fitlimit_text (sma last_one)))).
Proof.
  unfold Photutils_Fit. fold (isolist_of IMG results).
  split; [|split].
  - intros ->. reflexivity.
  - intros first -> Hplot. cbn [map last_of last mbind result_bind].
    rewrite Hplot. reflexivity.
  - intros first others last_one -> Hlast Hplot.
    assert (Hsma : last_of (map sma (first :: others)) = Value (sma last_one)).
    { apply last_of_map. exact Hlast. }
    rewrite Hsma. cbn [mbind result_bind map skipn]. rewrite !drop_0.
    destruct (enabled (ap_doplot options)).
    + destruct (Hplot eq_refl) as [Hne Hdraw].
      assert (Hr : exists r, last_of (map sma others) = Value r).
      { destruct (last others) as [o|] eqn:E.
        - exists (sma o). apply last_of_map. exact E.
        - apply last_None in E. contradiction. }
      destruct Hr as [r ->]. cbn [mbind result_bind]. rewrite Hdraw.
      cbn [mbind result_bind]. eexists. split; [reflexivity|].
      repeat split;
        repeat first [ rewrite lookup_insert_eq
                     | rewrite lookup_insert_ne by discriminate ];
        reflexivity.
    + cbn [mbind result_bind]. eexists. split; [reflexivity|].
      repeat split;
        repeat first [ rewrite lookup_insert_eq
                     | rewrite lookup_insert_ne by discriminate ];
        reflexivity.
Qed.

End Step.

End Photutils.

(** * [Isophote_Fit_Forced]: a fit read from a profile file *)

Module Forced.
Import Py.

(** ** Python strings

    A character is one of the 256 code points of [ascii]. *)

(** [c.isspace()] *)
Definition is_space (c : ascii) : bool :=
  let n := nat_of_ascii c in
  ((9 <=? n) && (n <=? 13) || (28 <=? n) && (n <=? 32)
   || (n =? 133) || (n =? 160))%nat.

Fixpoint lstrip (s : string) : string :=
  match s with
  | EmptyString => EmptyString
  | String c s' => if is_space c then lstrip s' else s
  end.

Fixpoint rstrip (s : string) : string :=
  match s with
  | EmptyString => EmptyString
  | String c s' =>
      match rstrip s' with
      | EmptyString => if is_space c then EmptyString else String c EmptyString
      | r => String c r
      end
  end.

(** [s.strip()] *)
Definition strip (s : string) : string := rstrip (lstrip s).

(** [s.split(sep)] for a separator of one character: one piece more than
    there are separators. *)
Fixpoint split (sep : ascii) (s : string) : list string :=
  match s with
  | EmptyString => [EmptyString]
  | String c s' =>
      if Ascii.eqb c sep then EmptyString :: split sep s'
      else match split sep s' with
           | [] => [String c EmptyString]
           | piece :: pieces => String c piece :: pieces
           end
  end.

(** [s[0]] *)
Definition first_char (s : string) : result ascii :=
  match s with
  | EmptyString => Error IndexError
  | String c _ => Value c
  end.

(** [float(s)]: the number that the text spells, where it spells one;
    the empty text spells none. *)
Class PythonFloat : Type := {
  float : string -> option float64;
  float_empty : float "" = None
}.

(** ** The step *)

(** [PA_shift_convention(pa, deg = ...)] of
    [autoprofutils.SharedFunctions]. *)
Class SharedFunctionsForced : Type := {
  PA_shift_convention : list float64 -> bool -> list float64
}.

(** The entries of [options] that the step reads; the file that
    [ap_forcing_profile] names is given by its lines. *)
Record options_t : Type := {
  ap_forcing_profile : string;
  ap_pixscale : R;
  ap_name : string;
  ap_doplot : option bool;
  ap_plotpath : option string;
  ap_plotdpi : option R;
  ap_nologo : option bool
}.

(** The dict [force]: a list of numbers under each name of the header. *)
Abbreviation force_t := (gmap string (list float64)).

(** The block under [ap_doplot], which draws the ellipses with
    [LSBImage], matplotlib and [AddLogo] and saves the figure.  It
    reads [force['R'][-1]], and [force['R'][i]], [force['ellip'][i]]
    and [force['pa'][i]] for every second [i], and raises where one of
    them is missing. *)
Class ForcedFigure : Type := {
  plot_forced_fit : image -> results_t -> options_t -> force_t -> result unit
}.

(** [d[key]] *)
Definition get {A} (d : gmap string A) (key : string) : result A :=
  match d !! key with
  | Some a => Value a
  | None => Error (KeyError key)
  end.

(** The [for i, l in enumerate(raw)] that looks for the first line not
    starting with '#': its index, if there is one. *)
Fixpoint first_uncommented (i : nat) (raw : list string) : result (option nat) :=
  match raw with
  | [] => Value None
  | l :: raw' =>
      c ← first_char l;
      if negb (Ascii.eqb c "#") then Value (Some i)
      else first_uncommented (S i) raw'
  end.

Section Step.
Context {PF : PythonFloat} {SF : SharedFunctionsForced} {FF : ForcedFigure}.

(** [force[h].append(float(d.strip()))] *)
Definition add_cell (force : force_t) (cell : string * string) : result force_t :=
  let '(d, h) := cell in
  column ← get force h;
  match float (strip d) with
  | Some x => Value (<[h := column ++ [x]]> force)
  | None => Error ValueError
  end.

Fixpoint add_cells (force : force_t) (cells : list (string * string))
  : result force_t :=
  match cells with
  | [] => Value force
  | cell :: cells' => force' ← add_cell force cell; add_cells force' cells'
  end.

(** [for l in raw[readfrom+2:]: for d, h in zip(l.split(','), header)] *)
Fixpoint add_rows (force : force_t) (header : list string) (rows : list string)
  : result force_t :=
  match rows with
  | [] => Value force
  | l :: rows' =>
      force' ← add_cells force (zip (split "," l) header);
      add_rows force' header rows'
  end.

(** The body of the [with]: the dict [force] read from the lines. *)
Definition read_profile (raw : list string) : result force_t :=
  found ← first_uncommented 0 raw;
  readfrom ← match found with
             | Some i => Value i
             | None => Error (UnboundLocalError "readfrom")
             end;
  line ← match raw !! readfrom with
         | Some l => Value l
         | None => Error IndexError
         end;
  let header := map strip (split "," line) in
  let force : force_t := list_to_map (map (fun h => (h, [])) header) in
  add_rows force header (drop (readfrom + 2) raw).

(** [arr * np.pi / 180] *)
Definition to_radians (arr : list float64) : list float64 :=
  map (fun x => fdiv (fmul x (Fin PI)) (Fin 180)) arr.

Definition Isophote_Fit_Forced (raw : list string) (IMG : image)
    (results : results_t) (options : options_t)
  : result (image * gmap string (list float64)) :=
  force ← read_profile raw;
  pa ← get force "pa"%string;
  let force := <["pa"%string := PA_shift_convention pa true]> force in
  _ ← (if enabled (ap_doplot options)
       then plot_forced_fit IMG results options force
       else Value tt);
  ellip ← get force "ellip"%string;
  pa ← get force "pa"%string;
  R_ ← get force "R"%string;
  let res : gmap string (list float64) :=
    <["fit ellip"%string := ellip]>
    (<["fit pa"%string := to_radians pa]>
    (<["fit R"%string :=
         map (fun r => fdiv r (Fin (ap_pixscale options))) R_]> ∅)) in
  if bool_decide (is_Some (force !! "ellip_e"%string)
                  /\ is_Some (force !! "pa_e"%string))
  then
    ellip_e ← get force "ellip_e"%string;
    pa_e ← get force "pa_e"%string;
    Value (IMG,
           <["fit pa_err"%string := to_radians pa_e]>
           (<["fit ellip_err"%string := ellip_e]> res))
  else Value (IMG, res).

End Step.

(** ** Properties *)

Lemma bind_Value {A B} (m : result A) (k : A -> result B) (a : A) :
  m = Value a -> (m ≫= k) = k a.
Proof. intros ->. reflexivity. Qed.

Lemma bind_Error {A B} (m : result A) (k : A -> result B) (e : error) :
  m = Error e -> (m ≫= k) = Error e.
Proof. intros ->. reflexivity. Qed.

Lemma get_Value {A} (d : gmap string A) (key : string) (a : A) :
  d !! key = Some a -> get d key = Value a.
Proof. unfold get. intros ->. reflexivity. Qed.

Lemma get_KeyError {A} (d : gmap string A) (key : string) :
  d !! key = None -> get d key = Error (KeyError key).
Proof. unfold get. intros ->. reflexivity. Qed.

(** *** Lines *)

(** A line that starts with '#', and a line that starts with something
    else. *)
Definition commented (l : string) : Prop := exists s, l = String "#" s.

Definition uncommented (l : string) : Prop :=
  exists c s, l = String c s /\ c <> "#"%char.

Lemma first_uncommented_none i raw :
  Forall commented raw -> first_uncommented i raw = Value None.
Proof.
  intros H. revert i. induction H as [|l raw [s ->] _ IH]; intros i; simpl;
    [reflexivity | apply IH].
Qed.

Lemma first_uncommented_found i comments hline rest :
  Forall commented comments -> uncommented hline ->
  first_uncommented i (comments ++ hline :: rest)
  = Value (Some (i + length comments)%nat).
Proof.
  intros H (c & s & -> & Hc). revert i.
  induction H as [|l raw [s' ->] _ IH]; intros i; simpl.
  - destruct (Ascii.eqb_spec c "#"); [contradiction|]. simpl.
    rewrite Nat.add_0_r. reflexivity.
  - rewrite IH. do 2 f_equal. lia.
Qed.

Lemma split_nonempty sep s : split sep s <> [].
Proof.
  destruct s as [|c s]; simpl; [discriminate|].
  destruct (Ascii.eqb c sep); [discriminate|].
  destruct (split sep s); discriminate.
Qed.

(** A line of blanks has no comma, and nothing is left of it once it is
    stripped. *)
Fixpoint all_blank (s : string) : bool :=
  match s with
  | EmptyString => true
  | String c s' => is_space c && all_blank s'
  end.

Lemma lstrip_all_blank s : all_blank s = true -> lstrip s = EmptyString.
Proof.
  induction s as [|c s IH]; simpl; [reflexivity|].
  intros H. apply andb_true_iff in H as [-> H]. auto.
Qed.

Lemma strip_all_blank s : all_blank s = true -> strip s = EmptyString.
Proof. intros H. unfold strip. rewrite lstrip_all_blank by exact H. reflexivity. Qed.

Lemma split_all_blank s : all_blank s = true -> split "," s = [s].
Proof.
  induction s as [|c s IH]; simpl; [reflexivity|].
  intros H. apply andb_true_iff in H as [Hc H].
  destruct (Ascii.eqb_spec c ","); [subst c; discriminate|].
  rewrite IH by exact H. reflexivity.
Qed.

Section StepProperties.
Context {PF : PythonFloat} {SF : SharedFunctionsForced} {FF : ForcedFigure}.

(** *** What the loops leave in [force] *)

(** The numbers that the cells of one line add under the name [h], in
    the order of the line, and the numbers that the lines add. *)
Definition values_under (h : string) (cells : list (string * string))
  : list float64 :=
  omap (fun cell : string * string =>
          if decide (cell.2 = h) then float (strip cell.1) else None) cells.

Definition column (header : list string) (rows : list string) (h : string)
  : list float64 :=
  concat (map (fun l => values_under h (zip (split "," l) header)) rows).

(** Every cell that stands under a name of the header spells a number. *)
Definition readable_cells (cells : list (string * string)) : Prop :=
  Forall (fun cell : string * string => is_Some (float (strip cell.1))) cells.

Definition readable (header : list string) (rows : list string) : Prop :=
  Forall (fun l => readable_cells (zip (split "," l) header)) rows.

(** The dict [force] with the lists [more h] appended. *)
Definition extends (force force' : force_t) (more : string -> list float64)
  : Prop :=
  forall h, force' !! h = (fun col => col ++ more h) <$> (force !! h).

Lemma add_cells_extends cells :
  forall force,
    Forall (fun cell : string * string => is_Some (force !! cell.2)) cells ->
    readable_cells cells ->
    exists force',
      add_cells force cells = Value force' /\
      extends force force' (fun h => values_under h cells).
Proof.
  induction cells as [|[d h0] cells IH]; intros force Hdom Hread.
  - exists force. split; [reflexivity|]. intros h. simpl.
    destruct (force !! h); simpl; [rewrite app_nil_r|]; reflexivity.
  - inversion Hdom as [|? ? [col Hcol] Hdom']; subst.
    inversion Hread as [|? ? [x Hx] Hread']; subst. simpl in Hcol, Hx.
    destruct (IH (<[h0 := col ++ [x]]> force)) as (force' & Hrun & Hext).
    { eapply Forall_impl; [exact Hdom'|]. intros [d' h'] [c Hc]. simpl in *.
      destruct (decide (h' = h0)) as [->|Hne].
      - rewrite lookup_insert_eq. eauto.
      - rewrite lookup_insert_ne by auto. eauto. }
    { exact Hread'. }
    exists force'. split.
    + simpl. rewrite (get_Value _ _ _ Hcol). cbn [mbind result_bind].
      rewrite Hx. exact Hrun.
    + intros h. rewrite Hext. unfold values_under. simpl.
      destruct (decide (h0 = h)) as [->|Hne].
      * rewrite lookup_insert_eq, Hcol, Hx. simpl.
        rewrite <- app_assoc. reflexivity.
      * rewrite lookup_insert_ne by auto. reflexivity.
Qed.

Lemma zip_header_in_dom (force : force_t) header pieces :
  (forall h, h ∈ header -> is_Some (force !! h)) ->
  Forall (fun cell : string * string => is_Some (force !! cell.2))
         (zip pieces header).
Proof.
  intros Hdom. revert pieces.
  induction header as [|h header IH]; intros [|d pieces]; simpl;
    try constructor.
  - simpl. apply Hdom. left.
  - apply IH. intros h' Hh'. apply Hdom. right. exact Hh'.
Qed.

Lemma add_rows_extends header rows :
  forall force,
    (forall h, h ∈ header -> is_Some (force !! h)) ->
    readable header rows ->
    exists force',
      add_rows force header rows = Value force' /\
      extends force force' (column header rows).
Proof.
  induction rows as [|l rows IH]; intros force Hdom Hread.
  - exists force. split; [reflexivity|]. intros h. unfold column. simpl.
    destruct (force !! h); simpl; [rewrite app_nil_r|]; reflexivity.
  - inversion Hread as [|? ? Hl Hrows]; subst.
    destruct (add_cells_extends (zip (split "," l) header) force)
      as (force1 & Hrun1 & Hext1).
    { apply zip_header_in_dom. exact Hdom. }
    { exact Hl. }
    destruct (IH force1) as (force' & Hrun & Hext).
    { intros h Hh. rewrite Hext1. destruct (Hdom h Hh) as [c ->]. simpl. eauto. }
    { exact Hrows. }
    exists force'. split.
    + simpl. rewrite Hrun1. exact Hrun.
    + intros h. rewrite Hext, Hext1. unfold column. simpl.
      destruct (force !! h); simpl; [rewrite <- app_assoc|]; reflexivity.
Qed.

Lemma empty_columns_lookup (header : list string) (h : string) :
  (list_to_map (map (fun h => (h, [])) header) : force_t) !! h
  = if decide (h ∈ header) then Some [] else None.
Proof.
  induction header as [|h0 header IH]; simpl.
  - rewrite lookup_empty. destruct (decide (h ∈ [])) as [Hin|]; [|reflexivity].
    inversion Hin.
  - destruct (decide (h = h0)) as [->|Hne].
    + rewrite lookup_insert_eq.
      destruct (decide (h0 ∈ h0 :: header)) as [|Hn]; [reflexivity|].
      exfalso. apply Hn. left.
    + rewrite lookup_insert_ne by auto. rewrite IH.
      destruct (decide (h ∈ header)) as [Hin|Hn];
        destruct (decide (h ∈ h0 :: header)) as [Hin'|Hn']; try reflexivity.
      * exfalso. apply Hn'. right. exact Hin.
      * exfalso. inversion Hin'; subst; auto.
Qed.

(** Where the header stands, and what is read below it. *)
Lemma read_profile_below_header comments hline rest :
  Forall commented comments -> uncommented hline ->
  read_profile (comments ++ hline :: rest)
  = add_rows (list_to_map (map (fun h => (h, [])) (map strip (split "," hline))))
             (map strip (split "," hline)) (drop 1 rest).
Proof.
  intros Hc Hh. unfold read_profile.
  rewrite (first_uncommented_found 0 comments hline rest Hc Hh).
  cbn [mbind result_bind]. rewrite Nat.add_0_l.
  rewrite lookup_app_r by lia. rewrite Nat.sub_diag. cbn [lookup list_lookup].
  cbn [mbind result_bind].
  replace (length comments + 2)%nat with (length comments + 2 + 0)%nat by lia.
  rewrite <- Nat.add_assoc.
  rewrite drop_app_add. reflexivity.
Qed.

Lemma read_profile_columns comments hline rest :
  Forall commented comments -> uncommented hline ->
  readable (map strip (split "," hline)) (drop 1 rest) ->
  exists force,
    read_profile (comments ++ hline :: rest) = Value force /\
    forall h,
      force !! h
      = if decide (h ∈ map strip (split "," hline))
        then Some (column (map strip (split "," hline)) (drop 1 rest) h)
        else None.
Proof.
  intros Hc Hh Hread. rewrite read_profile_below_header by assumption.
  destruct (add_rows_extends (map strip (split "," hline)) (drop 1 rest)
              (list_to_map (map (fun h => (h, [])) (map strip (split "," hline)))))
    as (force & Hrun & Hext).
  { intros h Hin. rewrite empty_columns_lookup.
    destruct (decide _); [eauto | contradiction]. }
  { exact Hread. }
  exists force. split; [exact Hrun|].
  intros h. rewrite Hext, empty_columns_lookup.
  destruct (decide _); reflexivity.
Qed.

(** *** The step as a whole *)

(** The plot, where it is asked for, comes back. *)
Definition plot_returns (IMG : image) (results : results_t) (options : options_t)
  : Prop :=
  enabled (ap_doplot options) = true ->
  forall force, plot_forced_fit IMG results options force = Value tt.

Lemma plot_step IMG results options force :
  plot_returns IMG results options ->
  (if enabled (ap_doplot options)
   then plot_forced_fit IMG results options force
   else Value tt) = Value tt.
Proof.
  unfold plot_returns. intros H.
  destruct (enabled (ap_doplot options)); [apply H|]; reflexivity.
Qed.

Ltac lookups :=
  repeat first [ rewrite lookup_insert_eq
               | rewrite lookup_insert_ne by discriminate
               | rewrite lookup_empty ].

(** What the step makes of the dict read from the file. *)
Lemma forced_fit_of_columns raw IMG results options
    (header : list string) (cols : string -> list float64) :
  plot_returns IMG results options ->
  (exists force,
     read_profile raw = Value force /\
     forall h, force !! h = if decide (h ∈ header) then Some (cols h) else None) ->
  "pa"%string ∈ header -> "ellip"%string ∈ header -> "R"%string ∈ header ->
  exists res,
    Isophote_Fit_Forced raw IMG results options = Value (IMG, res) /\
    res !! "fit ellip"%string = Some (cols "ellip"%string) /\
    res !! "fit pa"%string
    = Some (to_radians (PA_shift_convention (cols "pa"%string) true)) /\
    res !! "fit R"%string
    = Some (map (fun r => fdiv r (Fin (ap_pixscale options)))
                (cols "R"%string)) /\
    res !! "fit ellip_err"%string
    = (if decide ("ellip_e"%string ∈ header /\ "pa_e"%string ∈ header)
       then Some (cols "ellip_e"%string) else None) /\
    res !! "fit pa_err"%string
    = (if decide ("ellip_e"%string ∈ header /\ "pa_e"%string ∈ header)
       then Some (to_radians (cols "pa_e"%string)) else None).
Proof.
  intros Hplot (force & Hread & Hforce) Hpa Hellip HR.
  unfold Isophote_Fit_Forced. rewrite Hread. cbn [mbind result_bind].
  assert (Hin : forall h, h ∈ header -> force !! h = Some (cols h)).
  { intros h Hh. rewrite Hforce. destruct (decide _); [reflexivity | contradiction]. }
  rewrite (get_Value _ _ _ (Hin _ Hpa)). cbn [mbind result_bind].
  rewrite plot_step by exact Hplot. cbn [mbind result_bind].
  rewrite (get_Value _ "ellip"%string (cols "ellip"%string))
    by (rewrite lookup_insert_ne by discriminate; auto).
  cbn [mbind result_bind].
  rewrite (get_Value _ "pa"%string _ (lookup_insert_eq _ _ _)).
  cbn [mbind result_bind].
  rewrite (get_Value _ "R"%string (cols "R"%string))
    by (rewrite lookup_insert_ne by discriminate; auto).
  cbn [mbind result_bind].
  rewrite !lookup_insert_ne by discriminate. rewrite !Hforce.
  destruct (decide ("ellip_e"%string ∈ header)) as [He|He];
    destruct (decide ("pa_e"%string ∈ header)) as [Hp|Hp].
  - rewrite bool_decide_eq_true_2 by (split; eauto).
    unfold get. rewrite !lookup_insert_ne by discriminate.
    rewrite (Hin _ He), (Hin _ Hp). cbn [mbind result_bind].
    destruct (decide _) as [_|Hn]; [|exfalso; apply Hn; auto].
    eexists. split; [reflexivity|]. lookups. auto 10.
  - rewrite bool_decide_eq_false_2 by (intros [_ [? H]]; discriminate).
    destruct (decide _) as [[_ Hn]|_]; [contradiction|].
    eexists. split; [reflexivity|]. lookups. auto 10.
  - rewrite bool_decide_eq_false_2 by (intros [[? H] _]; discriminate).
    destruct (decide _) as [[Hn _]|_]; [contradiction|].
    eexists. split; [reflexivity|]. lookups. auto 10.
  - rewrite bool_decide_eq_false_2 by (intros [[? H] _]; discriminate).
    destruct (decide _) as [[Hn _]|_]; [contradiction|].
    eexists. split; [reflexivity|]. lookups. auto 10.
Qed.

(** X9.  A profile file is comment lines, the header, and the lines under it,
    of which the first one (the units) is passed over.  When every cell
    under a name of the header spells a number and the header names
    'pa', 'ellip' and 'R', the step returns the image it was given and
    the lists gathered under these names: the ellipticities as they are,
    the position angles through [PA_shift_convention] and in radians,
    the radii divided by the pixel scale; the two error arrays are there
    when the header names both 'ellip_e' and 'pa_e', and not otherwise. *)
Theorem forced_fit_columns
    (comments : list string) (hline : string) (rest : list string)
    (IMG : image) (results : results_t) (options : options_t) :
  let header := map strip (split "," hline) in
  let rows := drop 1 rest in
  Forall commented comments -> uncommented hline ->
  readable header rows ->
  "pa"%string ∈ header -> "ellip"%string ∈ header -> "R"%string ∈ header ->
  plot_returns IMG results options ->
  exists res,
    Isophote_Fit_Forced (comments ++ hline :: rest) IMG results options
    = Value (IMG, res) /\
    res !! "fit ellip"%string = Some (column header rows "ellip"%string) /\
    res !! "fit pa"%string
    = Some (to_radians
              (PA_shift_convention (column header rows "pa"%string) true)) /\
    res !! "fit R"%string
    = Some (map (fun r => fdiv r (Fin (ap_pixscale options)))
                (column header rows "R"%string)) /\
    res !! "fit ellip_err"%string
    = (if decide ("ellip_e"%string ∈ header /\ "pa_e"%string ∈ header)
       then Some (column header rows "ellip_e"%string) else None) /\
    res !! "fit pa_err"%string
    = (if decide ("ellip_e"%string ∈ header /\ "pa_e"%string ∈ header)
       then Some (to_radians (column header rows "pa_e"%string)) else None).
Proof.
  intros header rows Hc Hh Hread Hpa Hellip HR Hplot.
  apply forced_fit_of_columns; auto.
  apply read_profile_columns; assumption.
Qed.

(** *** Tables *)

(** The number in the cell [j] of a line. *)
Definition cell_of (j : nat) (l : string) : option float64 :=
  d ← split "," l !! j; float (strip d).

Lemma values_under_absent h header pieces :
  h ∉ header -> values_under h (zip pieces header) = [].
Proof.
  revert pieces. induction header as [|h0 header IH]; intros [|d pieces] Hn;
    try reflexivity.
  unfold values_under. simpl.
  destruct (decide (h0 = h)) as [->|_]; [exfalso; apply Hn; left|].
  apply IH. intros Hin. apply Hn. right. exact Hin.
Qed.

Lemma values_under_cell h header :
  forall pieces j,
    NoDup header -> header !! j = Some h ->
    (length header <= length pieces)%nat ->
    readable_cells (zip pieces header) ->
    exists x, (pieces !! j ≫= fun d => float (strip d)) = Some x /\
              values_under h (zip pieces header) = [x].
Proof.
  induction header as [|h0 header IH]; intros pieces j Hnd Hj Hlen Hread;
    [discriminate|].
  destruct pieces as [|d pieces]; [simpl in Hlen; lia|].
  inversion Hnd as [|? ? Hnotin Hnd']; subst.
  inversion Hread as [|? ? [x Hx] Hread']; subst. simpl in Hx.
  destruct j as [|j].
  - injection Hj as ->. exists x. split; [exact Hx|].
    unfold values_under. simpl. rewrite decide_True by reflexivity.
    rewrite Hx. f_equal. apply (values_under_absent h header pieces Hnotin).
  - simpl in Hj. destruct (IH pieces j Hnd' Hj) as (y & Hy & Hv).
    { simpl in Hlen. lia. }
    { exact Hread'. }
    exists y. split; [exact Hy|].
    unfold values_under. simpl.
    destruct (decide (h0 = h)) as [->|_].
    + exfalso. apply Hnotin. eapply list_elem_of_lookup_2. exact Hj.
    + exact Hv.
Qed.

(** In a table whose header names no column twice and whose lines all
    have a cell for every name, the list under a name holds, line by
    line, the cell of its column. *)
Lemma column_of_table header rows j h :
  NoDup header -> header !! j = Some h ->
  Forall (fun l => (length header <= length (split "," l))%nat) rows ->
  readable header rows ->
  map Some (column header rows h) = map (cell_of j) rows.
Proof.
  intros Hnd Hj Hlong Hread. unfold column.
  induction rows as [|l rows IH]; [reflexivity|].
  inversion Hlong; subst. inversion Hread; subst.
  destruct (values_under_cell h header (split "," l) j) as (x & Hx & Hv); auto.
  simpl. rewrite Hv. simpl. unfold cell_of at 1. rewrite Hx.
  f_equal. apply IH; assumption.
Qed.

(** X10.  For a table, a header that names no column twice over lines that
    all have a cell for every name: the arrays of the fit have one entry
    per line under the units, the number in the cell of the column
    'ellip', 'pa' or 'R' of that line (the angles shifted and in radians,
    the radii divided by the pixel scale). *)
Theorem forced_fit_of_table
    (comments : list string) (hline units : string) (rows : list string)
    (IMG : image) (results : results_t) (options : options_t)
    (j_ellip j_pa j_R : nat) :
  let header := map strip (split "," hline) in
  Forall commented comments -> uncommented hline ->
  NoDup header ->
  header !! j_ellip = Some "ellip"%string ->
  header !! j_pa = Some "pa"%string ->
  header !! j_R = Some "R"%string ->
  Forall (fun l => (length header <= length (split "," l))%nat) rows ->
  readable header rows ->
  plot_returns IMG results options ->
  exists res ellip pa R_,
    Isophote_Fit_Forced (comments ++ hline :: units :: rows) IMG results options
    = Value (IMG, res) /\
    res !! "fit ellip"%string = Some ellip /\
    res !! "fit pa"%string
    = Some (to_radians (PA_shift_convention pa true)) /\
    res !! "fit R"%string
    = Some (map (fun r => fdiv r (Fin (ap_pixscale options))) R_) /\
    map Some ellip = map (cell_of j_ellip) rows /\
    map Some pa = map (cell_of j_pa) rows /\
    map Some R_ = map (cell_of j_R) rows /\
    length ellip = length rows /\ length R_ = length rows.
Proof.
  intros header Hc Hh Hnd He Hp HR Hlong Hread Hplot.
  destruct (forced_fit_of_columns (comments ++ hline :: units :: rows) IMG
              results options header (column header rows) Hplot)
    as (res & Hrun & H1 & H2 & H3 & _);
    try (eapply list_elem_of_lookup_2; eassumption).
  { apply (read_profile_columns comments hline (units :: rows)); assumption. }
  exists res, (column header rows "ellip"%string),
    (column header rows "pa"%string), (column header rows "R"%string).
  pose proof (column_of_table header rows _ _ Hnd He Hlong Hread) as Ce.
  pose proof (column_of_table header rows _ _ Hnd Hp Hlong Hread) as Cp.
  pose proof (column_of_table header rows _ _ Hnd HR Hlong Hread) as Cr.
  repeat split; auto.
  - apply (f_equal length) in Ce. rewrite !length_map in Ce. exact Ce.
  - apply (f_equal length) in Cr. rewrite !length_map in Cr. exact Cr.
Qed.

(** X11.  A file with no line but comments, an empty file among them, has no
    header: the name [readfrom] is never bound, and the step raises
    [UnboundLocalError] where it reads the header. *)
Theorem forced_fit_without_header
    (raw : list string) (IMG : image) (results : results_t)
    (options : options_t) :
  Forall commented raw ->
  Isophote_Fit_Forced raw IMG results options
  = Error (UnboundLocalError "readfrom").
Proof.
  intros H. unfold Isophote_Fit_Forced, read_profile.
  rewrite (first_uncommented_none 0 raw H). reflexivity.
Qed.

Lemma add_rows_app force header rows1 rows2 :
  add_rows force header (rows1 ++ rows2)
  = (force' ← add_rows force header rows1; add_rows force' header rows2).
Proof.
  revert force. induction rows1 as [|l rows1 IH]; intros force; simpl;
    [reflexivity|].
  destruct (add_cells force _); simpl; auto.
Qed.

(** X12.  A line of blanks among the lines under the units, such as an empty
    last line, stops the step with [ValueError]: its one cell spells no
    number. *)
Theorem forced_fit_blank_line
    (comments : list string) (hline units : string)
    (rows : list string) (blank : string) (more : list string)
    (IMG : image) (results : results_t) (options : options_t) :
  Forall commented comments -> uncommented hline ->
  readable (map strip (split "," hline)) rows ->
  all_blank blank = true ->
  Isophote_Fit_Forced (comments ++ hline :: units :: rows ++ blank :: more)
    IMG results options
  = Error ValueError.
Proof.
  intros Hc Hh Hread Hblank. unfold Isophote_Fit_Forced.
  rewrite read_profile_below_header by assumption.
  replace (drop 1 (units :: rows ++ blank :: more))
    with (rows ++ blank :: more) by reflexivity.
  rewrite add_rows_app.
  set (header := map strip (split "," hline)) in *.
  destruct (add_rows_extends header rows
              (list_to_map (map (fun h => (h, [])) header)))
    as (force & Hrun & Hext).
  { intros h Hin. rewrite empty_columns_lookup.
    destruct (decide _); [eauto | contradiction]. }
  { exact Hread. }
  rewrite Hrun. cbn [mbind result_bind add_rows].
  rewrite (split_all_blank blank Hblank).
  destruct header as [|h0 header'] eqn:Eh.
  { exfalso. unfold header in Eh. apply map_eq_nil in Eh.
    revert Eh. apply split_nonempty. }
  cbn [zip zip_with add_cells add_cell].
  assert (Hcol : is_Some (force !! h0)).
  { rewrite Hext, empty_columns_lookup.
    destruct (decide _) as [|Hn]; [simpl; eauto|].
    exfalso. apply Hn. left. }
  destruct Hcol as [col Hcol]. rewrite (get_Value _ _ _ Hcol).
  cbn [mbind result_bind].
  rewrite (strip_all_blank blank Hblank), float_empty. reflexivity.
Qed.

(** X13.  A profile without a column 'pa' stops the step with
    [KeyError('pa')], whether a plot is asked for or not.  When no plot
    is asked for, a profile with a column 'pa' and without a column
    'ellip' stops it with [KeyError('ellip')], and one with both and
    without a column 'R' with [KeyError('R')]. *)
Theorem forced_fit_missing_column
    (comments : list string) (hline : string) (rest : list string)
    (IMG : image) (results : results_t) (options : options_t) :
  let header := map strip (split "," hline) in
  Forall commented comments -> uncommented hline ->
  readable header (drop 1 rest) ->
  let out :=
    Isophote_Fit_Forced (comments ++ hline :: rest) IMG results options in
  ("pa"%string ∉ header -> out = Error (KeyError "pa")) /\
  (default false (ap_doplot options) = false ->
   "pa"%string ∈ header -> "ellip"%string ∉ header ->
   out = Error (KeyError "ellip")) /\
  (default false (ap_doplot options) = false ->
   "pa"%string ∈ header -> "ellip"%string ∈ header -> "R"%string ∉ header ->
   out = Error (KeyError "R")).
Proof.
  intros header Hc Hh Hread out. unfold out, Isophote_Fit_Forced.
  destruct (read_profile_columns comments hline rest Hc Hh Hread)
    as (force & -> & Hforce).
  fold header in Hforce. cbn [mbind result_bind].
  assert (Hin : forall h, h ∈ header ->
            force !! h = Some (column header (drop 1 rest) h)).
  { intros h Hh'. rewrite Hforce. destruct (decide _); [reflexivity | contradiction]. }
  assert (Hout : forall h, h ∉ header -> force !! h = None).
  { intros h Hh'. rewrite Hforce. destruct (decide _); [contradiction | reflexivity]. }
  split; [|split].
  - intros Hpa. rewrite (get_KeyError _ _ (Hout _ Hpa)). reflexivity.
  - intros Hplot Hpa Hellip. rewrite (get_Value _ _ _ (Hin _ Hpa)).
    cbn [mbind result_bind]. unfold enabled. rewrite Hplot.
    cbn [mbind result_bind].
    rewrite (get_KeyError _ "ellip"%string)
      by (rewrite lookup_insert_ne by discriminate; auto).
    reflexivity.
  - intros Hplot Hpa Hellip HR. rewrite (get_Value _ _ _ (Hin _ Hpa)).
    cbn [mbind result_bind]. unfold enabled. rewrite Hplot.
    cbn [mbind result_bind].
    rewrite (get_Value _ "ellip"%string (column header (drop 1 rest) "ellip"%string))
      by (rewrite lookup_insert_ne by discriminate; auto).
    cbn [mbind result_bind].
    rewrite (get_Value _ "pa"%string _ (lookup_insert_eq _ _ _)).
    cbn [mbind result_bind].
    rewrite (get_KeyError _ "R"%string)
      by (rewrite lookup_insert_ne by discriminate; auto).
    reflexivity.
Qed.

(** X14.  The comments above the header and the line under it are not read:
    the step comes to the same, result or exception, whatever they
    hold.  A file that has its first data line right under the header
    loses that line. *)
Theorem forced_fit_passes_over_the_units
    (comments : list string) (hline units units' : string)
    (rows : list string)
    (IMG : image) (results : results_t) (options : options_t) :
  Forall commented comments -> uncommented hline ->
  Isophote_Fit_Forced (comments ++ hline :: units :: rows) IMG results options
  = Isophote_Fit_Forced (hline :: units' :: rows) IMG results options.
Proof.
  intros Hc Hh. unfold Isophote_Fit_Forced.
  rewrite read_profile_below_header by assumption.
  change (hline :: units' :: rows) with ([] ++ hline :: units' :: rows).
  rewrite (read_profile_below_header [] hline (units' :: rows))
    by (auto; constructor).
  reflexivity.
Qed.

End StepProperties.

(** ** A concrete profile *)

(** A reader of whole numbers written in digits, a shift that leaves the
    angles, and a plot that comes back. *)
Definition digit (c : ascii) : option nat :=
  let n := nat_of_ascii c in
  if ((48 <=? n) && (n <=? 57))%nat then Some (n - 48)%nat else None.

Fixpoint number (acc : nat) (s : string) : option nat :=
  match s with
  | EmptyString => Some acc
  | String c s' => d ← digit c; number (10 * acc + d) s'
  end.

Definition whole_numbers : PythonFloat :=
  {| float := fun s =>
       match s with
       | EmptyString => None
       | _ => (fun n => Fin (INR n)) <$> number 0 s
       end;
     float_empty := eq_refl |}.

Definition no_shift : SharedFunctionsForced :=
  {| PA_shift_convention := fun pa _ => pa |}.

Definition figure_done : ForcedFigure :=
  {| plot_forced_fit := fun _ _ _ _ => Value tt |}.

Definition newline : string := String (ascii_of_nat 10) EmptyString.

(** A profile of one ellipse: a comment, the header, the units, one line
    of numbers. *)
Definition header_line : string := "R,ellip,pa" ++ newline.
Definition units_line : string := "arcsec,,deg" ++ newline.
Definition data_line : string := "2,0,90" ++ newline.
Definition comment_line : string := "# forced profile" ++ newline.

Definition plain_options : options_t :=
  {| ap_forcing_profile := "galaxy.prof"; ap_pixscale := 1;
     ap_name := "galaxy"; ap_doplot := None; ap_plotpath := None;
     ap_plotdpi := None; ap_nologo := None |}.

Lemma header_line_names :
  map strip (split "," header_line) = ["R"; "ellip"; "pa"]%string.
Proof. vm_compute. reflexivity. Qed.

Lemma comment_line_commented : Forall commented [comment_line].
Proof. repeat constructor. eexists. reflexivity. Qed.

Lemma header_line_uncommented : uncommented header_line.
Proof. eexists _, _. split; [reflexivity | discriminate]. Qed.

Lemma data_line_readable :
  @readable whole_numbers (map strip (split "," header_line)) [data_line].
Proof.
  rewrite header_line_names. unfold readable, readable_cells.
  repeat constructor; eexists; reflexivity.
Qed.

Lemma plain_plot_returns :
  @plot_returns figure_done [] Example.results_noiseless plain_options.
Proof. intros _ force. reflexivity. Qed.

Ltac is_named := apply list_elem_of_In; simpl; auto 10.

Ltac not_named :=
  let H := fresh in
  intros H; apply list_elem_of_In in H; simpl in H;
  repeat (destruct H as [H|H]; [discriminate|]); exact H.

(** X9, witness: the profile of one ellipse, which has no column of
    errors. *)
Lemma forced_fit_columns_witness :
  exists res,
    @Isophote_Fit_Forced whole_numbers no_shift figure_done
      ([comment_line] ++ header_line :: [units_line; data_line]) []
      Example.results_noiseless plain_options
    = Value ([], res) /\
    res !! "fit ellip_err"%string = None.
Proof.
  destruct (@forced_fit_columns whole_numbers no_shift figure_done
              [comment_line] header_line [units_line; data_line] []
              Example.results_noiseless plain_options
              comment_line_commented header_line_uncommented
              data_line_readable)
    as (res & Hrun & _ & _ & _ & Herr & _);
    try (rewrite header_line_names; is_named).
  { exact plain_plot_returns. }
  exists res. split; [exact Hrun|].
  rewrite Herr. rewrite header_line_names.
  destruct (decide _) as [[H _]|_]; [|reflexivity].
  exfalso. revert H. not_named.
Defined.

(** X10, witness: the same profile, with 'ellip' in the column 1, 'pa'
    in the column 2 and 'R' in the column 0. *)
Lemma forced_fit_of_table_witness :
  exists res ellip,
    @Isophote_Fit_Forced whole_numbers no_shift figure_done
      ([comment_line] ++ header_line :: units_line :: [data_line]) []
      Example.results_noiseless plain_options
    = Value ([], res) /\
    res !! "fit ellip"%string = Some ellip /\
    length ellip = 1%nat.
Proof.
  destruct (@forced_fit_of_table whole_numbers no_shift figure_done
              [comment_line] header_line units_line [data_line] []
              Example.results_noiseless plain_options 1 2 0
              comment_line_commented header_line_uncommented)
    as (res & ellip & pa & R_ & Hrun & He & _ & _ & _ & _ & _ & Hlen & _);
    try (rewrite header_line_names; reflexivity).
  { rewrite header_line_names.
    repeat (apply NoDup_cons; split; [not_named|]). apply NoDup_nil_2. }
  { rewrite header_line_names. repeat constructor. }
  { exact data_line_readable. }
  { exact plain_plot_returns. }
  exists res, ellip. auto.
Defined.

(** X11, witness: a file of one comment. *)
Lemma forced_fit_without_header_witness :
  @Isophote_Fit_Forced whole_numbers no_shift figure_done
    [comment_line] [] Example.results_noiseless plain_options
  = Error (UnboundLocalError "readfrom").
Proof.
  exact (@forced_fit_without_header whole_numbers no_shift figure_done
           [comment_line] [] Example.results_noiseless plain_options
           comment_line_commented).
Defined.

(** X12, witness: the profile of one ellipse with an empty line after
    it. *)
Lemma forced_fit_blank_line_witness :
  all_blank newline = true /\
  @Isophote_Fit_Forced whole_numbers no_shift figure_done
    ([comment_line] ++ header_line :: units_line :: [data_line] ++ newline :: [])
    [] Example.results_noiseless plain_options
  = Error ValueError.
Proof.
  split; [reflexivity|].
  exact (@forced_fit_blank_line whole_numbers no_shift figure_done
           [comment_line] header_line units_line [data_line] newline [] []
           Example.results_noiseless plain_options
           comment_line_commented header_line_uncommented
           data_line_readable eq_refl).
Defined.

(** The same profile without its column of ellipticities. *)
Definition header_without_ellip : string := "R,pa" ++ newline.
Definition data_without_ellip : string := "2,90" ++ newline.

(** X13, witness: the profile without its column 'ellip', with no plot
    asked for. *)
Lemma forced_fit_missing_column_witness :
  @Isophote_Fit_Forced whole_numbers no_shift figure_done
    ([comment_line] ++ header_without_ellip
       :: [units_line; data_without_ellip]) []
    Example.results_noiseless plain_options
  = Error (KeyError "ellip").
Proof.
  assert (Hnames : map strip (split "," header_without_ellip)
                   = ["R"; "pa"]%string) by (vm_compute; reflexivity).
  refine (proj1 (proj2
            (@forced_fit_missing_column whole_numbers no_shift figure_done
               [comment_line] header_without_ellip
               [units_line; data_without_ellip] []
               Example.results_noiseless plain_options
               comment_line_commented _ _)) eq_refl _ _).
  - eexists _, _. split; [reflexivity | discriminate].
  - rewrite Hnames. unfold readable, readable_cells.
    repeat constructor; eexists; reflexivity.
  - rewrite Hnames. is_named.
  - rewrite Hnames. not_named.
Defined.

(** X14, witness: the profile of one ellipse, and the same without its
    comment and with a line of numbers in the place of the units. *)
Lemma forced_fit_passes_over_the_units_witness :
  @Isophote_Fit_Forced whole_numbers no_shift figure_done
    ([comment_line] ++ header_line :: units_line :: [data_line]) []
    Example.results_noiseless plain_options
  = @Isophote_Fit_Forced whole_numbers no_shift figure_done
      (header_line :: data_line :: [data_line]) []
      Example.results_noiseless plain_options.
Proof.
  exact (@forced_fit_passes_over_the_units whole_numbers no_shift figure_done
           [comment_line] header_line units_line data_line [data_line] []
           Example.results_noiseless plain_options
           comment_line_commented header_line_uncommented).
Defined.

End Forced.

(** * [autoprofutils/PSF.py] *)

Module PSF.
Import Py.

(** The entries of [results] and [options] that [PSF_StarFind] reads:
    the ones read without a test are fields, the ones tested with [in]
    are optional. *)
Record results_t : Type := {
  background : R;
  background_noise : R
}.

Record options_t : Type := {
  ap_set_psf : option R;
  ap_guess_psf : option R;
  ap_pixscale : R;
  ap_name : string;
  ap_doplot : option bool;
  ap_paperplots : option bool;
  ap_plotpath : option string;
  ap_plotdpi : option R;
  ap_nologo : option bool
}.

(** The table of stars that [StarFind] hands back: one entry per star in
    each column ('x' and 'y' are the columns [star_x] and [star_y]).
    The widths and the deformities are floats as the finder computed
    them, NaN and the infinities among them. *)
Record stars_t : Type := {
  fwhm : list float64;
  deformity : list float64;
  star_x : list R;
  star_y : list R
}.

(** [StarFind(dat, fwhm_guess, noise, mask, maxstars = ...)] of
    [autoprofutils.SharedFunctions]. *)
Class StarFinder : Type := {
  StarFind : image -> R -> R -> mask_array -> nat -> stars_t
}.

(** The two blocks that draw with matplotlib, [AddLogo] and [savefig]:
    the stars on the image (under [ap_doplot]) and the nine best stars
    (under [ap_paperplots]).  They read their arguments and write a file;
    they may raise. *)
Class Figures : Type := {
  plot_stars : image -> results_t -> options_t -> stars_t -> R -> result unit;
  plot_best_stars : image -> results_t -> options_t -> stars_t -> result unit
}.

(** ["%.3f" % x] *)
Class PythonFormat3 : Type := { format_3f : float64 -> string }.

(** [np.zeros(IMG.shape, dtype = bool)] with the block
    [int(n/4.):int(3.*n/4.), int(m/4.):int(3.*m/4.)] set. *)
Definition edge_mask (IMG : image) : mask_array :=
  let n := length IMG in
  let m := length (hd [] IMG) in
  map (fun i =>
         map (fun j =>
                (n / 4 <=? i)%nat && (i <? 3 * n / 4)%nat &&
                (m / 4 <=? j)%nat && (j <? 3 * m / 4)%nat)
             (seq 0 m))
      (seq 0 n).

(** The [elif]/[else] at the head of the step: the first guess of the
    PSF, the user's or one pixel scale's worth and at least a pixel. *)
Definition fwhm_guess_of (options : options_t) : result R :=
  match ap_guess_psf options with
  | Some g => Value g
  | None =>
      q ← py_div 1 (ap_pixscale options);
      Value (py_max 1 q)
  end.

Section StarFind.
Context {SF : StarFinder} {FG : Figures} {PF : PythonFormat3}.

(** [np.sum(stars['deformity'] < def_clip)]: a NaN and [+inf] are
    below no clip. *)
Definition count_below (stars : stars_t) (def_clip : R) : nat :=
  length (List.filter (fun d => flt d (Fin def_clip)) (deformity stars)).

(** [max(10, 2*len(stars['fwhm'])/3)] *)
Definition enough (stars : stars_t) : R :=
  py_max 10 (2 * INR (length (fwhm stars)) / 3).

(** The [while] that widens the deformity clip.  The clip is the exact
    sum here; a float run rounds each sum, and a clip above [2^50] is
    its own sum with 0.1. *)
Fixpoint widen_clip (fuel : nat) (stars : stars_t) (def_clip : R) : result R :=
  if Rltb (INR (count_below stars def_clip)) (enough stars)
  then match fuel with
       | O => Unfinished
       | S fuel' => widen_clip fuel' stars (def_clip + 0.1)
       end
  else Value def_clip.

Definition PSF_StarFind (fuel : nat) (IMG : image) (results : results_t)
    (options : options_t) : result (image * gmap string pyvalue) :=
  match ap_set_psf options with
  | Some psf => Value (IMG, {[ "psf fwhm"%string := PFloat (Fin psf) ]})
  | None =>
      fwhm_guess ← fwhm_guess_of options;
      let edge_mask := edge_mask IMG in
      let stars :=
        StarFind (subtract_background IMG (background results)) fwhm_guess
          (background_noise results) edge_mask 50 in
      if (length (fwhm stars) <=? 10)%nat
      then Value (IMG, {[ "psf fwhm"%string := PFloat (Fin fwhm_guess) ]})
      else
        def_clip ← widen_clip fuel stars 0.1;
        _ ← (if enabled (ap_doplot options)
             then plot_stars IMG results options stars def_clip
             else Value tt);
        _ ← (if enabled (ap_paperplots options)
             then plot_best_stars IMG results options stars
             else Value tt);
        chosen ← bool_index (fwhm stars)
                   (map (fun d => flt d (Fin def_clip)) (deformity stars));
        let psf := np_median chosen in
        Value (IMG,
               <["psf fwhm"%string := PFloat psf]>
               (<["auxfile psf"%string :=
                    PStr ("psf fwhm: " ++ format_3f psf ++ " pix")]> ∅))
  end.

End StarFind.

(** ** Properties *)

Lemma result_bind_Value {A B} (m : result A) (k : A -> result B) (b : B) :
  (m ≫= k) = Value b -> exists a, m = Value a /\ k a = Value b.
Proof. destruct m; simpl; intros H; try discriminate. eauto. Qed.

Lemma fwhm_guess_of_cases options :
  (exists g, ap_guess_psf options = Some g /\ fwhm_guess_of options = Value g)
  \/ (ap_guess_psf options = None /\ ap_pixscale options = 0 /\
      fwhm_guess_of options = Error ZeroDivisionError)
  \/ (ap_guess_psf options = None /\ ap_pixscale options <> 0 /\
      fwhm_guess_of options = Value (Rmax 1 (1 / ap_pixscale options))).
Proof.
  unfold fwhm_guess_of, py_div, Reqb.
  destruct (ap_guess_psf options) as [g|]; [left; eauto|].
  right. destruct (Req_dec_T (ap_pixscale options) 0) as [E|E].
  - left. auto.
  - right. simpl. rewrite py_max_Rmax. auto.
Qed.

(** A float that is below a number is below every larger one. *)
Lemma flt_Fin_mono (d : float64) (c c' : R) :
  c <= c' -> flt d (Fin c) = true -> flt d (Fin c') = true.
Proof.
  intros Hc. destruct d; simpl; auto. unfold Rltb.
  destruct (Rlt_dec x c); [|discriminate].
  destruct (Rlt_dec x c'); [reflexivity | lra].
Qed.

Lemma filter_length_mono {A} (f f' : A -> bool) (l : list A) :
  (forall a, f a = true -> f' a = true) ->
  (length (List.filter f l) <= length (List.filter f' l))%nat.
Proof.
  intros H. induction l as [|a l IH]; simpl; [lia|].
  destruct (f a) eqn:E.
  - rewrite (H a E). simpl. lia.
  - destruct (f' a); simpl; lia.
Qed.

(** Finite floats that satisfy a property of their numbers. *)
Lemma finite_floats (P : R -> Prop) (ws : list float64) :
  Forall (fun w => exists x, w = Fin x /\ P x) ws ->
  exists rs, ws = map Fin rs /\ Forall P rs.
Proof.
  induction 1 as [|w ws (x & -> & Hx) _ (rs & -> & Hrs)].
  - exists []. split; [reflexivity | constructor].
  - exists (x :: rs). split; [reflexivity | constructor; assumption].
Qed.

Section StarFindProperties.
Context {SF : StarFinder} {FG : Figures} {PF : PythonFormat3}.

(** The stars that [PSF_StarFind] works on. *)
Definition stars_of (IMG : image) (results : results_t) (guess : R) : stars_t :=
  StarFind (subtract_background IMG (background results)) guess
    (background_noise results) (edge_mask IMG) 50.

(** The loop goes on at the clip [c]. *)
Definition too_few (stars : stars_t) (c : R) : Prop :=
  INR (count_below stars c) < enough stars.

Lemma count_below_mono stars c c' :
  c <= c' -> (count_below stars c <= count_below stars c')%nat.
Proof.
  intros Hc. unfold count_below. apply filter_length_mono.
  intros d. apply flt_Fin_mono. exact Hc.
Qed.

Lemma too_few_mono stars c c' :
  c <= c' -> too_few stars c' -> too_few stars c.
Proof.
  unfold too_few. intros Hc H.
  pose proof (le_INR _ _ (count_below_mono stars c c' Hc)). lra.
Qed.

Lemma widen_clip_step fuel stars c :
  too_few stars c ->
  widen_clip (S fuel) stars c = widen_clip fuel stars (c + 0.1).
Proof.
  unfold too_few. intros H. simpl. unfold Rltb.
  destruct (Rlt_dec _ _); [reflexivity | contradiction].
Qed.

Lemma widen_clip_stop fuel stars c :
  ~ too_few stars c -> widen_clip fuel stars c = Value c.
Proof.
  unfold too_few. intros H. destruct fuel; simpl; unfold Rltb;
    destruct (Rlt_dec _ _); try contradiction; reflexivity.
Qed.

(** From the clip [0.1 k], with enough stars below [0.1 (k + j)], the
    loop stops within [j] steps, at the first clip that has enough
    stars below it. *)
Lemma widen_clip_stops stars j :
  forall k : nat,
    ~ too_few stars (0.1 * INR (k + j)) ->
    exists k' : nat,
      (k <= k' <= k + j)%nat /\
      ~ too_few stars (0.1 * INR k') /\
      (forall i, (k <= i < k')%nat -> too_few stars (0.1 * INR i)) /\
      forall fuel, (j <= fuel)%nat ->
        widen_clip fuel stars (0.1 * INR k) = Value (0.1 * INR k').
Proof.
  induction j as [|j IH]; intros k Hstop.
  - rewrite Nat.add_0_r in Hstop. exists k.
    split; [lia|]. split; [exact Hstop|]. split; [intros i Hi; lia|].
    intros fuel _. apply widen_clip_stop. exact Hstop.
  - destruct (Rlt_dec (INR (count_below stars (0.1 * INR k))) (enough stars))
      as [Hgo|Hhere].
    + destruct (IH (S k)) as (k' & Hk' & Hs & Hbefore & Hrun).
      { replace (S k + j)%nat with (k + S j)%nat by lia. exact Hstop. }
      exists k'. split; [lia|]. split; [exact Hs|]. split.
      * intros i Hi. destruct (Nat.eq_dec i k) as [->|Hne]; [exact Hgo|].
        apply Hbefore. lia.
      * intros fuel Hfuel. destruct fuel as [|fuel]; [lia|].
        rewrite widen_clip_step by exact Hgo.
        replace (0.1 * INR k + 0.1) with (0.1 * INR (S k))
          by (rewrite S_INR; lra).
        apply Hrun. lia.
    + exists k. split; [lia|]. split; [exact Hhere|].
      split; [intros i Hi; lia|].
      intros fuel _. apply widen_clip_stop. exact Hhere.
Qed.

(** With enough stars below [D], the loop stops at a clip that is not
    far above [D]. *)
Lemma widen_clip_returns stars (D : R) :
  0.1 <= D -> ~ too_few stars D ->
  exists (fuel0 : nat) (c : R),
    0.1 <= c <= D + 0.1 /\ ~ too_few stars c /\
    forall fuel, (fuel0 <= fuel)%nat -> widen_clip fuel stars 0.1 = Value c.
Proof.
  intros HD Hstop.
  destruct (INR_unbounded (10 * D)) as [K HK].
  destruct (widen_clip_stops stars K 1) as (k & Hk & Hs & Hbefore & Hrun).
  { intros H. apply Hstop. apply (too_few_mono stars D (0.1 * INR (1 + K))).
    - rewrite plus_INR. simpl. lra.
    - exact H. }
  exists K, (0.1 * INR k).
  assert (H1 : 1 <= INR k).
  { replace 1 with (INR 1) by reflexivity. apply le_INR. lia. }
  split; [split; [lra|]|split; [exact Hs|]].
  - destruct (Nat.eq_dec k 1%nat) as [->|Hne]; [simpl; lra|].
    assert (Hprev : too_few stars (0.1 * INR (k - 1))) by (apply Hbefore; lia).
    destruct (Rle_lt_dec D (0.1 * INR (k - 1))) as [Hle|Hlt].
    + exfalso. apply Hstop. eapply too_few_mono; [exact Hle | exact Hprev].
    + rewrite minus_INR in Hlt by lia. simpl in Hlt. lra.
  - intros fuel Hfuel.
    replace 0.1 with (0.1 * INR 1) at 1 by (simpl; lra).
    apply Hrun. exact Hfuel.
Qed.

Lemma enough_ge_10 stars : 10 <= enough stars.
Proof. unfold enough. rewrite py_max_Rmax. apply Rmax_l. Qed.

(** The entries picked by a boolean mask: as many as the mask has set. *)
Lemma bool_index_length {A B} (arr : list A) (f : B -> bool) (ds : list B)
    (chosen : list A) :
  bool_index arr (map f ds) = Value chosen ->
  length arr = length ds /\
  length chosen = length (List.filter f ds) /\
  forall a, In a chosen -> In a arr.
Proof.
  unfold bool_index. rewrite length_map.
  destruct (Nat.eqb_spec (length arr) (length ds)) as [E|]; [|discriminate].
  intros H. injection H as <-. split; [exact E|].
  clear -E. revert ds E. induction arr as [|a arr IH]; intros [|d ds] E;
    simpl in *; try discriminate.
  - split; [reflexivity | tauto].
  - injection E as E. destruct (IH ds E) as [Hl Hin].
    destruct (f d); simpl.
    + split; [lia|]. intros x [->|Hx]; auto.
    + split; [exact Hl|]. intros x Hx; auto.
Qed.

Lemma bool_index_returns {A} (arr : list A) (mask : list bool) :
  length arr = length mask -> exists chosen, bool_index arr mask = Value chosen.
Proof.
  intros E. unfold bool_index. rewrite E, Nat.eqb_refl. eauto.
Qed.

(** The median of at least one finite width lies between the bounds of
    the widths. *)
Lemma median_of_chosen (lo hi : R) (ws chosen : list float64) :
  Forall (fun w => exists x, w = Fin x /\ lo <= x <= hi) ws ->
  (forall a, In a chosen -> In a ws) -> chosen <> [] ->
  exists psf, np_median chosen = Fin psf /\ lo <= psf <= hi.
Proof.
  intros Hws Hin Hne.
  assert (Hch : Forall (fun w => exists x, w = Fin x /\ lo <= x <= hi) chosen).
  { rewrite Forall_forall in *. intros w Hw. apply Hws.
    apply list_elem_of_In, Hin, list_elem_of_In, Hw. }
  destruct (finite_floats _ _ Hch) as (rs & -> & Hrs).
  assert (Hne' : rs <> []) by (intros ->; apply Hne; reflexivity).
  destruct (Rmedian_mean_of_two rs Hne') as (a & b & Ha & Hb & Hmed).
  exists ((a + b) / 2). rewrite np_median_finite. split; [exact Hmed|].
  rewrite Forall_forall in Hrs.
  pose proof (Hrs a (proj2 (list_elem_of_In _ _) Ha)).
  pose proof (Hrs b (proj2 (list_elem_of_In _ _) Hb)).
  lra.
Qed.

(** What the step does on a table of more than ten stars of which
    enough have a deformity below [D]. *)
Lemma star_find_run
    (IMG : image) (results : results_t) (options : options_t) (guess : R)
    (D lo hi : R) :
  let stars := stars_of IMG results guess in
  ap_set_psf options = None ->
  fwhm_guess_of options = Value guess ->
  (10 < length (fwhm stars))%nat ->
  length (deformity stars) = length (fwhm stars) ->
  0.1 <= D -> enough stars <= INR (count_below stars D) ->
  Forall (fun w => exists x, w = Fin x /\ lo <= x <= hi) (fwhm stars) ->
  (forall c, plot_stars IMG results options stars c = Value tt) ->
  plot_best_stars IMG results options stars = Value tt ->
  exists (fuel0 : nat) (c psf : R) (chosen : list float64),
    0.1 <= c <= D + 0.1 /\
    enough stars <= INR (count_below stars c) /\
    bool_index (fwhm stars)
      (map (fun d => flt d (Fin c)) (deformity stars)) = Value chosen /\
    length chosen = count_below stars c /\
    np_median chosen = Fin psf /\ lo <= psf <= hi /\
    forall fuel, (fuel0 <= fuel)%nat ->
      widen_clip fuel stars 0.1 = Value c /\
      PSF_StarFind fuel IMG results options
      = Value (IMG,
               <["psf fwhm"%string := PFloat (Fin psf)]>
               (<["auxfile psf"%string :=
                    PStr ("psf fwhm: " ++ format_3f (Fin psf) ++ " pix")]> ∅)).
Proof.
  intros stars Hset Hguess Hmany Hcols HD Hbelow Hws Hplot Hbest.
  destruct (widen_clip_returns stars D HD) as (fuel0 & c & Hc & Hstop & Hrun).
  { unfold too_few. lra. }
  destruct (bool_index_returns (fwhm stars)
              (map (fun d => flt d (Fin c)) (deformity stars)))
    as [chosen Hchosen].
  { rewrite length_map. auto. }
  pose proof (bool_index_length _ _ _ _ Hchosen) as (_ & Hlen & Hin).
  assert (Henough : enough stars <= INR (count_below stars c)).
  { apply Rnot_lt_le. exact Hstop. }
  assert (Hne : chosen <> []).
  { intros ->. simpl in Hlen. unfold count_below in Henough.
    rewrite <- Hlen in Henough. simpl in Henough.
    pose proof (enough_ge_10 stars). lra. }
  destruct (median_of_chosen lo hi (fwhm stars) chosen
              Hws Hin Hne) as (psf & Hmed & Hpsf).
  exists fuel0, c, psf, chosen.
  split; [exact Hc|]. split; [exact Henough|]. split; [exact Hchosen|].
  split; [exact Hlen|]. split; [exact Hmed|]. split; [exact Hpsf|].
  intros fuel Hfuel. split; [apply Hrun; exact Hfuel|].
  unfold PSF_StarFind. rewrite Hset, Hguess.
  cbn [mbind result_bind]. fold (stars_of IMG results guess). fold stars.
  destruct (Nat.leb_spec (length (fwhm stars)) 10); [lia|].
  rewrite (Hrun fuel Hfuel). cbn [mbind result_bind].
  rewrite Hplot, Hbest.
  assert (Hu : forall b : bool, (if b then Value tt else Value tt)
                                = @Value unit tt) by (intros []; reflexivity).
  rewrite !Hu. cbn [mbind result_bind].
  rewrite Hchosen. cbn [mbind result_bind]. rewrite Hmed. reflexivity.
Qed.

(** X16.  On a table of more than ten stars whose columns are as long
    as each other and whose widths are numbers between [lo] and [hi],
    when at least [max(10, 2n/3)] of the [n] stars have a deformity
    below some [D] between 0.1 and [2^49], and with plots that come
    back, [PSF_StarFind] returns: the loop that widens the clip from
    0.1 in steps of 0.1 ends, at a clip between 0.1 and [D + 0.2] that
    has at least [max(10, 2n/3)] stars below it, and the PSF is the
    median width of those stars, a number between [lo] and [hi].
    Deformities that are NaN or [+inf] are below no clip. *)
Theorem PSF_StarFind_measures
    (IMG : image) (results : results_t) (options : options_t) (guess : R)
    (D lo hi : R) :
  let stars := stars_of IMG results guess in
  let below (c : R) :=
    length (List.filter (fun d => flt d (Fin c)) (deformity stars)) in
  let enough := if Rlt_dec 10 (2 * INR (length (fwhm stars)) / 3)
                then 2 * INR (length (fwhm stars)) / 3 else 10 in
  ap_set_psf options = None ->
  fwhm_guess_of options = Value guess ->
  (10 < length (fwhm stars))%nat ->
  length (deformity stars) = length (fwhm stars) ->
  0.1 <= D <= 2 ^ 49 -> enough <= INR (below D) ->
  Forall (fun w => exists x, w = Fin x /\ lo <= x <= hi) (fwhm stars) ->
  (forall c, plot_stars IMG results options stars c = Value tt) ->
  plot_best_stars IMG results options stars = Value tt ->
  exists (fuel0 : nat) (c psf : R) (chosen : list float64),
    0.1 <= c <= D + 0.2 /\
    enough <= INR (below c) /\
    bool_index (fwhm stars)
      (map (fun d => flt d (Fin c)) (deformity stars)) = Value chosen /\
    length chosen = below c /\
    np_median chosen = Fin psf /\ lo <= psf <= hi /\
    forall fuel, (fuel0 <= fuel)%nat ->
      widen_clip fuel stars 0.1 = Value c /\
      PSF_StarFind fuel IMG results options
      = Value (IMG,
               <["psf fwhm"%string := PFloat (Fin psf)]>
               (<["auxfile psf"%string :=
                    PStr ("psf fwhm: " ++ format_3f (Fin psf) ++ " pix")]> ∅)).
Proof.
  intros stars below enough' Hset Hguess Hmany Hcols [HD _] Hbelow Hws
    Hplot Hbest.
  assert (He : enough' = enough stars).
  { unfold enough', enough, py_max, Rltb. destruct (Rlt_dec _ _); reflexivity. }
  rewrite He in *.
  destruct (star_find_run IMG results options guess D lo hi)
    as (fuel0 & c & psf & chosen & Hc & Hrest); try assumption.
  exists fuel0, c, psf, chosen. split; [lra | exact Hrest].
Qed.

(** X17.  Whatever path it takes, a [PSF_StarFind] that returns hands back the
    image it was given and a finite, positive PSF, when the PSF or guess
    that the user may have given is positive and the width of every
    star is a positive number: the first guess made without the user is
    at least one pixel, and a measured PSF is the median over at least
    ten stars. *)
Theorem PSF_StarFind_psf_is_positive
    (fuel : nat) (IMG : image) (results : results_t) (options : options_t)
    (out : image) (res : gmap string pyvalue) :
  (forall psf, ap_set_psf options = Some psf -> 0 < psf) ->
  (forall g, ap_guess_psf options = Some g -> 0 < g) ->
  (forall guess,
     Forall (fun w => exists x, w = Fin x /\ 0 < x)
            (fwhm (stars_of IMG results guess))) ->
  PSF_StarFind fuel IMG results options = Value (out, res) ->
  out = IMG /\
  exists psf, res !! "psf fwhm"%string = Some (PFloat (Fin psf)) /\ 0 < psf.
Proof.
  intros Hset Hg Hstars. unfold PSF_StarFind.
  destruct (ap_set_psf options) as [psf|] eqn:Eset.
  { intros H. injection H as <- <-. split; [reflexivity|].
    exists psf. rewrite lookup_singleton_eq. auto. }
  intros H. apply result_bind_Value in H. destruct H as (guess & Hguess & H).
  assert (Hpos : 0 < guess).
  { destruct (fwhm_guess_of_cases options)
      as [(g & Eg & E)|[(_ & _ & E)|(_ & _ & E)]];
      rewrite E in Hguess; try discriminate; injection Hguess as <-.
    - auto.
    - pose proof (Rmax_l 1 (1 / ap_pixscale options)). lra. }
  fold (stars_of IMG results guess) in H.
  destruct (length (fwhm (stars_of IMG results guess)) <=? 10)%nat.
  { injection H as <- <-. split; [reflexivity|].
    exists guess. rewrite lookup_singleton_eq. auto. }
  apply result_bind_Value in H. destruct H as (c & Hc & H).
  apply result_bind_Value in H. destruct H as (_ & _ & H).
  apply result_bind_Value in H. destruct H as (_ & _ & H).
  apply result_bind_Value in H. destruct H as (chosen & Hchosen & H).
  injection H as <- <-. split; [reflexivity|].
  pose proof (bool_index_length _ _ _ _ Hchosen) as (_ & Hlen & Hin).
  assert (Hstop : ~ too_few (stars_of IMG results guess) c).
  { clear -Hc. revert c Hc.
    generalize 0.1 at 1. induction fuel as [|fuel IH]; intros c0 c; simpl;
      unfold too_few, Rltb; destruct (Rlt_dec _ _); try discriminate.
    - intros H. injection H as <-. assumption.
    - intros H. apply IH in H. exact H.
    - intros H. injection H as <-. assumption. }
  assert (Hne : chosen <> []).
  { intros ->. apply Hstop. unfold too_few, count_below.
    rewrite <- Hlen. simpl.
    pose proof (enough_ge_10 (stars_of IMG results guess)). lra. }
  destruct (finite_floats _ _ (Hstars guess)) as (ws & Hws & Hall).
  assert (Hbounds : exists lo hi, 0 < lo /\
            Forall (fun w => exists x, w = Fin x /\ lo <= x <= hi)
                   (fwhm (stars_of IMG results guess))).
  { rewrite Hws. clear -Hall.
    induction Hall as [|x ws Hx _ (lo & hi & Hlo & IH)].
    - exists 1, 1. split; [lra | constructor].
    - exists (Rmin x lo), (Rmax x hi).
      split; [apply Rmin_glb_lt; assumption|].
      constructor.
      + exists x. split; [reflexivity|].
        split; [apply Rmin_l | apply Rmax_l].
      + eapply Forall_impl; [exact IH|]. cbv beta.
        intros w (y & -> & Hy). exists y. split; [reflexivity|].
        pose proof (Rmin_r x lo). pose proof (Rmax_r x hi). lra. }
  destruct Hbounds as (lo & hi & Hlo & Hws').
  destruct (median_of_chosen lo hi _ chosen Hws' Hin Hne)
    as (psf & Hmed & Hpsf).
  exists psf. rewrite lookup_insert_eq, Hmed. split; [reflexivity | lra].
Qed.

End StarFindProperties.

(** ** Concrete collaborators *)

(** A star finder that sees twelve stars, each 3 pixels wide: ten round
    ones, one whose deformity is 0.25 and one whose deformity is NaN. *)
Definition twelve_stars : StarFinder :=
  {| StarFind := fun _ _ _ _ _ =>
       {| fwhm := replicate 12 (Fin 3);
          deformity := replicate 10 (Fin 0.05) ++ [Fin 0.25; NaN];
          star_x := replicate 12 0; star_y := replicate 12 0 |} |}.

Definition plots_done : Figures :=
  {| plot_stars := fun _ _ _ _ _ => Value tt;
     plot_best_stars := fun _ _ _ _ => Value tt |}.

Definition three_digits : PythonFormat3 :=
  {| format_3f := fun _ => "3.000"%string |}.

Definition flat_sky : results_t :=
  {| background := 0; background_noise := 1 |}.

(** Nothing set by the user but the pixel scale and the name. *)
Definition bare_options : options_t :=
  {| ap_set_psf := None; ap_guess_psf := None; ap_pixscale := 1;
     ap_name := "galaxy"; ap_doplot := None; ap_paperplots := None;
     ap_plotpath := None; ap_plotdpi := None; ap_nologo := None |}.

(** The same with a first guess of two pixels. *)
Definition guess_options : options_t :=
  {| ap_set_psf := None; ap_guess_psf := Some 2; ap_pixscale := 1;
     ap_name := "galaxy"; ap_doplot := None; ap_paperplots := None;
     ap_plotpath := None; ap_plotdpi := None; ap_nologo := None |}.

Lemma bare_guess : fwhm_guess_of bare_options = Value 1.
Proof.
  unfold fwhm_guess_of, py_div, py_max, Reqb, Rltb. simpl.
  destruct (Req_dec_T 1 0); [lra|]. simpl.
  destruct (Rlt_dec 1 (1 / 1)); [lra | reflexivity].
Qed.

Lemma twelve_stars_widths (guess : R) :
  Forall (fun w => exists x, w = Fin x /\ 3 <= x <= 3)
         (fwhm (@stars_of twelve_stars [] flat_sky guess)).
Proof.
  simpl. repeat (constructor; [exists 3; split; [reflexivity | lra]|]).
  constructor.
Qed.

(** Ten of the twelve stars have a deformity below 0.1. *)
Lemma twelve_stars_round (guess : R) :
  @count_below (@stars_of twelve_stars [] flat_sky guess) 0.1 = 10%nat.
Proof. unfold count_below. simpl. Rdec. Qed.

Lemma twelve_stars_enough (guess : R) :
  @enough (@stars_of twelve_stars [] flat_sky guess) = 10.
Proof.
  unfold enough, py_max, Rltb. simpl.
  destruct (Rlt_dec _ _); [lra | reflexivity].
Qed.

(** X16, witness: twelve stars, ten of them rounder than the first clip
    and one with a deformity that is NaN: the loop stops at a clip
    between 0.1 and 0.3, and the PSF is the common width. *)
Lemma PSF_StarFind_measures_witness :
  exists fuel c psf res,
    0.1 <= c <= 0.1 + 0.2 /\
    @widen_clip fuel (@stars_of twelve_stars [] flat_sky 1) 0.1 = Value c /\
    @PSF_StarFind twelve_stars plots_done three_digits fuel [] flat_sky
      bare_options = Value ([], res) /\
    res !! "psf fwhm"%string = Some (PFloat (Fin psf)) /\
    3 <= psf <= 3.
Proof.
  destruct (@PSF_StarFind_measures twelve_stars plots_done three_digits
              [] flat_sky bare_options 1 0.1 3 3 eq_refl bare_guess)
    as (fuel0 & c & psf & chosen & Hc & _ & _ & _ & _ & Hpsf & Hrun).
  - simpl. lia.
  - reflexivity.
  - pose proof (pow_R1_Rle 2 49 ltac:(lra)). lra.
  - fold (@count_below (@stars_of twelve_stars [] flat_sky 1) 0.1).
    rewrite twelve_stars_round. simpl.
    destruct (Rlt_dec _ _); lra.
  - apply twelve_stars_widths.
  - reflexivity.
  - reflexivity.
  - destruct (Hrun fuel0 (Nat.le_refl _)) as [Hclip Hout].
    exists fuel0, c, psf. eexists.
    split; [exact Hc|]. split; [exact Hclip|]. split; [exact Hout|].
    split; [apply lookup_insert_eq | exact Hpsf].
Defined.

(** X17, witness: the same twelve stars, with a first guess of two
    pixels from the user: the PSF that is measured is positive. *)
Lemma PSF_StarFind_psf_is_positive_witness :
  exists fuel res psf,
    @PSF_StarFind twelve_stars plots_done three_digits fuel [] flat_sky
      guess_options = Value ([], res) /\
    res !! "psf fwhm"%string = Some (PFloat (Fin psf)) /\
    0 < psf.
Proof.
  destruct (@star_find_run twelve_stars plots_done three_digits
              [] flat_sky guess_options 2 0.1 3 3 eq_refl eq_refl)
    as (fuel0 & c & psf0 & chosen & _ & _ & _ & _ & _ & _ & Hrun).
  - simpl. lia.
  - reflexivity.
  - lra.
  - rewrite twelve_stars_round, twelve_stars_enough. simpl. lra.
  - apply twelve_stars_widths.
  - reflexivity.
  - reflexivity.
  - destruct (Hrun fuel0 (Nat.le_refl _)) as [_ Hout].
    assert (Hset : forall psf, ap_set_psf guess_options = Some psf -> 0 < psf)
      by discriminate.
    assert (Hguess : forall g, ap_guess_psf guess_options = Some g -> 0 < g).
    { intros g Hg. injection Hg as <-. lra. }
    assert (Hwide : forall guess,
               Forall (fun w => exists x, w = Fin x /\ 0 < x)
                      (fwhm (@stars_of twelve_stars [] flat_sky guess))).
    { intros guess. eapply Forall_impl; [apply twelve_stars_widths|].
      cbv beta. intros w (x & -> & Hx). exists x. split; [reflexivity | lra]. }
    destruct (@PSF_StarFind_psf_is_positive twelve_stars plots_done
                three_digits fuel0 [] flat_sky guess_options [] _
                Hset Hguess Hwide Hout) as (_ & psf & Hpsf & Hpos).
    exists fuel0. eexists. exists psf.
    split; [exact Hout|]. split; [exact Hpsf | exact Hpos].
Defined.

End PSF.

(** * [autoprofutils/Axial_Profiles.py]: the positions along the axis *)

Module Axial.
Import Py.

(** The entries of [results] and of [options] that place the lines:
    [prof_data_R] is [results['prof data']['R']] where there is a
    profile. *)
Record results_t : Type := {
  prof_data_R : option (list R);
  psf_fwhm : R;
  init_pa : R;
  results_center : center
}.

Record options_t : Type := {
  ap_pixscale : R;
  ap_samplestyle : option string;
  ap_samplelinearscale : option R;
  ap_samplegeometricscale : option R;
  ap_axialprof_pa : option R
}.

(** [min(IMG.shape)] *)
Definition min_shape (IMG : image) : nat :=
  Nat.min (length IMG) (length (hd [] IMG)).

(** How far out the lines go: the end of the profile in pixels, or half
    the smaller side of the image. *)
Definition Rproflim_of (IMG : image) (results : results_t) (options : options_t)
  : result R :=
  match prof_data_R results with
  | Some R_ => r ← last_of R_; py_div r (ap_pixscale options)
  | None => Value (INR (min_shape IMG) / 2)
  end.

(** The step from the position [r], before [max(1, step)]. *)
Definition step_from (results : results_t) (options : options_t) (r : R) : R :=
  if bool_decide (ap_samplestyle options = Some "linear"%string)
  then default (0.5 * psf_fwhm results) (ap_samplelinearscale options)
  else r * default 0.1 (ap_samplegeometricscale options).

(** [while R[-1] < Rproflim: ... R.append(R[-1] + max(1, step))] *)
Fixpoint extend_R (fuel : nat) (results : results_t) (options : options_t)
    (Rproflim : R) (R_ : list R) : result (list R) :=
  r ← last_of R_;
  if Rltb r Rproflim
  then match fuel with
       | O => Unfinished
       | S fuel' =>
           extend_R fuel' results options Rproflim
             (R_ ++ [r + py_max 1 (step_from results options r)])
       end
  else Value R_.

(** The positions [R], from [R = [0]] on. *)
Definition axial_R (fuel : nat) (IMG : image) (results : results_t)
    (options : options_t) : result (list R) :=
  Rproflim ← Rproflim_of IMG results options;
  extend_R fuel results options Rproflim [0].

(** [pa]: the direction of the axis, the initial position angle turned by
    [ap_axialprof_pa] degrees. *)
Definition axis_pa (results : results_t) (options : options_t) : R :=
  init_pa results
  + match ap_axialprof_pa options with
    | Some deg => deg * PI / 180
    | None => 0
    end.

(** [branch_pa]: the direction of the lines of the quadrant [ang]. *)
Definition branch_pa (pa : R) (ang : Z) : R :=
  pymod (pa + IZR ang * PI / 2) (2 * PI).

(** The point that the line at the position [pR] of the quadrant
    [(rd, ang)] starts from. *)
Definition line_start (c : center) (pa : R) (rd ang : Z) (pR : R) : center :=
  {| center_x :=
       center_x c
       + IZR ang * IZR rd * pR * cos (pa + (if (0 <? ang)%Z then 0 else PI));
     center_y :=
       center_y c
       + IZR ang * IZR rd * pR * sin (pa + (if (0 <? ang)%Z then 0 else PI)) |}.

(** ** Properties *)

(** The positions grown from a list that ends at [r0]: each one is the
    one before plus the step, which is at least a pixel; all but the last
    are short of the limit, the last is not. *)
Inductive extended (results : results_t) (options : options_t) (Rproflim : R)
  : R -> list R -> Prop :=
| extended_stop r0 : ~ r0 < Rproflim -> extended results options Rproflim r0 []
| extended_step r0 new :
    r0 < Rproflim ->
    extended results options Rproflim
      (r0 + Rmax 1 (step_from results options r0)) new ->
    extended results options Rproflim r0
      ((r0 + Rmax 1 (step_from results options r0)) :: new).

Lemma extend_R_extended results options Rproflim :
  forall (n : nat) (l : list R) (r0 : R),
    Rproflim - r0 <= INR n ->
    exists new,
      extended results options Rproflim r0 new /\
      (length new <= n)%nat /\
      forall fuel, (n <= fuel)%nat ->
        extend_R fuel results options Rproflim (l ++ [r0])
        = Value ((l ++ [r0]) ++ new).
Proof.
  induction n as [|n IH]; intros l r0 Hn.
  - exists []. simpl in Hn. split; [constructor; lra|]. split; [simpl; lia|].
    intros fuel _. rewrite app_nil_r.
    destruct fuel; simpl; rewrite last_of_snoc; cbn [mbind result_bind];
      unfold Rltb; destruct (Rlt_dec r0 Rproflim); try lra; reflexivity.
  - destruct (Rlt_dec r0 Rproflim) as [Hlt|Hge].
    + set (r1 := r0 + Rmax 1 (step_from results options r0)).
      destruct (IH (l ++ [r0]) r1) as (new & Hext & Hlen & Hrun).
      { unfold r1. pose proof (Rmax_l 1 (step_from results options r0)).
        rewrite S_INR in Hn. lra. }
      exists (r1 :: new). split; [constructor; assumption|].
      split; [simpl; lia|].
      intros fuel Hfuel. destruct fuel as [|fuel]; [lia|].
      simpl. rewrite last_of_snoc. cbn [mbind result_bind].
      unfold Rltb. destruct (Rlt_dec r0 Rproflim); [|contradiction].
      rewrite py_max_Rmax. fold r1. rewrite Hrun by lia.
      rewrite <- !app_assoc. reflexivity.
    + exists []. split; [constructor; assumption|]. split; [simpl; lia|].
      intros fuel _. rewrite app_nil_r.
      destruct fuel; simpl; rewrite last_of_snoc; cbn [mbind result_bind];
        unfold Rltb; destruct (Rlt_dec r0 Rproflim); try contradiction;
        reflexivity.
Qed.

Lemma extended_spaced results options Rproflim r0 new :
  extended results options Rproflim r0 new ->
  forall k, (k < length new)%nat ->
    nth k (r0 :: new) 0 < Rproflim /\
    nth (S k) (r0 :: new) 0
    = nth k (r0 :: new) 0
      + Rmax 1 (step_from results options (nth k (r0 :: new) 0)) /\
    nth k (r0 :: new) 0 + 1 <= nth (S k) (r0 :: new) 0.
Proof.
  induction 1 as [r0 Hstop|r0 new Hlt Hext IH]; intros k Hk;
    [simpl in Hk; lia|].
  destruct k as [|k].
  - simpl. pose proof (Rmax_l 1 (step_from results options r0)).
    repeat split; [assumption | lra].
  - simpl in Hk. apply (IH k). lia.
Qed.

Lemma extended_last results options Rproflim r0 new :
  extended results options Rproflim r0 new ->
  ~ nth (length new) (r0 :: new) 0 < Rproflim.
Proof.
  induction 1 as [r0 Hstop|r0 new Hlt Hext IH]; simpl; assumption.
Qed.

(** X18.  The positions of the lines come to an end whatever the sampling
    options are, since a step is never shorter than a pixel: they start
    at 0, each next one is the one before plus [max(1, step)], all but
    the last are below the limit, the last one is not, and there are at
    most [n + 1] of them when the limit is at most [n] pixels. *)
Theorem axial_positions
    (IMG : image) (results : results_t) (options : options_t)
    (Rproflim : R) (n : nat) :
  Rproflim_of IMG results options = Value Rproflim ->
  Rproflim <= INR n ->
  exists R_ : list R,
    (forall fuel, (n <= fuel)%nat ->
       axial_R fuel IMG results options = Value R_) /\
    nth 0 R_ 0 = 0 /\
    (1 <= length R_ <= n + 1)%nat /\
    (forall k, (S k < length R_)%nat ->
       nth k R_ 0 < Rproflim /\
       nth (S k) R_ 0
       = nth k R_ 0 + Rmax 1 (step_from results options (nth k R_ 0)) /\
       nth k R_ 0 + 1 <= nth (S k) R_ 0) /\
    ~ nth (length R_ - 1) R_ 0 < Rproflim.
Proof.
  intros Hlim Hn.
  destruct (extend_R_extended results options Rproflim n [] 0)
    as (new & Hext & Hlen & Hrun); [lra|].
  exists (0 :: new). split; [|split; [reflexivity|]].
  { intros fuel Hfuel. unfold axial_R. rewrite Hlim. apply Hrun, Hfuel. }
  split; [simpl; lia|]. split.
  - intros k Hk. apply (extended_spaced _ _ _ _ _ Hext). simpl in Hk. lia.
  - replace (length (0%R :: new) - 1)%nat with (length new) by (simpl; lia).
    apply (extended_last _ _ _ _ _ Hext).
Qed.

(** *** The lines *)

(** X19.  The lines of a quadrant start on the axis through the centre, at
    the distance [pR] on the side [rd], whichever way they go: the half
    turn that the source adds for [ang = -1] takes back the sign of
    [ang].  They go at a right angle to the axis, a quarter turn to the
    left for [ang = 1] and to the right for [ang = -1]; their direction
    is a remainder modulo 2 pi, an angle between 0 and 2 pi. *)
Theorem axial_lines_geometry (c : center) (pa : R) (rd ang : Z) (pR : R) :
  ang = 1%Z \/ ang = (-1)%Z ->
  line_start c pa rd ang pR
  = {| center_x := center_x c + IZR rd * pR * cos pa;
       center_y := center_y c + IZR rd * pR * sin pa |} /\
  cos (branch_pa pa ang) = - IZR ang * sin pa /\
  sin (branch_pa pa ang) = IZR ang * cos pa /\
  0 <= branch_pa pa ang <= 2 * PI.
Proof.
  intros Hang. split; [|split; [|split]].
  - unfold line_start. destruct Hang as [-> | ->]; simpl.
    + rewrite Rplus_0_r. f_equal; lra.
    + rewrite neg_cos, neg_sin. f_equal; lra.
  - unfold branch_pa. destruct (pymod_turns (pa + IZR ang * PI / 2)) as [k ->].
    rewrite (proj1 (cos_sin_turns _ k)).
    destruct Hang as [-> | ->].
    + replace (pa + 1 * PI / 2) with (pa + PI / 2) by lra.
      rewrite cos_plus, cos_PI2, sin_PI2. lra.
    + replace (pa + -1 * PI / 2) with (pa - PI / 2) by lra.
      rewrite cos_minus, cos_PI2, sin_PI2. lra.
  - unfold branch_pa. destruct (pymod_turns (pa + IZR ang * PI / 2)) as [k ->].
    rewrite (proj2 (cos_sin_turns _ k)).
    destruct Hang as [-> | ->].
    + replace (pa + 1 * PI / 2) with (pa + PI / 2) by lra.
      rewrite sin_plus, cos_PI2, sin_PI2. lra.
    + replace (pa + -1 * PI / 2) with (pa - PI / 2) by lra.
      rewrite sin_minus, cos_PI2, sin_PI2. lra.
  - unfold branch_pa. apply pymod_range_closed. pose proof PI_RGT_0. lra.
Qed.

(** X19, witness: the quadrant [(1, -1)] at the position 3 along an axis
    at the angle 0: the line starts 3 pixels to the right of the centre
    and goes at a right angle to the axis, to the right. *)
Lemma axial_lines_geometry_witness :
  line_start {| center_x := 2; center_y := 2 |} 0 1 (-1) 3
  = {| center_x := 2 + IZR 1 * 3 * cos 0; center_y := 2 + IZR 1 * 3 * sin 0 |}
  /\ cos (branch_pa 0 (-1)) = - IZR (-1) * sin 0
  /\ sin (branch_pa 0 (-1)) = IZR (-1) * cos 0
  /\ 0 <= branch_pa 0 (-1) <= 2 * PI.
Proof.
  exact (axial_lines_geometry {| center_x := 2; center_y := 2 |}
           0 1 (-1) 3 (or_intror eq_refl)).
Defined.

(** Sampling as the package does by default. *)
Definition default_sampling : options_t :=
  {| ap_pixscale := 1; ap_samplestyle := None;
     ap_samplelinearscale := None; ap_samplegeometricscale := None;
     ap_axialprof_pa := None |}.

Definition no_profile : results_t :=
  {| prof_data_R := None; psf_fwhm := 2; init_pa := 0;
     results_center := {| center_x := 2; center_y := 2 |} |}.

Definition five_by_five : image := replicate 5 (replicate 5 (Fin 0)).

(** X18, witness: on an image of 5 by 5 pixels the limit is 2.5 pixels,
    which three steps pass. *)
Lemma axial_positions_witness :
  Rproflim_of five_by_five no_profile default_sampling = Value (5 / 2) /\
  5 / 2 <= INR 3 /\
  exists R_ : list R,
    axial_R 3 five_by_five no_profile default_sampling = Value R_ /\
    (length R_ <= 4)%nat.
Proof.
  assert (H0 : Rproflim_of five_by_five no_profile default_sampling
               = Value (5 / 2)).
  { unfold Rproflim_of. simpl. apply (f_equal Value). lra. }
  assert (H : 5 / 2 <= INR 3) by (simpl; lra).
  split; [exact H0|]. split; [exact H|].
  destruct (axial_positions five_by_five no_profile default_sampling
              (5 / 2) 3 H0 H)
    as (R_ & Hrun & _ & Hlen & _).
  exists R_. split; [apply Hrun; lia | lia].
Defined.

End Axial.
